(** * MediasoupClient: signaling orchestration of src/app/mediasoupClient.ts

    A shallow embedding of the [MediasoupClient] class.  The class is event
    driven: every public call, every websocket message and every completion
    of a media-engine operation is one input, handled to completion (all
    promise reactions that are ready run before the next input).  The
    functions below keep the names of the methods they embed; an [async]
    method that suspends is split at its [await] into the part that runs at
    the call and the part that runs when the awaited promise settles. *)

From Stdlib Require Import List String Bool Arith PeanoNat Lia.
Import ListNotations.
Open Scope string_scope.
Open Scope list_scope.

(** ** JavaScript [Map<string, V>]

    A [Map] iterates in insertion order, and [set] on a key that is present
    keeps the key's position: an association list with the operations of the
    source ([get], [has], [set], [delete], [clear], [values]). *)
Module JsMap.
Section Ops.
Context {V : Type}.

Definition t := list (string * V).

Definition empty : t := [].

Fixpoint get (k : string) (m : t) : option V :=
  match m with
  | [] => None
  | (k', v) :: r => if String.eqb k k' then Some v else get k r
  end.

Definition has (k : string) (m : t) : bool :=
  match get k m with Some _ => true | None => false end.

Fixpoint set (k : string) (v : V) (m : t) : t :=
  match m with
  | [] => [(k, v)]
  | (k', v') :: r =>
      if String.eqb k k' then (k', v) :: r else (k', v') :: set k v r
  end.

Fixpoint delete (k : string) (m : t) : t :=
  match m with
  | [] => []
  | (k', v') :: r =>
      if String.eqb k k' then r else (k', v') :: delete k r
  end.

Definition clear (m : t) : t := [].

Definition keys (m : t) : list string := map fst m.

Definition values (m : t) : list V := map snd m.
End Ops.
Arguments t : clear implicits.
End JsMap.

(** ** Data of the session *)

(** Values the client only forwards (DTLS parameters, RTP parameters). *)
Definition Opaque := string.

(** A [MediaStreamTrack], by its id. *)
Definition Track := string.

(** Objects of the media engine.  A [Device] is an object allocated by
    [new Device()], named by its allocation number; a [Transport] is named by
    its [id], which the engine takes from the server's transport data. *)
Definition Device := nat.

Record Transport := { transport_id : string }.

Record Producer := { producer_id : string }.

Record Consumer := { consumer_id : string; consumer_track : Track }.

(** An element of [pendingExistingProducers]. *)
Record ProducerInfo :=
  { info_participantId : string; info_producerId : string; info_kind : string }.

(** [data.data] of a [producerTransportCreated] / [consumerTransportCreated]
    message. *)
Record TransportData := { data_id : string; data_parameters : Opaque }.

(** [data.data] of a [consumed] message. *)
Record ConsumedData :=
  { consumed_id : string; consumed_producerId : string;
    consumed_kind : string; consumed_rtpParameters : Opaque }.

(** Messages of the server, by the [type] the [switch] of [setupWebSocket]
    dispatches on.  [joined] carries [data.existingProducers], which may be
    absent. *)
Inductive ServerMsg :=
| joined (existingProducers : option (list ProducerInfo))
| rtpCapabilities (caps : Opaque)
| producerTransportCreated (data : TransportData)
| producerTransportConnected
| produced (id : string)
| consumerTransportCreated (data : TransportData)
| consumerTransportConnected
| consumed (data : ConsumedData)
| participantJoined (pid : string)
| newProducer (info : ProducerInfo)
| participantLeft (pid : string)
| error (message : string)
| otherType (type : string).

(** Messages the client passes to [send]. *)
Inductive ClientMsg :=
| join (participantId : string)
| getRtpCapabilities
| createProducerTransport_req (participantId : string)
| connectProducerTransport (participantId transportId : string) (dtls : Opaque)
| produce (participantId transportId kind : string) (rtp : Opaque)
| createConsumerTransport_req (participantId : string)
| connectConsumerTransport (participantId transportId : string) (dtls : Opaque)
| consume (participantId transportId producerParticipantId producerId : string)
          (device : Device).

(** The arguments of an [emit]. *)
Inductive Payload :=
| NoArgs
| JoinedArgs (existingProducers : option (list ProducerInfo))
| TransportArgs (data : TransportData)
| IdArgs (id : string)
| ConsumedArgs (data : ConsumedData)
| ParticipantArgs (pid : string)
| ProducerArgs (info : ProducerInfo).

(** The arguments of one [consumeTrack] call. *)
Record ConsumeCall := { producerParticipantId : string; producerId : string }.

(** How a promise settles. *)
Inductive Settlement (A : Type) :=
| Fulfilled (v : A)
| Rejected (message : string).
Arguments Fulfilled {A} v.
Arguments Rejected {A} message.

(** One link of the promise chain [consumeQueue]: the promise
    [previous.then(() => this._consumeTrack(..)).catch(() => null)] that one
    [consumeTrack] call appended.  [Queued]: the [then] reaction has not run;
    [Running]: [_consumeTrack] was started and its promise is pending;
    [Settled r]: the link's promise is settled with [r]. *)
Inductive LinkState :=
| Queued
| Running
| Settled (r : Settlement (option Track)).

Record Link := { link_call : ConsumeCall; link_state : LinkState }.

(** The closures the class registers as event callbacks, with what each one
    captures.  [UserCallback n] is the n-th callback of the application,
    passed to the public [on]; it records its invocation. *)
Inductive Callback :=
| UserCallback (n : nat)
| ProducerTransportCreatedCb (track : Track)
| ProducerTransportConnectedCb (transportId : string)
| ProducedCb (transportId : string)
| ConsumerTransportCreatedCb (link : nat) (call : ConsumeCall)
| ConsumerTransportConnectedCb (transportId : string)
| ConsumedCb (link : nat) (consumerTransport : Transport).

(** An element of a handler array: a callback passed to [on], or the
    [wrapper] closure that [once] allocates ([w] is its allocation number,
    which is what [indexOf] compares). *)
Inductive Handler :=
| Plain (callback : Callback)
| Wrapper (w : nat) (callback : Callback).

(** [ws.readyState]. *)
Inductive ReadyState := CONNECTING | OPEN | CLOSING | CLOSED.

(** What an instrumented environment observes, in order. *)
Inductive Resource :=
| TheProducer (p : Producer)
| TheConsumer (c : Consumer)
| TheProducerTransport (t : Transport)
| TheConsumerTransport (t : Transport)
| TheSocket.

Inductive Obs :=
| Sent (m : ClientMsg)
| Emitted (event : string) (args : Payload)
| Delivered (n : nat) (event : string) (args : Payload)
| CloseCalled (r : Resource)
| Started (link : nat)
| ProduceSettled (track : Track) (r : Settlement Producer)
| EngineResumed (cb : Callback) (args : Payload).

(** The fields of the class, then the operations of the engine that are
    pending, then the observations.  ([pendingConsumerTransportResolve] is
    never read or written by the class and is left out.) *)
Record Client := {
  ws : ReadyState;
  onopen : bool;
  device : option Device;
  participantId : string;
  producerTransport : option Transport;
  consumerTransports : JsMap.t Transport;
  producers : JsMap.t Producer;
  consumers : JsMap.t Consumer;
  eventHandlers : JsMap.t (list Handler);
  pendingExistingProducers : list ProducerInfo;
  consumeQueue : list Link;
  (* the engine and the allocator *)
  nextObject : nat;
  loading : list Device;
  loaded : list Device;
  producing : list (Transport * Track);
  consuming : list (nat * Transport * ConsumedData);
  (* instrumentation *)
  trace : list Obs
}.

(** [new MediasoupClient(wsUrl, participantId)]. *)
Definition new_MediasoupClient (pid : string) : Client :=
  {| ws := CONNECTING; onopen := false; device := None; participantId := pid;
     producerTransport := None; consumerTransports := JsMap.empty;
     producers := JsMap.empty; consumers := JsMap.empty;
     eventHandlers := JsMap.empty; pendingExistingProducers := [];
     consumeQueue := []; nextObject := 0; loading := []; loaded := [];
     producing := []; consuming := []; trace := [] |}.

(** Field updates. *)
Definition with_ws (x : ReadyState) (c : Client) : Client :=
  {| ws := x; onopen := onopen c; device := device c;
     participantId := participantId c; producerTransport := producerTransport c;
     consumerTransports := consumerTransports c; producers := producers c;
     consumers := consumers c; eventHandlers := eventHandlers c;
     pendingExistingProducers := pendingExistingProducers c;
     consumeQueue := consumeQueue c; nextObject := nextObject c;
     loading := loading c; loaded := loaded c; producing := producing c;
     consuming := consuming c; trace := trace c |}.

Definition with_onopen (x : bool) (c : Client) : Client :=
  {| ws := ws c; onopen := x; device := device c;
     participantId := participantId c; producerTransport := producerTransport c;
     consumerTransports := consumerTransports c; producers := producers c;
     consumers := consumers c; eventHandlers := eventHandlers c;
     pendingExistingProducers := pendingExistingProducers c;
     consumeQueue := consumeQueue c; nextObject := nextObject c;
     loading := loading c; loaded := loaded c; producing := producing c;
     consuming := consuming c; trace := trace c |}.

Definition with_device (x : option Device) (c : Client) : Client :=
  {| ws := ws c; onopen := onopen c; device := x;
     participantId := participantId c; producerTransport := producerTransport c;
     consumerTransports := consumerTransports c; producers := producers c;
     consumers := consumers c; eventHandlers := eventHandlers c;
     pendingExistingProducers := pendingExistingProducers c;
     consumeQueue := consumeQueue c; nextObject := nextObject c;
     loading := loading c; loaded := loaded c; producing := producing c;
     consuming := consuming c; trace := trace c |}.

Definition with_producerTransport (x : option Transport) (c : Client) : Client :=
  {| ws := ws c; onopen := onopen c; device := device c;
     participantId := participantId c; producerTransport := x;
     consumerTransports := consumerTransports c; producers := producers c;
     consumers := consumers c; eventHandlers := eventHandlers c;
     pendingExistingProducers := pendingExistingProducers c;
     consumeQueue := consumeQueue c; nextObject := nextObject c;
     loading := loading c; loaded := loaded c; producing := producing c;
     consuming := consuming c; trace := trace c |}.

Definition with_consumerTransports (x : JsMap.t Transport) (c : Client) : Client :=
  {| ws := ws c; onopen := onopen c; device := device c;
     participantId := participantId c; producerTransport := producerTransport c;
     consumerTransports := x; producers := producers c;
     consumers := consumers c; eventHandlers := eventHandlers c;
     pendingExistingProducers := pendingExistingProducers c;
     consumeQueue := consumeQueue c; nextObject := nextObject c;
     loading := loading c; loaded := loaded c; producing := producing c;
     consuming := consuming c; trace := trace c |}.

Definition with_producers (x : JsMap.t Producer) (c : Client) : Client :=
  {| ws := ws c; onopen := onopen c; device := device c;
     participantId := participantId c; producerTransport := producerTransport c;
     consumerTransports := consumerTransports c; producers := x;
     consumers := consumers c; eventHandlers := eventHandlers c;
     pendingExistingProducers := pendingExistingProducers c;
     consumeQueue := consumeQueue c; nextObject := nextObject c;
     loading := loading c; loaded := loaded c; producing := producing c;
     consuming := consuming c; trace := trace c |}.

Definition with_consumers (x : JsMap.t Consumer) (c : Client) : Client :=
  {| ws := ws c; onopen := onopen c; device := device c;
     participantId := participantId c; producerTransport := producerTransport c;
     consumerTransports := consumerTransports c; producers := producers c;
     consumers := x; eventHandlers := eventHandlers c;
     pendingExistingProducers := pendingExistingProducers c;
     consumeQueue := consumeQueue c; nextObject := nextObject c;
     loading := loading c; loaded := loaded c; producing := producing c;
     consuming := consuming c; trace := trace c |}.

Definition with_eventHandlers (x : JsMap.t (list Handler)) (c : Client) : Client :=
  {| ws := ws c; onopen := onopen c; device := device c;
     participantId := participantId c; producerTransport := producerTransport c;
     consumerTransports := consumerTransports c; producers := producers c;
     consumers := consumers c; eventHandlers := x;
     pendingExistingProducers := pendingExistingProducers c;
     consumeQueue := consumeQueue c; nextObject := nextObject c;
     loading := loading c; loaded := loaded c; producing := producing c;
     consuming := consuming c; trace := trace c |}.

Definition with_pendingExistingProducers (x : list ProducerInfo) (c : Client) : Client :=
  {| ws := ws c; onopen := onopen c; device := device c;
     participantId := participantId c; producerTransport := producerTransport c;
     consumerTransports := consumerTransports c; producers := producers c;
     consumers := consumers c; eventHandlers := eventHandlers c;
     pendingExistingProducers := x;
     consumeQueue := consumeQueue c; nextObject := nextObject c;
     loading := loading c; loaded := loaded c; producing := producing c;
     consuming := consuming c; trace := trace c |}.

Definition with_consumeQueue (x : list Link) (c : Client) : Client :=
  {| ws := ws c; onopen := onopen c; device := device c;
     participantId := participantId c; producerTransport := producerTransport c;
     consumerTransports := consumerTransports c; producers := producers c;
     consumers := consumers c; eventHandlers := eventHandlers c;
     pendingExistingProducers := pendingExistingProducers c;
     consumeQueue := x; nextObject := nextObject c;
     loading := loading c; loaded := loaded c; producing := producing c;
     consuming := consuming c; trace := trace c |}.

Definition with_nextObject (x : nat) (c : Client) : Client :=
  {| ws := ws c; onopen := onopen c; device := device c;
     participantId := participantId c; producerTransport := producerTransport c;
     consumerTransports := consumerTransports c; producers := producers c;
     consumers := consumers c; eventHandlers := eventHandlers c;
     pendingExistingProducers := pendingExistingProducers c;
     consumeQueue := consumeQueue c; nextObject := x;
     loading := loading c; loaded := loaded c; producing := producing c;
     consuming := consuming c; trace := trace c |}.

Definition with_loading (x : list Device) (c : Client) : Client :=
  {| ws := ws c; onopen := onopen c; device := device c;
     participantId := participantId c; producerTransport := producerTransport c;
     consumerTransports := consumerTransports c; producers := producers c;
     consumers := consumers c; eventHandlers := eventHandlers c;
     pendingExistingProducers := pendingExistingProducers c;
     consumeQueue := consumeQueue c; nextObject := nextObject c;
     loading := x; loaded := loaded c; producing := producing c;
     consuming := consuming c; trace := trace c |}.

Definition with_loaded (x : list Device) (c : Client) : Client :=
  {| ws := ws c; onopen := onopen c; device := device c;
     participantId := participantId c; producerTransport := producerTransport c;
     consumerTransports := consumerTransports c; producers := producers c;
     consumers := consumers c; eventHandlers := eventHandlers c;
     pendingExistingProducers := pendingExistingProducers c;
     consumeQueue := consumeQueue c; nextObject := nextObject c;
     loading := loading c; loaded := x; producing := producing c;
     consuming := consuming c; trace := trace c |}.

Definition with_producing (x : list (Transport * Track)) (c : Client) : Client :=
  {| ws := ws c; onopen := onopen c; device := device c;
     participantId := participantId c; producerTransport := producerTransport c;
     consumerTransports := consumerTransports c; producers := producers c;
     consumers := consumers c; eventHandlers := eventHandlers c;
     pendingExistingProducers := pendingExistingProducers c;
     consumeQueue := consumeQueue c; nextObject := nextObject c;
     loading := loading c; loaded := loaded c; producing := x;
     consuming := consuming c; trace := trace c |}.

Definition with_consuming (x : list (nat * Transport * ConsumedData)) (c : Client) : Client :=
  {| ws := ws c; onopen := onopen c; device := device c;
     participantId := participantId c; producerTransport := producerTransport c;
     consumerTransports := consumerTransports c; producers := producers c;
     consumers := consumers c; eventHandlers := eventHandlers c;
     pendingExistingProducers := pendingExistingProducers c;
     consumeQueue := consumeQueue c; nextObject := nextObject c;
     loading := loading c; loaded := loaded c; producing := producing c;
     consuming := x; trace := trace c |}.

Definition observe (o : Obs) (c : Client) : Client :=
  {| ws := ws c; onopen := onopen c; device := device c;
     participantId := participantId c; producerTransport := producerTransport c;
     consumerTransports := consumerTransports c; producers := producers c;
     consumers := consumers c; eventHandlers := eventHandlers c;
     pendingExistingProducers := pendingExistingProducers c;
     consumeQueue := consumeQueue c; nextObject := nextObject c;
     loading := loading c; loaded := loaded c; producing := producing c;
     consuming := consuming c; trace := trace c ++ [o] |}.

(** ** The class *)

(** [send]: only while the socket is open; dropped otherwise. *)
Definition send (message : ClientMsg) (c : Client) : Client :=
  match ws c with
  | OPEN => observe (Sent message) c
  | _ => c
  end.

(** *** The correlation bus: [on], [once], [off], [emit] *)

(** [this.eventHandlers.get(event)], with [[]] for [undefined]. *)
Definition handlersOf (event : string) (c : Client) : list Handler :=
  match JsMap.get event (eventHandlers c) with
  | Some handlers => handlers
  | None => []
  end.

Definition on (event : string) (callback : Handler) (c : Client) : Client :=
  let c1 :=
    if JsMap.has event (eventHandlers c) then c
    else with_eventHandlers (JsMap.set event [] (eventHandlers c)) c in
  with_eventHandlers
    (JsMap.set event (handlersOf event c1 ++ [callback]) (eventHandlers c1)) c1.

(** [once] allocates the [wrapper] closure and registers it. *)
Definition once (event : string) (callback : Callback) (c : Client) : Client :=
  let w := nextObject c in
  on event (Wrapper w callback) (with_nextObject (S w) c).

Definition is_wrapper (w : nat) (h : Handler) : bool :=
  match h with
  | Wrapper w' _ => Nat.eqb w w'
  | Plain _ => false
  end.

(** [handlers.indexOf(callback)] for a wrapper; [None] is [-1]. *)
Fixpoint indexOf (w : nat) (handlers : list Handler) : option nat :=
  match handlers with
  | [] => None
  | h :: r =>
      if is_wrapper w h then Some 0
      else match indexOf w r with Some i => Some (S i) | None => None end
  end.

(** [handlers.splice(index, 1)]. *)
Definition splice1 (index : nat) (handlers : list Handler) : list Handler :=
  firstn index handlers ++ skipn (S index) handlers.

Definition off (event : string) (w : nat) (c : Client) : Client :=
  match JsMap.get event (eventHandlers c) with
  | Some handlers =>
      match indexOf w handlers with
      | Some index =>
          with_eventHandlers
            (JsMap.set event (splice1 index handlers) (eventHandlers c)) c
      | None => c
      end
  | None => c
  end.

(** *** The promise chain [consumeQueue] *)

(** [.catch(() => null)]. *)
Definition catch_null (r : Settlement (option Track)) : Settlement (option Track) :=
  match r with
  | Fulfilled v => Fulfilled v
  | Rejected _ => Fulfilled None
  end.

Fixpoint settle_link (k : nat) (r : Settlement (option Track)) (q : list Link)
  : list Link :=
  match q, k with
  | [], _ => []
  | l :: rest, 0 =>
      match link_state l with
      | Running =>
          {| link_call := link_call l; link_state := Settled (catch_null r) |}
          :: rest
      | _ => l :: rest
      end
  | l :: rest, S k' => l :: settle_link k' r rest
  end.

(** The promise of the [_consumeTrack] that link [k] started settles with
    [r]; settling a promise that is not pending does nothing. *)
Definition settle (k : nat) (r : Settlement (option Track)) (c : Client) : Client :=
  with_consumeQueue (settle_link k r (consumeQueue c)) c.

Definition settle_if (k : nat) (r : option (Settlement (option Track)))
    (c : Client) : Client :=
  match r with
  | Some s => settle k s c
  | None => c
  end.

Section WithEngine.

(** The synchronous operations of the media engine, [device.createSendTransport]
    and [device.createRecvTransport]: [None] when the engine throws. *)
Variable createSendTransport : TransportData -> option Transport.
Variable createRecvTransport : TransportData -> option Transport.

(** *** Consuming *)

(** The executor of the promise [_consumeTrack] returns: register the
    one-shot [consumed] handler, send [consume].  [this.device!] throws inside
    the executor when the device is unset, which rejects the promise. *)
Definition _consumeTrack_negotiate (k : nat) (call : ConsumeCall)
    (consumerTransport : Transport) (c : Client)
  : Client * option (Settlement (option Track)) :=
  let c1 := once "consumed" (ConsumedCb k consumerTransport) c in
  match device c1 with
  | Some d =>
      (send (consume (participantId c1) (transport_id consumerTransport)
               (producerParticipantId call) (producerId call) d) c1, None)
  | None => (c1, Some (Rejected "device is undefined"))
  end.

Definition createConsumerTransport (k : nat) (call : ConsumeCall) (c : Client)
  : Client :=
  send (createConsumerTransport_req (participantId c))
    (once "consumerTransportCreated" (ConsumerTransportCreatedCb k call) c).

(** [_consumeTrack] up to its first suspension: the client, and how the
    promise settled if it already did. *)
Definition _consumeTrack (k : nat) (call : ConsumeCall) (c : Client)
  : Client * option (Settlement (option Track)) :=
  match device c with
  | None => (c, Some (Rejected "Device not initialized"))
  | Some _ =>
      let transportKey := producerParticipantId call in
      match JsMap.get transportKey (consumerTransports c) with
      | Some consumerTransport => _consumeTrack_negotiate k call consumerTransport c
      | None => (createConsumerTransport k call c, None)
      end
  end.

(** [None]: throws. *)
Definition setupConsumerTransport (transportData : TransportData) (c : Client)
  : option Transport :=
  match device c with
  | None => None
  | Some _ => createRecvTransport transportData
  end.

(** *** Producing *)

Definition setupProducerTransport (transportData : TransportData) (c : Client)
  : option Client :=
  match device c with
  | None => None
  | Some _ =>
      match createSendTransport transportData with
      | Some t => Some (with_producerTransport (Some t) c)
      | None => None
      end
  end.

(** [produceTrack] from its second check on. *)
Definition produceTrack_resume (track : Track) (c : Client) : Client :=
  match producerTransport c with
  | None =>
      observe (ProduceSettled track (Rejected "Producer transport not created")) c
  | Some t => with_producing (producing c ++ [(t, track)]) c
  end.

Definition createProducerTransport (track : Track) (c : Client) : Client :=
  send (createProducerTransport_req (participantId c))
    (once "producerTransportCreated" (ProducerTransportCreatedCb track) c).

Definition produceTrack (track : Track) (c : Client) : Client :=
  match device c with
  | None => observe (ProduceSettled track (Rejected "Device not initialized")) c
  | Some _ =>
      match producerTransport c with
      | None => createProducerTransport track c
      | Some _ => produceTrack_resume track c
      end
  end.

(** *** Callbacks *)

(** The body of a callback.  An [async] callback that throws rejects its own
    promise, which nobody observes: the state is as it was. *)
Definition call_callback (event : string) (cb : Callback) (args : Payload)
    (c : Client) : Client :=
  match cb with
  | UserCallback n => observe (Delivered n event args) c
  | ProducerTransportCreatedCb track =>
      match args with
      | TransportArgs data =>
          match setupProducerTransport data c with
          | Some c1 => produceTrack_resume track c1
          | None => c
          end
      | _ => c
      end
  | ConsumerTransportCreatedCb k call =>
      match args with
      | TransportArgs data =>
          match setupConsumerTransport data c with
          | Some transport =>
              let c1 :=
                with_consumerTransports
                  (JsMap.set (producerParticipantId call) transport
                     (consumerTransports c)) c in
              let (c2, r) := _consumeTrack_negotiate k call transport c1 in
              settle_if k r c2
          | None => c
          end
      | _ => c
      end
  | ConsumedCb k consumerTransport =>
      match args with
      | ConsumedArgs data =>
          with_consuming (consuming c ++ [(k, consumerTransport, data)]) c
      | _ => settle k (Fulfilled None) c
      end
  | ProducerTransportConnectedCb _
  | ConsumerTransportConnectedCb _
  | ProducedCb _ => observe (EngineResumed cb args) c
  end.

Definition invoke (event : string) (h : Handler) (args : Payload) (c : Client)
  : Client :=
  match h with
  | Plain cb => call_callback event cb args c
  | Wrapper w cb => off event w (call_callback event cb args c)
  end.

(** [handlers.forEach(..)] from index [k], [n] indices to go.  [forEach]
    reads the array's length once and then visits the indices below it that
    the array has when it gets there, on the array as the handlers have left
    it. *)
Fixpoint forEach (n k : nat) (event : string) (args : Payload) (c : Client)
  : Client :=
  match n with
  | 0 => c
  | S n' =>
      match nth_error (handlersOf event c) k with
      | Some h => forEach n' (S k) event args (invoke event h args c)
      | None => forEach n' (S k) event args c
      end
  end.

Definition emit (event : string) (args : Payload) (c : Client) : Client :=
  let c1 := observe (Emitted event args) c in
  match JsMap.get event (eventHandlers c1) with
  | Some handlers => forEach (List.length handlers) 0 event args c1
  | None => c1
  end.

(** *** Capability negotiation and the pending-producer buffer *)

(** [handleRtpCapabilities] up to [await this.device.load(..)]. *)
Definition handleRtpCapabilities (caps : Opaque) (c : Client) : Client :=
  let d := nextObject c in
  with_loading (loading c ++ [d])
    (with_device (Some d) (with_nextObject (S d) c)).

(** [handleRtpCapabilities] after the load: the flush of
    [pendingExistingProducers]. *)
Definition handleRtpCapabilities_resume (c : Client) : Client :=
  match pendingExistingProducers c with
  | [] => c
  | _ :: _ =>
      let producers := pendingExistingProducers c in
      fold_left
        (fun c' producer =>
           emit "newProducer"
             (ProducerArgs
                {| info_participantId := info_participantId producer;
                   info_producerId := info_producerId producer;
                   info_kind := info_kind producer |}) c')
        producers (with_pendingExistingProducers [] c)
  end.

(** *** Participants *)

Definition handleParticipantLeft (pid : string) (c : Client) : Client :=
  let c1 :=
    match JsMap.get pid (consumerTransports c) with
    | Some transport =>
        let c0 := observe (CloseCalled (TheConsumerTransport transport)) c in
        with_consumerTransports (JsMap.delete pid (consumerTransports c0)) c0
    | None => c
    end in
  emit "participantLeft" (ParticipantArgs pid) c1.

(** *** [ws.onmessage] *)

Definition onmessage (data : ServerMsg) (c : Client) : Client :=
  match data with
  | joined existingProducers =>
      let c1 := emit "joined" (JoinedArgs existingProducers) c in
      match existingProducers with
      | Some (p :: l) => with_pendingExistingProducers (p :: l) c1
      | _ => c1
      end
  | rtpCapabilities caps => handleRtpCapabilities caps c
  | producerTransportCreated d => emit "producerTransportCreated" (TransportArgs d) c
  | producerTransportConnected => emit "producerTransportConnected" NoArgs c
  | produced id => emit "produced" (IdArgs id) c
  | consumerTransportCreated d => emit "consumerTransportCreated" (TransportArgs d) c
  | consumerTransportConnected => emit "consumerTransportConnected" NoArgs c
  | consumed d => emit "consumed" (ConsumedArgs d) c
  | participantJoined pid => emit "participantJoined" (ParticipantArgs pid) c
  | newProducer info =>
      emit "newProducer"
        (ProducerArgs
           {| info_participantId := info_participantId info;
              info_producerId := info_producerId info;
              info_kind := info_kind info |}) c
  | participantLeft pid => handleParticipantLeft pid c
  | error _ => c
  | otherType _ => c
  end.

(** *** Connecting and disconnecting *)

Definition joinRoom (c : Client) : Client :=
  send getRtpCapabilities (send (join (participantId c)) c).

Definition connect (c : Client) : Client :=
  match ws c with
  | OPEN => joinRoom c
  | _ => with_onopen true c
  end.

Definition close_all (rs : list Resource) (c : Client) : Client :=
  fold_left (fun c' r => observe (CloseCalled r) c') rs c.

(** [ws.close()]. *)
Definition ws_close (c : Client) : Client :=
  let c1 := observe (CloseCalled TheSocket) c in
  match ws c1 with
  | CLOSED => c1
  | _ => with_ws CLOSING c1
  end.

Definition disconnect (c : Client) : Client :=
  let c1 := close_all (map TheProducer (JsMap.values (producers c))) c in
  let c2 := with_producers (JsMap.clear (producers c1)) c1 in
  let c3 := close_all (map TheConsumer (JsMap.values (consumers c2))) c2 in
  let c4 := with_consumers (JsMap.clear (consumers c3)) c3 in
  let c5 :=
    match producerTransport c4 with
    | Some t => observe (CloseCalled (TheProducerTransport t)) c4
    | None => c4
    end in
  let c6 :=
    close_all (map TheConsumerTransport (JsMap.values (consumerTransports c5))) c5 in
  let c7 := with_consumerTransports (JsMap.clear (consumerTransports c6)) c6 in
  ws_close c7.

(** *** [consumeTrack] and the reactions of the chain *)

(** The reactions of the chain that are ready.  [prev] is how the previous
    link's promise settled ([None]: still pending); the chain starts from
    [Promise.resolve(null)].  A [then] callback runs when the previous promise
    is fulfilled; a rejection would skip it and go to the [catch]. *)
Fixpoint react (prev : option (Settlement (option Track))) (k : nat)
    (q : list Link) (c : Client) : list Link * Client :=
  match q with
  | [] => ([], c)
  | l :: rest =>
      match link_state l with
      | Settled r =>
          let (rest', c') := react (Some r) (S k) rest c in (l :: rest', c')
      | Running =>
          let (rest', c') := react None (S k) rest c in (l :: rest', c')
      | Queued =>
          match prev with
          | None =>
              let (rest', c') := react None (S k) rest c in (l :: rest', c')
          | Some (Rejected m) =>
              let r := catch_null (Rejected m) in
              let (rest', c') := react (Some r) (S k) rest c in
              ({| link_call := link_call l; link_state := Settled r |} :: rest', c')
          | Some (Fulfilled _) =>
              let (c1, s) := _consumeTrack k (link_call l) (observe (Started k) c) in
              match s with
              | Some r0 =>
                  let r := catch_null r0 in
                  let (rest', c') := react (Some r) (S k) rest c1 in
                  ({| link_call := link_call l; link_state := Settled r |} :: rest', c')
              | None =>
                  let (rest', c') := react None (S k) rest c1 in
                  ({| link_call := link_call l; link_state := Running |} :: rest', c')
              end
          end
      end
  end.

Definition run_reactions (c : Client) : Client :=
  let (q, c') := react (Some (Fulfilled None)) 0 (consumeQueue c) c in
  with_consumeQueue q c'.

(** [consumeTrack]: append a link to the chain. *)
Definition consumeTrack (producerParticipantId producerId : string) (c : Client)
  : Client :=
  with_consumeQueue
    (consumeQueue c ++
       [{| link_call := {| producerParticipantId := producerParticipantId;
                           producerId := producerId |};
           link_state := Queued |}]) c.

(** What the caller of the [k]-th [consumeTrack] call has got from
    [await this.consumeQueue], if anything yet. *)
Definition consumeTrack_result (k : nat) (c : Client)
  : option (Settlement (option Track)) :=
  match nth_error (consumeQueue c) k with
  | Some {| link_state := Settled r |} => Some r
  | _ => None
  end.

(** *** The engine's events *)

Inductive Direction := Sending | Receiving.

(** The [connect] handler that [setupProducerTransport] /
    [setupConsumerTransport] puts on the transport. *)
Definition on_transport_connect (dir : Direction) (transportId : string)
    (dtls : Opaque) (c : Client) : Client :=
  match dir with
  | Sending =>
      send (connectProducerTransport (participantId c) transportId dtls)
        (once "producerTransportConnected"
           (ProducerTransportConnectedCb transportId) c)
  | Receiving =>
      send (connectConsumerTransport (participantId c) transportId dtls)
        (once "consumerTransportConnected"
           (ConsumerTransportConnectedCb transportId) c)
  end.

(** The [produce] handler on the producer transport. *)
Definition on_transport_produce (transportId kind : string) (rtp : Opaque)
    (c : Client) : Client :=
  send (produce (participantId c) transportId kind rtp)
    (once "produced" (ProducedCb transportId) c).

Fixpoint remove_nth {A} (i : nat) (l : list A) : list A :=
  match l, i with
  | [], _ => []
  | _ :: r, 0 => r
  | x :: r, S i' => x :: remove_nth i' r
  end.

Fixpoint remove_device (d : Device) (l : list Device) : list Device :=
  match l with
  | [] => []
  | x :: r => if Nat.eqb d x then r else x :: remove_device d r
  end.

(** [await this.device.load(..)] settles for device [d]. *)
Definition load_settled (d : Device) (ok : bool) (c : Client) : Client :=
  if existsb (Nat.eqb d) (loading c) then
    let c1 := with_loading (remove_device d (loading c)) c in
    if ok then handleRtpCapabilities_resume (with_loaded (loaded c1 ++ [d]) c1)
    else c1
  else c.

(** [await this.producerTransport.produce({ track })] settles, for the
    [i]-th pending call. *)
Definition produce_settled (i : nat) (r : option Producer) (c : Client) : Client :=
  match nth_error (producing c) i with
  | Some (_, track) =>
      let c1 := with_producing (remove_nth i (producing c)) c in
      match r with
      | Some producer =>
          observe (ProduceSettled track (Fulfilled producer))
            (with_producers
               (JsMap.set (producer_id producer) producer (producers c1)) c1)
      | None => observe (ProduceSettled track (Rejected "produce failed")) c1
      end
  | None => c
  end.

(** [await consumerTransport!.consume(..)] settles, for the [i]-th pending
    call: the rest of the [try], or the [catch]. *)
Definition consume_settled (i : nat) (r : option Consumer) (c : Client) : Client :=
  match nth_error (consuming c) i with
  | Some (k, _, _) =>
      let c1 := with_consuming (remove_nth i (consuming c)) c in
      match r with
      | Some consumer =>
          settle k (Fulfilled (Some (consumer_track consumer)))
            (with_consumers
               (JsMap.set (consumer_id consumer) consumer (consumers c1)) c1)
      | None => settle k (Fulfilled None) c1
      end
  | None => c
  end.

(** ** Inputs and runs *)

Inductive Input :=
| Call_connect
| Call_on (event : string) (n : nat)
| Call_produceTrack (track : Track)
| Call_consumeTrack (producerParticipantId producerId : string)
| Call_disconnect
| Socket_open
| Socket_closed
| Socket_message (data : ServerMsg)
| Engine_load (d : Device) (ok : bool)
| Engine_connect (dir : Direction) (transportId : string) (dtls : Opaque)
| Engine_produce (transportId kind : string) (rtp : Opaque)
| Engine_produced (i : nat) (r : option Producer)
| Engine_consumed (i : nat) (r : option Consumer).

Definition handle (i : Input) (c : Client) : Client :=
  match i with
  | Call_connect => connect c
  | Call_on event n => on event (Plain (UserCallback n)) c
  | Call_produceTrack track => produceTrack track c
  | Call_consumeTrack ppid pid => consumeTrack ppid pid c
  | Call_disconnect => disconnect c
  | Socket_open =>
      match ws c with
      | CONNECTING =>
          let c1 := with_ws OPEN c in
          if onopen c1 then joinRoom c1 else c1
      | _ => c
      end
  | Socket_closed => with_ws CLOSED c
  | Socket_message data => onmessage data c
  | Engine_load d ok => load_settled d ok c
  | Engine_connect dir tid dtls => on_transport_connect dir tid dtls c
  | Engine_produce tid kind rtp => on_transport_produce tid kind rtp c
  | Engine_produced n r => produce_settled n r c
  | Engine_consumed n r => consume_settled n r c
  end.

(** One input, then the promise reactions it made ready. *)
Definition step (c : Client) (i : Input) : Client :=
  run_reactions (handle i c).

Definition run (inputs : list Input) (c : Client) : Client :=
  fold_left step inputs c.

(** The states the client can be in. *)
Definition reachable (c : Client) : Prop :=
  exists pid inputs, c = run inputs (new_MediasoupClient pid).

(** ** Readings of a state *)

(** The state of capability negotiation. *)
Inductive Capability := NotReady | Loading | Ready.

Definition capability (c : Client) : Capability :=
  match device c with
  | None => NotReady
  | Some d => if existsb (Nat.eqb d) (loaded c) then Ready else Loading
  end.

Definition is_running (l : Link) : bool :=
  match link_state l with Running => true | _ => false end.

Definition is_queued (l : Link) : bool :=
  match link_state l with Queued => true | _ => false end.

Definition is_settled (l : Link) : bool :=
  match link_state l with Settled _ => true | _ => false end.

(** The consume negotiations that are outstanding. *)
Definition outstanding (c : Client) : nat :=
  List.length (filter is_running (consumeQueue c)).

Fixpoint started_links (tr : list Obs) : list nat :=
  match tr with
  | [] => []
  | Started k :: r => k :: started_links r
  | _ :: r => started_links r
  end.

Fixpoint sent_messages (tr : list Obs) : list ClientMsg :=
  match tr with
  | [] => []
  | Sent m :: r => m :: sent_messages r
  | _ :: r => sent_messages r
  end.

Fixpoint emissions (tr : list Obs) : list (string * Payload) :=
  match tr with
  | [] => []
  | Emitted e a :: r => (e, a) :: emissions r
  | _ :: r => emissions r
  end.

Fixpoint deliveries (tr : list Obs) : list (nat * string * Payload) :=
  match tr with
  | [] => []
  | Delivered n e a :: r => (n, e, a) :: deliveries r
  | _ :: r => deliveries r
  end.

Fixpoint close_calls (tr : list Obs) : list Resource :=
  match tr with
  | [] => []
  | CloseCalled x :: r => x :: close_calls r
  | _ :: r => close_calls r
  end.


(** ** Properties *)

(** *** [JsMap] *)

Lemma get_set_same {V} (k : string) (v : V) (m : JsMap.t V) :
  JsMap.get k (JsMap.set k v m) = Some v.
Proof.
  induction m as [|[k' v'] m IH]; simpl.
  - now rewrite String.eqb_refl.
  - destruct (String.eqb k k') eqn:E; simpl; rewrite E; auto.
Qed.

Lemma get_set_other {V} (k k0 : string) (v : V) (m : JsMap.t V) :
  k0 <> k -> JsMap.get k0 (JsMap.set k v m) = JsMap.get k0 m.
Proof.
  intros Hne. induction m as [|[k' v'] m IH]; simpl.
  - destruct (String.eqb_spec k0 k); congruence.
  - destruct (String.eqb_spec k k'); simpl.
    + subst k'. destruct (String.eqb_spec k0 k); congruence.
    + destruct (String.eqb_spec k0 k'); auto.
Qed.

Lemma keys_set_present {V} (k : string) (v v0 : V) (m : JsMap.t V) :
  JsMap.get k m = Some v0 -> JsMap.keys (JsMap.set k v m) = JsMap.keys m.
Proof.
  induction m as [|[k' v'] m IH]; simpl; intros H; [discriminate|].
  destruct (String.eqb k k'); simpl; [reflexivity|].
  f_equal. exact (IH H).
Qed.

Lemma keys_set_absent {V} (k : string) (v : V) (m : JsMap.t V) :
  JsMap.get k m = None -> JsMap.keys (JsMap.set k v m) = JsMap.keys m ++ [k].
Proof.
  induction m as [|[k' v'] m IH]; simpl; intros H; [reflexivity|].
  destruct (String.eqb k k'); [discriminate|]. simpl.
  f_equal. exact (IH H).
Qed.

Lemma get_None_keys {V} (k : string) (m : JsMap.t V) :
  JsMap.get k m = None <-> ~ In k (JsMap.keys m).
Proof.
  induction m as [|[k' v'] m IH]; simpl.
  - tauto.
  - destruct (String.eqb_spec k k').
    + split; [discriminate|]. intros H. exfalso. apply H. left. congruence.
    + rewrite IH. unfold JsMap.keys. split; intros H; [intros [E|E]|]; try tauto.
      congruence.
Qed.

Lemma get_Some_In {V} (k : string) (v : V) (m : JsMap.t V) :
  JsMap.get k m = Some v -> In (k, v) m.
Proof.
  induction m as [|[k' v'] m IH]; simpl; [discriminate|].
  destruct (String.eqb_spec k k'); intros H.
  - left. congruence.
  - right. auto.
Qed.

Lemma NoDup_keys_set {V} (k : string) (v : V) (m : JsMap.t V) :
  NoDup (JsMap.keys m) -> NoDup (JsMap.keys (JsMap.set k v m)).
Proof.
  intros H. destruct (JsMap.get k m) eqn:E.
  - now rewrite (keys_set_present _ _ _ _ E).
  - rewrite (keys_set_absent _ _ _ E).
    apply NoDup_rev in H. rewrite <- (rev_involutive (_ ++ _)).
    apply NoDup_rev. rewrite rev_app_distr. simpl. constructor; auto.
    rewrite <- in_rev. now apply get_None_keys.
Qed.

Lemma In_set {V} (k k0 : string) (v v0 : V) (m : JsMap.t V) :
  In (k0, v0) (JsMap.set k v m) -> In (k0, v0) m \/ (k0 = k /\ v0 = v).
Proof.
  induction m as [|[k' v'] m IH]; simpl.
  - intros [H|[]]. right. split; congruence.
  - destruct (String.eqb_spec k k'); simpl.
    + intros [H|H]; [right; split; congruence | left; now right].
    + intros [H|H]; [left; now left|]. destruct (IH H); tauto.
Qed.

Lemma In_delete {V} (k : string) (x : string * V) (m : JsMap.t V) :
  In x (JsMap.delete k m) -> In x m.
Proof.
  induction m as [|[k' v'] m IH]; simpl; auto.
  destruct (String.eqb k k'); simpl; tauto.
Qed.

Lemma NoDup_keys_delete {V} (k : string) (m : JsMap.t V) :
  NoDup (JsMap.keys m) -> NoDup (JsMap.keys (JsMap.delete k m)).
Proof.
  induction m as [|[k' v'] m IH]; simpl; auto.
  intros H. inversion H; subst.
  destruct (String.eqb k k'); simpl; auto.
  constructor; auto.
  intros Hin. apply H2. unfold JsMap.keys in *.
  apply in_map_iff in Hin. destruct Hin as [x [E Hx]].
  apply in_map_iff. exists x. split; auto. eapply In_delete; eauto.
Qed.

Lemma get_delete_same {V} (k : string) (m : JsMap.t V) :
  NoDup (JsMap.keys m) -> JsMap.get k (JsMap.delete k m) = None.
Proof.
  induction m as [|[k' v'] m IH]; simpl; auto.
  intros H. inversion H; subst.
  destruct (String.eqb_spec k k'); simpl.
  - subst. now apply get_None_keys.
  - destruct (String.eqb_spec k k'); [congruence|]. auto.
Qed.

(** *** The bus *)

Ltac break_inner x :=
  lazymatch x with
  | context [match ?y with _ => _ end] => break_inner y
  | _ => destruct x eqn:?
  end.

Ltac break_match :=
  match goal with
  | |- context [match ?x with _ => _ end] => break_inner x
  end.

Ltac prims :=
  unfold send, once, on, off, settle_if, settle, observe, with_ws, with_onopen,
    with_device, with_producerTransport, with_consumerTransports,
    with_producers, with_consumers, with_eventHandlers,
    with_pendingExistingProducers, with_consumeQueue, with_nextObject,
    with_loading, with_loaded, with_producing, with_consuming, handlersOf in *.


Lemma handlersOf_on_same (event : string) (h : Handler) (c : Client) :
  handlersOf event (on event h c) = handlersOf event c ++ [h].
Proof.
  unfold on, handlersOf, JsMap.has.
  destruct (JsMap.get event (eventHandlers c)) eqn:E; simpl.
  - rewrite E. now rewrite get_set_same.
  - rewrite !get_set_same. reflexivity.
Qed.

Lemma handlersOf_on_other (event e : string) (h : Handler) (c : Client) :
  e <> event -> handlersOf e (on event h c) = handlersOf e c.
Proof.
  intros Hne. unfold on, handlersOf, JsMap.has.
  destruct (JsMap.get event (eventHandlers c)) eqn:E; simpl.
  - now rewrite get_set_other.
  - now rewrite !get_set_other.
Qed.

Lemma handlersOf_off_other (event e : string) (w : nat) (c : Client) :
  e <> event -> handlersOf e (off event w c) = handlersOf e c.
Proof.
  intros Hne. unfold off, handlersOf.
  destruct (JsMap.get event (eventHandlers c)) eqn:E; auto.
  destruct (indexOf w l); auto. simpl. now rewrite get_set_other.
Qed.

Lemma handlersOf_off_same (event : string) (w : nat) (c : Client) :
  handlersOf event (off event w c) =
  match indexOf w (handlersOf event c) with
  | Some i => splice1 i (handlersOf event c)
  | None => handlersOf event c
  end.
Proof.
  unfold off, handlersOf.
  destruct (JsMap.get event (eventHandlers c)) eqn:E; simpl.
  - destruct (indexOf w l) eqn:Ei; simpl; [now rewrite get_set_same | now rewrite E].
  - now rewrite E.
Qed.

(** Induction on the handlers that a [forEach] invokes: each of them is,
    when its turn comes, an element of the array. *)
Lemma forEach_ind (P : Client -> Prop) (event : string) (args : Payload) :
  (forall h c, P c -> In h (handlersOf event c) -> P (invoke event h args c)) ->
  forall n k c, P c -> P (forEach n k event args c).
Proof.
  intros Hinv. induction n as [|n IH]; intros k c Hc; simpl; auto.
  destruct (nth_error (handlersOf event c) k) eqn:E; auto.
  apply IH. apply Hinv; auto. eapply nth_error_In; eauto.
Qed.

Lemma emit_ind (P : Client -> Prop) (event : string) (args : Payload) (c : Client) :
  P (observe (Emitted event args) c) ->
  (forall h c', P c' -> In h (handlersOf event c') -> P (invoke event h args c')) ->
  P (emit event args c).
Proof.
  intros H0 Hinv. unfold emit.
  destruct (JsMap.get event (eventHandlers (observe (Emitted event args) c))); auto.
  apply forEach_ind; auto.
Qed.

(** *** What an operation leaves as it is *)

(** The fields that no callback writes. *)
Definition same_session (c c' : Client) : Prop :=
  ws c' = ws c /\ onopen c' = onopen c /\ device c' = device c /\
  participantId c' = participantId c /\ producers c' = producers c /\
  consumers c' = consumers c /\
  pendingExistingProducers c' = pendingExistingProducers c /\
  loading c' = loading c /\ loaded c' = loaded c.

Lemma same_session_refl c : same_session c c.
Proof. unfold same_session; tauto. Qed.

Lemma same_session_trans c1 c2 c3 :
  same_session c1 c2 -> same_session c2 c3 -> same_session c1 c3.
Proof.
  unfold same_session. intros H1 H2.
  decompose [and] H1. decompose [and] H2. repeat split; congruence.
Qed.

Create HintDb session discriminated.

Ltac session_prim f :=
  let H := fresh in
  intros H; unfold same_session in *; unfold f; simpl; exact H.

Lemma session_observe c0 o c : same_session c0 c -> same_session c0 (observe o c).
Proof. session_prim observe. Qed.

Lemma session_send c0 m c : same_session c0 c -> same_session c0 (send m c).
Proof.
  intros H. unfold send. destruct (ws c); auto using session_observe.
Qed.

Lemma session_with_eventHandlers c0 x c :
  same_session c0 c -> same_session c0 (with_eventHandlers x c).
Proof. session_prim with_eventHandlers. Qed.

Lemma session_with_nextObject c0 x c :
  same_session c0 c -> same_session c0 (with_nextObject x c).
Proof. session_prim with_nextObject. Qed.

Lemma session_with_producerTransport c0 x c :
  same_session c0 c -> same_session c0 (with_producerTransport x c).
Proof. session_prim with_producerTransport. Qed.

Lemma session_with_consumerTransports c0 x c :
  same_session c0 c -> same_session c0 (with_consumerTransports x c).
Proof. session_prim with_consumerTransports. Qed.

Lemma session_with_consumeQueue c0 x c :
  same_session c0 c -> same_session c0 (with_consumeQueue x c).
Proof. session_prim with_consumeQueue. Qed.

Lemma session_with_producing c0 x c :
  same_session c0 c -> same_session c0 (with_producing x c).
Proof. session_prim with_producing. Qed.

Lemma session_with_consuming c0 x c :
  same_session c0 c -> same_session c0 (with_consuming x c).
Proof. session_prim with_consuming. Qed.

Lemma session_on c0 event h c : same_session c0 c -> same_session c0 (on event h c).
Proof.
  intros H. unfold on. destruct (JsMap.has event (eventHandlers c));
    auto using session_with_eventHandlers.
Qed.

Lemma session_once c0 event cb c :
  same_session c0 c -> same_session c0 (once event cb c).
Proof. intros H. unfold once. auto using session_on, session_with_nextObject. Qed.

Lemma session_off c0 event w c : same_session c0 c -> same_session c0 (off event w c).
Proof.
  intros H. unfold off. destruct (JsMap.get event (eventHandlers c)); auto.
  destruct (indexOf w l); auto using session_with_eventHandlers.
Qed.

Lemma session_settle c0 k r c : same_session c0 c -> same_session c0 (settle k r c).
Proof. intros H. unfold settle. auto using session_with_consumeQueue. Qed.

#[local] Hint Resolve same_session_refl session_observe session_send
  session_with_eventHandlers session_with_nextObject
  session_with_producerTransport session_with_consumerTransports
  session_with_consumeQueue session_with_producing session_with_consuming
  session_on session_once session_off session_settle : session.

Ltac unfold_methods :=
  unfold invoke, call_callback, _consumeTrack, produceTrack,
    createConsumerTransport, createProducerTransport, setupProducerTransport,
    setupConsumerTransport, produceTrack_resume, _consumeTrack_negotiate,
    settle_if in *.

(** Case analysis on what a method branches on. *)
Ltac branches := repeat (break_match; simpl in *; subst; try discriminate).

Lemma invoke_session c0 event h args c :
  same_session c0 c -> same_session c0 (invoke event h args c).
Proof.
  intros H. destruct h as [cb|w cb]; destruct cb; unfold_methods; branches;
    repeat match goal with H : Some _ = Some _ |- _ => inversion H; subst; clear H end;
    repeat match goal with H : (_, _) = (_, _) |- _ => inversion H; subst; clear H end;
    auto 10 with session.
Qed.

Lemma emit_session c0 event args c :
  same_session c0 c -> same_session c0 (emit event args c).
Proof.
  intros H. apply emit_ind; auto using invoke_session with session.
Qed.

(** *** What an operation adds to the trace *)

(** The trace grows, by observations that satisfy [ok]. *)
Definition grows (ok : Obs -> bool) (c c' : Client) : Prop :=
  exists l, trace c' = trace c ++ l /\ forallb ok l = true.

Lemma grows_refl ok c : grows ok c c.
Proof. exists []. split; [now rewrite app_nil_r | reflexivity]. Qed.

Lemma grows_trans ok c1 c2 c3 : grows ok c1 c2 -> grows ok c2 c3 -> grows ok c1 c3.
Proof.
  intros [l1 [E1 F1]] [l2 [E2 F2]]. exists (l1 ++ l2). split.
  - now rewrite E2, E1, app_assoc.
  - now rewrite forallb_app, F1, F2.
Qed.

Lemma grows_weaken (ok ok' : Obs -> bool) c c' :
  (forall o, ok o = true -> ok' o = true) -> grows ok c c' -> grows ok' c c'.
Proof.
  intros Hw [l [E F]]. exists l. split; auto.
  rewrite forallb_forall in *. auto.
Qed.

Lemma grows_same_trace ok c0 c c' :
  trace c' = trace c -> grows ok c0 c -> grows ok c0 c'.
Proof. intros E [l [E1 F1]]. exists l. split; auto. congruence. Qed.

Lemma grows_observe (ok : Obs -> bool) c0 o c :
  ok o = true -> grows ok c0 c -> grows ok c0 (observe o c).
Proof.
  intros Ho H. eapply grows_trans; [exact H|].
  exists [o]. split; simpl; [reflexivity | now rewrite Ho].
Qed.

Section Grows.
Variable ok : Obs -> bool.
Hypothesis ok_sent : forall m, ok (Sent m) = true.

Lemma grows_send c0 m c : grows ok c0 c -> grows ok c0 (send m c).
Proof. intros H. unfold send. destruct (ws c); auto using grows_observe. Qed.

Lemma grows_on c0 event h c : grows ok c0 c -> grows ok c0 (on event h c).
Proof.
  intros H. unfold on. destruct (JsMap.has event (eventHandlers c));
    (eapply grows_same_trace; [|exact H]); reflexivity.
Qed.

Lemma grows_once c0 event cb c : grows ok c0 c -> grows ok c0 (once event cb c).
Proof.
  intros H. unfold once. apply grows_on.
  eapply grows_same_trace; [|exact H]; reflexivity.
Qed.

Lemma grows_off c0 event w c : grows ok c0 c -> grows ok c0 (off event w c).
Proof.
  intros H. unfold off. destruct (JsMap.get event (eventHandlers c)); auto.
  destruct (indexOf w l); auto.
Qed.

Lemma grows_settle c0 k r c : grows ok c0 c -> grows ok c0 (settle k r c).
Proof. intros H. eapply grows_same_trace; [|exact H]; reflexivity. Qed.

Lemma grows_with_producerTransport c0 x c :
  grows ok c0 c -> grows ok c0 (with_producerTransport x c).
Proof. intros H. eapply grows_same_trace; [|exact H]; reflexivity. Qed.

Lemma grows_with_consumerTransports c0 x c :
  grows ok c0 c -> grows ok c0 (with_consumerTransports x c).
Proof. intros H. eapply grows_same_trace; [|exact H]; reflexivity. Qed.

Lemma grows_with_producing c0 x c :
  grows ok c0 c -> grows ok c0 (with_producing x c).
Proof. intros H. eapply grows_same_trace; [|exact H]; reflexivity. Qed.

Lemma grows_with_consuming c0 x c :
  grows ok c0 c -> grows ok c0 (with_consuming x c).
Proof. intros H. eapply grows_same_trace; [|exact H]; reflexivity. Qed.

Lemma grows_with_consumeQueue c0 x c :
  grows ok c0 c -> grows ok c0 (with_consumeQueue x c).
Proof. intros H. eapply grows_same_trace; [|exact H]; reflexivity. Qed.
End Grows.

Create HintDb grows discriminated.

#[local] Hint Resolve grows_refl grows_observe grows_send grows_on grows_once
  grows_off grows_settle grows_with_producerTransport
  grows_with_consumerTransports grows_with_producing grows_with_consuming
  grows_with_consumeQueue : grows.

(** What a callback can add to the trace. *)
Definition callback_obs (o : Obs) : bool :=
  match o with
  | Delivered _ _ _ | Sent _ | ProduceSettled _ _ | EngineResumed _ _ => true
  | _ => false
  end.

Ltac inv_eqs :=
  repeat match goal with
         | H : Some _ = Some _ |- _ => inversion H; subst; clear H
         | H : (_, _) = (_, _) |- _ => inversion H; subst; clear H
         end.

Lemma invoke_grows c0 event h args c :
  grows callback_obs c0 c -> grows callback_obs c0 (invoke event h args c).
Proof.
  intros H. destruct h as [cb|w cb]; destruct cb; unfold_methods; branches;
    inv_eqs; auto 10 with grows.
Qed.

Lemma forEach_grows c0 n k event args c :
  grows callback_obs c0 c -> grows callback_obs c0 (forEach n k event args c).
Proof.
  intros H. apply forEach_ind; auto using invoke_grows.
Qed.

Lemma emit_trace event args c :
  exists l, trace (emit event args c) = trace c ++ Emitted event args :: l /\
            forallb callback_obs l = true.
Proof.
  unfold emit.
  destruct (JsMap.get event (eventHandlers (observe (Emitted event args) c))).
  - destruct (forEach_grows (observe (Emitted event args) c) (List.length l) 0
                event args (observe (Emitted event args) c)) as [l' [E F]].
    { apply grows_refl. }
    exists l'. split; auto. rewrite E. simpl. now rewrite <- app_assoc.
  - exists []. split; auto.
Qed.

(** Readings of a trace, over concatenation. *)
Lemma started_links_app l1 l2 :
  started_links (l1 ++ l2) = started_links l1 ++ started_links l2.
Proof. induction l1 as [|[] l1 IH]; simpl; auto. now rewrite IH. Qed.

Lemma sent_messages_app l1 l2 :
  sent_messages (l1 ++ l2) = sent_messages l1 ++ sent_messages l2.
Proof. induction l1 as [|[] l1 IH]; simpl; auto. now rewrite IH. Qed.

Lemma emissions_app l1 l2 : emissions (l1 ++ l2) = emissions l1 ++ emissions l2.
Proof. induction l1 as [|[] l1 IH]; simpl; auto. now rewrite IH. Qed.

Lemma deliveries_app l1 l2 : deliveries (l1 ++ l2) = deliveries l1 ++ deliveries l2.
Proof. induction l1 as [|[] l1 IH]; simpl; auto. now rewrite IH. Qed.

Lemma close_calls_app l1 l2 :
  close_calls (l1 ++ l2) = close_calls l1 ++ close_calls l2.
Proof. induction l1 as [|[] l1 IH]; simpl; auto. now rewrite IH. Qed.

Lemma callback_obs_emissions l : forallb callback_obs l = true -> emissions l = [].
Proof. induction l as [|[] l IH]; simpl; auto; try discriminate. Qed.

Lemma callback_obs_started l : forallb callback_obs l = true -> started_links l = [].
Proof. induction l as [|[] l IH]; simpl; auto; try discriminate. Qed.

Lemma callback_obs_close_calls l : forallb callback_obs l = true -> close_calls l = [].
Proof. induction l as [|[] l IH]; simpl; auto; try discriminate. Qed.

Lemma emit_emissions event args c :
  emissions (trace (emit event args c)) = emissions (trace c) ++ [(event, args)].
Proof.
  destruct (emit_trace event args c) as [l [E F]].
  rewrite E, emissions_app. simpl. now rewrite (callback_obs_emissions _ F).
Qed.

(** *** The reactions of the chain *)

(** Induction on the links that the reactions start. *)
Lemma react_ind (P : Client -> Prop) :
  (forall k call c, P c ->
     P (fst (_consumeTrack k call (observe (Started k) c)))) ->
  forall q prev k c, P c -> P (snd (react prev k q c)).
Proof.
  intros Hstart. induction q as [|l q IH]; intros prev k c Hc; simpl; auto.
  destruct (link_state l).
  - destruct prev as [[v|m]|].
    + specialize (Hstart k (link_call l) c Hc).
      destruct (_consumeTrack k (link_call l) (observe (Started k) c)) as [c1 [r0|]];
        simpl in Hstart.
      * specialize (IH (Some (catch_null r0)) (S k) c1 Hstart).
        destruct (react (Some (catch_null r0)) (S k) q c1); auto.
      * specialize (IH None (S k) c1 Hstart).
        destruct (react None (S k) q c1); auto.
    + specialize (IH (Some (Fulfilled None)) (S k) c Hc).
      destruct (react (Some (Fulfilled None)) (S k) q c); auto.
    + specialize (IH None (S k) c Hc). destruct (react None (S k) q c); auto.
  - specialize (IH None (S k) c Hc). destruct (react None (S k) q c); auto.
  - specialize (IH (Some r) (S k) c Hc). destruct (react (Some r) (S k) q c); auto.
Qed.

Lemma _consumeTrack_session c0 k call c :
  same_session c0 c -> same_session c0 (fst (_consumeTrack k call c)).
Proof.
  intros H. unfold_methods; branches; auto 10 with session.
Qed.

Lemma run_reactions_session c0 c :
  same_session c0 c -> same_session c0 (run_reactions c).
Proof.
  intros H. unfold run_reactions.
  pose proof (react_ind (same_session c0)) as R.
  specialize (R (fun k call c1 H1 =>
                   _consumeTrack_session c0 k call _ (session_observe c0 _ c1 H1))).
  specialize (R (consumeQueue c) (Some (Fulfilled None)) 0 c H).
  destruct (react (Some (Fulfilled None)) 0 (consumeQueue c) c).
  auto with session.
Qed.

(** What the reactions can add to the trace. *)
Definition reaction_obs (o : Obs) : bool :=
  match o with
  | Started _ | Sent _ => true
  | _ => false
  end.

Lemma _consumeTrack_grows c0 k call c :
  grows reaction_obs c0 c -> grows reaction_obs c0 (fst (_consumeTrack k call c)).
Proof.
  intros H. unfold_methods; branches; auto 10 with grows.
Qed.

Lemma run_reactions_grows c : grows reaction_obs c (run_reactions c).
Proof.
  unfold run_reactions.
  pose proof (react_ind (grows reaction_obs c)) as R.
  specialize (R (fun k call c1 H1 =>
                   _consumeTrack_grows c k call _
                     (grows_observe reaction_obs c (Started k) c1 eq_refl H1))).
  specialize (R (consumeQueue c) (Some (Fulfilled None)) 0 c (grows_refl _ c)).
  destruct (react (Some (Fulfilled None)) 0 (consumeQueue c) c).
  auto with grows.
Qed.

Lemma reaction_obs_emissions l : forallb reaction_obs l = true -> emissions l = [].
Proof. induction l as [|[] l IH]; simpl; auto; try discriminate. Qed.

Lemma reaction_obs_close_calls l : forallb reaction_obs l = true -> close_calls l = [].
Proof. induction l as [|[] l IH]; simpl; auto; try discriminate. Qed.

Lemma reaction_obs_deliveries l : forallb reaction_obs l = true -> deliveries l = [].
Proof. induction l as [|[] l IH]; simpl; auto; try discriminate. Qed.

Lemma run_reactions_emissions c :
  emissions (trace (run_reactions c)) = emissions (trace c).
Proof.
  destruct (run_reactions_grows c) as [l [E F]].
  rewrite E, emissions_app, (reaction_obs_emissions _ F). apply app_nil_r.
Qed.

Lemma run_reactions_pending c :
  pendingExistingProducers (run_reactions c) = pendingExistingProducers c.
Proof. apply (run_reactions_session c c (same_session_refl c)). Qed.

(** *** The pending-producer buffer *)

Lemma emit_pending event args c :
  pendingExistingProducers (emit event args c) = pendingExistingProducers c.
Proof. apply (emit_session c event args c (same_session_refl c)). Qed.

(** The announcements, as [handleRtpCapabilities] republishes them. *)
Definition announcement (producer : ProducerInfo) : string * Payload :=
  ("newProducer", ProducerArgs producer).

Lemma flush_loop (l : list ProducerInfo) (c : Client) :
  let c' :=
    fold_left
      (fun c' producer =>
         emit "newProducer"
           (ProducerArgs
              {| info_participantId := info_participantId producer;
                 info_producerId := info_producerId producer;
                 info_kind := info_kind producer |}) c') l c in
  emissions (trace c') = emissions (trace c) ++ map announcement l /\
  pendingExistingProducers c' = pendingExistingProducers c.
Proof.
  revert c. induction l as [|p l IH]; intros c; simpl.
  - now rewrite app_nil_r.
  - destruct (IH (emit "newProducer"
                    (ProducerArgs
                       {| info_participantId := info_participantId p;
                          info_producerId := info_producerId p;
                          info_kind := info_kind p |}) c)) as [E P].
    simpl in E, P. rewrite E, P, emit_emissions, emit_pending, <- app_assoc.
    split; auto. destruct p; reflexivity.
Qed.

Lemma handleRtpCapabilities_resume_spec c :
  let c' := handleRtpCapabilities_resume c in
  emissions (trace c') =
    emissions (trace c) ++ map announcement (pendingExistingProducers c) /\
  pendingExistingProducers c' = [].
Proof.
  unfold handleRtpCapabilities_resume.
  destruct (pendingExistingProducers c) as [|p l] eqn:E; simpl.
  - rewrite app_nil_r. auto.
  - pose proof (flush_loop (p :: l) (with_pendingExistingProducers [] c)) as H.
    simpl in H. exact H.
Qed.

(** *** The invariant of the session *)

Definition fulfilled (l : Link) : bool :=
  match link_state l with
  | Settled (Fulfilled _) => true
  | _ => false
  end.

(** The chain between two inputs: fulfilled links, then at most one running
    link, then queued links. *)
Fixpoint serial (q : list Link) : bool :=
  match q with
  | [] => true
  | l :: r => if fulfilled l then serial r else is_running l && forallb is_queued r
  end.

(** The chain while an input is handled: the first link that is not settled
    may still be waiting for its reaction. *)
Fixpoint serial_pre (q : list Link) : bool :=
  match q with
  | [] => true
  | l :: r =>
      if fulfilled l then serial_pre r
      else (is_running l || is_queued l) && forallb is_queued r
  end.

(** The links whose [_consumeTrack] was started. *)
Definition started_count (q : list Link) : nat :=
  List.length (filter (fun l => negb (is_queued l)) q).

(** The event each closure of the class is registered for. *)
Definition callback_event (cb : Callback) : option string :=
  match cb with
  | UserCallback _ => None
  | ProducerTransportCreatedCb _ => Some "producerTransportCreated"
  | ProducerTransportConnectedCb _ => Some "producerTransportConnected"
  | ProducedCb _ => Some "produced"
  | ConsumerTransportCreatedCb _ _ => Some "consumerTransportCreated"
  | ConsumerTransportConnectedCb _ => Some "consumerTransportConnected"
  | ConsumedCb _ _ => Some "consumed"
  end.

(** What the array of [event] can hold: callbacks of the application, which
    come through the public [on], and wrappers of the closures the class
    passes to [once] for that event. *)
Definition sorted_ok (event : string) (h : Handler) : bool :=
  match h with
  | Plain (UserCallback _) => true
  | Plain _ => false
  | Wrapper _ cb =>
      match callback_event cb with
      | Some e => String.eqb event e
      | None => false
      end
  end.

Record Inv0 (shape : list Link -> bool) (q : list Link) (c : Client) : Prop := {
  i_shape : shape q = true;
  i_started : started_links (trace c) = seq 0 (started_count q);
  i_running : existsb is_running q = true -> device c <> None;
  i_transports : consumerTransports c <> [] -> device c <> None;
  i_keys_t : NoDup (JsMap.keys (consumerTransports c));
  i_keys_p : NoDup (JsMap.keys (producers c));
  i_keys_c : NoDup (JsMap.keys (consumers c));
  i_ids_p : forall k p, In (k, p) (producers c) -> k = producer_id p;
  i_ids_c : forall k p, In (k, p) (consumers c) -> k = consumer_id p;
  i_sorted : forall e, forallb (sorted_ok e) (handlersOf e c) = true
}.

(** The invariant of a state, on its own chain. *)
Definition Inv (shape : list Link -> bool) (c : Client) : Prop :=
  Inv0 shape (consumeQueue c) c.

Lemma serial_serial_pre q : serial q = true -> serial_pre q = true.
Proof.
  induction q as [|l q IH]; simpl; auto.
  destruct (fulfilled l); auto.
  intros H. apply andb_true_iff in H. destruct H as [H1 H2].
  now rewrite H1, H2.
Qed.

Lemma Inv0_shape (s s' : list Link -> bool) q c :
  s' q = true -> Inv0 s q c -> Inv0 s' q c.
Proof. intros Hs []. constructor; auto. Qed.

(** Writes to fields the invariant does not read. *)
Ltac inv_frame :=
  let H := fresh in
  intros H; destruct H; constructor; unfold handlersOf in *; simpl; assumption.

Section Inv0Prims.
Variable s : list Link -> bool.
Variable q : list Link.

Lemma Inv0_with_ws x c : Inv0 s q c -> Inv0 s q (with_ws x c).
Proof. inv_frame. Qed.

Lemma Inv0_with_onopen x c : Inv0 s q c -> Inv0 s q (with_onopen x c).
Proof. inv_frame. Qed.

Lemma Inv0_with_producerTransport x c :
  Inv0 s q c -> Inv0 s q (with_producerTransport x c).
Proof. inv_frame. Qed.

Lemma Inv0_with_pendingExistingProducers x c :
  Inv0 s q c -> Inv0 s q (with_pendingExistingProducers x c).
Proof. inv_frame. Qed.

Lemma Inv0_with_consumeQueue x c : Inv0 s q c -> Inv0 s q (with_consumeQueue x c).
Proof. inv_frame. Qed.

Lemma Inv0_with_nextObject x c : Inv0 s q c -> Inv0 s q (with_nextObject x c).
Proof. inv_frame. Qed.

Lemma Inv0_with_loading x c : Inv0 s q c -> Inv0 s q (with_loading x c).
Proof. inv_frame. Qed.

Lemma Inv0_with_loaded x c : Inv0 s q c -> Inv0 s q (with_loaded x c).
Proof. inv_frame. Qed.

Lemma Inv0_with_producing x c : Inv0 s q c -> Inv0 s q (with_producing x c).
Proof. inv_frame. Qed.

Lemma Inv0_with_consuming x c : Inv0 s q c -> Inv0 s q (with_consuming x c).
Proof. inv_frame. Qed.

Lemma Inv0_settle k r c : Inv0 s q c -> Inv0 s q (settle k r c).
Proof. inv_frame. Qed.

Lemma Inv0_with_device d c : Inv0 s q c -> Inv0 s q (with_device (Some d) c).
Proof.
  intros []. constructor; unfold handlersOf in *; simpl; auto; discriminate.
Qed.

Definition not_started (o : Obs) : bool :=
  match o with Started _ => false | _ => true end.

Lemma Inv0_observe o c : not_started o = true -> Inv0 s q c -> Inv0 s q (observe o c).
Proof.
  intros Ho []. constructor; unfold handlersOf in *; simpl; auto.
  rewrite started_links_app, i_started0. destruct o; simpl in *;
    try discriminate; apply app_nil_r.
Qed.

Lemma Inv0_send m c : Inv0 s q c -> Inv0 s q (send m c).
Proof. intros H. unfold send. destruct (ws c); auto using Inv0_observe. Qed.

Lemma Inv0_with_eventHandlers x c :
  (forall e, forallb (sorted_ok e)
               (match JsMap.get e x with Some hs => hs | None => [] end) = true) ->
  Inv0 s q c -> Inv0 s q (with_eventHandlers x c).
Proof. intros Hx []. constructor; unfold handlersOf in *; simpl; auto. Qed.

Lemma Inv0_on event h c :
  sorted_ok event h = true -> Inv0 s q c -> Inv0 s q (on event h c).
Proof.
  intros Hh H. pose proof (i_sorted _ _ _ H) as Hs.
  destruct H. constructor;
    try (unfold on; destruct (JsMap.has event (eventHandlers c)); simpl; assumption).
  intros e. destruct (String.eqb_spec e event) as [->|Hne].
  - rewrite handlersOf_on_same, forallb_app, Hs. simpl. now rewrite Hh.
  - rewrite handlersOf_on_other; auto.
Qed.

Lemma Inv0_once event cb c :
  callback_event cb = Some event -> Inv0 s q c -> Inv0 s q (once event cb c).
Proof.
  intros Hcb H. unfold once. apply Inv0_on; auto using Inv0_with_nextObject.
  simpl. rewrite Hcb. apply String.eqb_refl.
Qed.

Lemma forallb_splice1 (f : Handler -> bool) i hs :
  forallb f hs = true -> forallb f (splice1 i hs) = true.
Proof.
  revert i. induction hs as [|x r IH]; intros [|i] H; simpl in *; auto.
  - apply andb_true_iff in H. tauto.
  - apply andb_true_iff in H. destruct H as [Hx Hr].
    rewrite Hx. apply (IH i Hr).
Qed.

Lemma Inv0_off event w c : Inv0 s q c -> Inv0 s q (off event w c).
Proof.
  intros H. pose proof (i_sorted _ _ _ H) as Hs.
  destruct H. constructor;
    try (unfold off; destruct (JsMap.get event (eventHandlers c));
         [destruct (indexOf w l)|]; simpl; assumption).
  intros e. destruct (String.eqb_spec e event) as [->|Hne].
  - rewrite handlersOf_off_same. destruct (indexOf w (handlersOf event c)); auto.
    apply forallb_splice1; auto.
  - rewrite handlersOf_off_other; auto.
Qed.

Lemma Inv0_set_transport k t c :
  device c <> None -> Inv0 s q c ->
  Inv0 s q (with_consumerTransports (JsMap.set k t (consumerTransports c)) c).
Proof.
  intros Hd []. constructor; unfold handlersOf in *; simpl; auto.
  now apply NoDup_keys_set.
Qed.

Lemma Inv0_delete_transport k c :
  Inv0 s q c ->
  Inv0 s q (with_consumerTransports (JsMap.delete k (consumerTransports c)) c).
Proof.
  intros []. constructor; unfold handlersOf in *; simpl; auto.
  - intros Hne. apply i_transports0. intros E. rewrite E in Hne. now apply Hne.
  - now apply NoDup_keys_delete.
Qed.

Lemma Inv0_clear_transports c :
  Inv0 s q c -> Inv0 s q (with_consumerTransports (JsMap.clear (consumerTransports c)) c).
Proof.
  intros []. constructor; unfold handlersOf in *; simpl; auto;
    try congruence; constructor.
Qed.

Lemma Inv0_set_producer p c :
  Inv0 s q c ->
  Inv0 s q (with_producers (JsMap.set (producer_id p) p (producers c)) c).
Proof.
  intros []. constructor; unfold handlersOf in *; simpl; auto.
  - now apply NoDup_keys_set.
  - intros k p0 Hin. apply In_set in Hin. destruct Hin as [Hin|[-> ->]]; auto.
Qed.

Lemma Inv0_clear_producers c :
  Inv0 s q c -> Inv0 s q (with_producers (JsMap.clear (producers c)) c).
Proof.
  intros []. constructor; unfold handlersOf in *; simpl; auto;
    try (now intros ? ? []); constructor.
Qed.

Lemma Inv0_set_consumer p c :
  Inv0 s q c ->
  Inv0 s q (with_consumers (JsMap.set (consumer_id p) p (consumers c)) c).
Proof.
  intros []. constructor; unfold handlersOf in *; simpl; auto.
  - now apply NoDup_keys_set.
  - intros k p0 Hin. apply In_set in Hin. destruct Hin as [Hin|[-> ->]]; auto.
Qed.

Lemma Inv0_clear_consumers c :
  Inv0 s q c -> Inv0 s q (with_consumers (JsMap.clear (consumers c)) c).
Proof.
  intros []. constructor; unfold handlersOf in *; simpl; auto;
    try (now intros ? ? []); constructor.
Qed.
End Inv0Prims.

(** The chain of a state after a primitive. *)
Lemma queue_observe o c : consumeQueue (observe o c) = consumeQueue c.
Proof. reflexivity. Qed.

Lemma queue_send m c : consumeQueue (send m c) = consumeQueue c.
Proof. unfold send. now destruct (ws c). Qed.

Lemma queue_on event h c : consumeQueue (on event h c) = consumeQueue c.
Proof. unfold on. now destruct (JsMap.has event (eventHandlers c)). Qed.

Lemma queue_once event cb c : consumeQueue (once event cb c) = consumeQueue c.
Proof. unfold once. now rewrite queue_on. Qed.

Lemma queue_off event w c : consumeQueue (off event w c) = consumeQueue c.
Proof.
  unfold off. destruct (JsMap.get event (eventHandlers c)); auto.
  now destruct (indexOf w l).
Qed.

Lemma queue_settle k r c :
  consumeQueue (settle k r c) = settle_link k r (consumeQueue c).
Proof. reflexivity. Qed.

Create Rewrite HintDb queue.
#[local] Hint Rewrite queue_observe queue_send queue_on queue_once queue_off
  queue_settle : queue.

Ltac queue := repeat (autorewrite with queue; simpl consumeQueue).

(** The chain, link by link. *)
Lemma settle_link_started k r q :
  started_count (settle_link k r q) = started_count q.
Proof.
  revert k. induction q as [|l q IH]; intros [|k]; simpl; auto.
  - unfold started_count. simpl. destruct l as [call []]; simpl; auto.
  - unfold started_count in *. simpl. specialize (IH k).
    destruct (negb (is_queued l)); simpl; auto.
Qed.

Lemma settle_link_running k r q :
  existsb is_running (settle_link k r q) = true -> existsb is_running q = true.
Proof.
  revert k. induction q as [|l q IH]; intros [|k]; simpl; auto.
  - destruct l as [call []]; simpl; auto.
  - intros H. apply orb_true_iff in H. apply orb_true_iff.
    destruct H; eauto.
Qed.

Lemma settle_link_queued k r q :
  forallb is_queued q = true -> settle_link k r q = q.
Proof.
  revert k. induction q as [|l q IH]; intros [|k] H; simpl in *; auto.
  - destruct l as [call []]; simpl in *; auto; discriminate.
  - apply andb_true_iff in H. f_equal. apply IH. tauto.
Qed.

Lemma catch_null_fulfilled r : exists v, catch_null r = Fulfilled v.
Proof. destruct r; simpl; eauto. Qed.

Lemma settle_link_serial_pre k r q :
  serial_pre q = true -> serial_pre (settle_link k r q) = true.
Proof.
  revert k. induction q as [|l q IH]; intros [|k] H; simpl in *; auto.
  - destruct l as [call [| |[v|m]]]; simpl in *; auto.
    destruct (catch_null_fulfilled r) as [v ->].
    unfold fulfilled. simpl. clear -H. induction q as [|l q IH]; auto.
    simpl in *. apply andb_true_iff in H. destruct H as [H1 H2].
    destruct l as [call []]; simpl in *; try discriminate. now rewrite H2.
  - destruct (fulfilled l); auto.
    apply andb_true_iff in H. destruct H as [H1 H2].
    now rewrite (settle_link_queued _ _ _ H2), H1, H2.
Qed.

Lemma Inv0_settle_link k r q c :
  Inv0 serial_pre q c -> Inv0 serial_pre (settle_link k r q) c.
Proof.
  intros []. constructor; auto.
  - now apply settle_link_serial_pre.
  - now rewrite settle_link_started.
  - intros H. apply i_running0. eapply settle_link_running; eauto.
Qed.

Lemma serial_pre_append q l :
  is_queued l = true -> serial_pre q = true -> serial_pre (q ++ [l]) = true.
Proof.
  intros Hl. induction q as [|x q IH]; simpl.
  - intros _. destruct l as [call []]; simpl in *; auto; discriminate.
  - destruct (fulfilled x); auto. intros H.
    apply andb_true_iff in H. destruct H as [H1 H2].
    rewrite H1, forallb_app, H2. simpl. now rewrite Hl.
Qed.

Lemma started_count_app q1 q2 :
  started_count (q1 ++ q2) = started_count q1 + started_count q2.
Proof. unfold started_count. now rewrite filter_app, length_app. Qed.

Lemma Inv0_append q l c :
  is_queued l = true -> Inv0 serial_pre q c -> Inv0 serial_pre (q ++ [l]) c.
Proof.
  intros Hl []. constructor; auto.
  - now apply serial_pre_append.
  - rewrite started_count_app. unfold started_count at 2. simpl.
    rewrite Hl. simpl. now rewrite Nat.add_0_r.
  - rewrite existsb_app. simpl. intros H. apply i_running0.
    apply orb_true_iff in H. destruct H as [H|H]; auto.
    destruct l as [call []]; simpl in *; discriminate.
Qed.

Create HintDb inv discriminated.
#[local] Hint Resolve Inv0_with_ws Inv0_with_onopen Inv0_with_producerTransport
  Inv0_with_pendingExistingProducers Inv0_with_consumeQueue
  Inv0_with_nextObject Inv0_with_loading Inv0_with_loaded Inv0_with_producing
  Inv0_with_consuming Inv0_settle Inv0_with_device Inv0_observe Inv0_send
  Inv0_on Inv0_once Inv0_off Inv0_set_transport Inv0_delete_transport
  Inv0_clear_transports Inv0_set_producer Inv0_clear_producers
  Inv0_set_consumer Inv0_clear_consumers Inv0_settle_link Inv0_append : inv.
#[local] Hint Extern 1 (_ = _) => reflexivity : inv.
#[local] Hint Extern 1 (_ <> _) => congruence : inv.

Lemma invoke_Inv event h args c :
  Inv serial_pre c -> Inv serial_pre (invoke event h args c).
Proof.
  unfold Inv. intros H.
  destruct h as [cb|w cb]; destruct cb; unfold_methods; branches; inv_eqs;
    queue; auto 12 with inv.
Qed.

Lemma emit_Inv event args c : Inv serial_pre c -> Inv serial_pre (emit event args c).
Proof.
  intros H. apply emit_ind.
  - unfold Inv in *. queue. auto with inv.
  - intros h c' Hc' _. now apply invoke_Inv.
Qed.

Lemma emit_Inv0 event args c :
  Inv0 serial_pre (consumeQueue c) c ->
  Inv0 serial_pre (consumeQueue (emit event args c)) (emit event args c).
Proof. apply emit_Inv. Qed.

Lemma queue_close_all rs c : consumeQueue (close_all rs c) = consumeQueue c.
Proof.
  unfold close_all. revert c. induction rs as [|r rs IH]; intros c; simpl; auto.
  now rewrite IH.
Qed.

Lemma Inv0_close_all s q rs c : Inv0 s q c -> Inv0 s q (close_all rs c).
Proof.
  unfold close_all. revert c. induction rs as [|r rs IH]; intros c H; simpl; auto.
  apply IH. now apply Inv0_observe.
Qed.

Lemma flush_Inv (l : list ProducerInfo) (c : Client) :
  Inv serial_pre c ->
  Inv serial_pre
    (fold_left
       (fun c' producer =>
          emit "newProducer"
            (ProducerArgs
               {| info_participantId := info_participantId producer;
                  info_producerId := info_producerId producer;
                  info_kind := info_kind producer |}) c') l c).
Proof.
  revert c. induction l as [|p l IH]; intros c H; simpl; auto.
  apply IH. now apply emit_Inv.
Qed.

Lemma handleRtpCapabilities_resume_Inv0 c :
  Inv0 serial_pre (consumeQueue c) c ->
  Inv0 serial_pre (consumeQueue (handleRtpCapabilities_resume c))
    (handleRtpCapabilities_resume c).
Proof.
  intros H. unfold handleRtpCapabilities_resume.
  destruct (pendingExistingProducers c) eqn:E; auto.
  apply flush_Inv. unfold Inv. simpl. auto with inv.
Qed.

#[local] Hint Rewrite queue_close_all : queue.
#[local] Hint Resolve emit_Inv0 Inv0_close_all handleRtpCapabilities_resume_Inv0 : inv.

Ltac unfold_inputs :=
  unfold handle, connect, joinRoom, consumeTrack, disconnect, ws_close, onmessage,
    handleRtpCapabilities, handleParticipantLeft, load_settled,
    on_transport_connect, on_transport_produce, produce_settled,
    consume_settled in *.

(** Case analysis that leaves the states as the methods write them. *)
Ltac cases :=
  cbv beta iota zeta in *;
  repeat (break_match; cbv beta iota zeta in *; subst; try discriminate).

Lemma handle_Inv i c : Inv serial_pre c -> Inv serial_pre (handle i c).
Proof.
  unfold Inv. intros H.
  destruct i; unfold_inputs; unfold_methods; cases; inv_eqs; queue;
    auto 14 with inv.
Qed.

(** The reactions restore the shape between inputs. *)
Lemma fulfilled_not_queued l : fulfilled l = true -> is_queued l = false.
Proof. destruct l as [call [| |[]]]; simpl; auto; discriminate. Qed.

Lemma fulfilled_not_running l : fulfilled l = true -> is_running l = false.
Proof. destruct l as [call [| |[]]]; simpl; auto; discriminate. Qed.

Lemma serial_pre_prefix done q :
  forallb fulfilled done = true -> serial_pre (done ++ q) = serial_pre q.
Proof.
  induction done as [|x done IH]; simpl; auto.
  intros H. apply andb_true_iff in H. destruct H as [H1 H2]. now rewrite H1, IH.
Qed.

Lemma serial_prefix done q :
  forallb fulfilled done = true -> serial (done ++ q) = serial q.
Proof.
  induction done as [|x done IH]; simpl; auto.
  intros H. apply andb_true_iff in H. destruct H as [H1 H2]. now rewrite H1, IH.
Qed.

Lemma started_count_fulfilled done :
  forallb fulfilled done = true -> started_count done = List.length done.
Proof.
  unfold started_count. induction done as [|x done IH]; simpl; auto.
  intros H. apply andb_true_iff in H. destruct H as [H1 H2].
  rewrite (fulfilled_not_queued _ H1). simpl. now rewrite IH.
Qed.

Lemma started_count_queued q : forallb is_queued q = true -> started_count q = 0.
Proof.
  unfold started_count. induction q as [|x q IH]; simpl; auto.
  intros H. apply andb_true_iff in H. destruct H as [H1 H2].
  rewrite H1. simpl. now rewrite IH.
Qed.

Lemma running_fulfilled done :
  forallb fulfilled done = true -> existsb is_running done = false.
Proof.
  induction done as [|x done IH]; simpl; auto.
  intros H. apply andb_true_iff in H. destruct H as [H1 H2].
  now rewrite (fulfilled_not_running _ H1), IH.
Qed.

Lemma running_queued q : forallb is_queued q = true -> existsb is_running q = false.
Proof.
  induction q as [|x q IH]; simpl; auto.
  intros H. apply andb_true_iff in H. destruct H as [H1 H2].
  rewrite IH; auto. destruct x as [call []]; simpl in *; auto; discriminate.
Qed.

Lemma started_count_middle done l rest :
  forallb fulfilled done = true ->
  forallb is_queued rest = true ->
  started_count (done ++ l :: rest) =
  if is_queued l then List.length done else S (List.length done).
Proof.
  intros Hd Hr. change (l :: rest) with ([l] ++ rest).
  rewrite !started_count_app, (started_count_queued _ Hr),
    (started_count_fulfilled _ Hd).
  unfold started_count. simpl. destruct (is_queued l); simpl; lia.
Qed.

(** The state a link is left in by the start of its [_consumeTrack]. *)
Definition started_state (s : option (Settlement (option Track))) : LinkState :=
  match s with
  | Some r0 => Settled (catch_null r0)
  | None => Running
  end.

Lemma Inv0_started done l rest c s :
  forallb fulfilled done = true ->
  is_queued l = true ->
  forallb is_queued rest = true ->
  (s = None -> device c <> None) ->
  Inv0 serial_pre (done ++ l :: rest) c ->
  Inv0 serial_pre
    (done ++ {| link_call := link_call l; link_state := started_state s |} :: rest)
    (observe (Started (List.length done)) c).
Proof.
  intros Hd Hl Hr Hs []. constructor; unfold handlersOf in *; simpl; auto.
  - rewrite serial_pre_prefix by auto. simpl.
    destruct s as [r0|]; simpl.
    + destruct (catch_null_fulfilled r0) as [v ->]. unfold fulfilled. simpl.
      clear -Hr. induction rest as [|x rest IH]; simpl in *; auto.
      apply andb_true_iff in Hr. destruct Hr as [H1 H2].
      destruct x as [call []]; simpl in *; try discriminate. now rewrite H2.
    + now rewrite Hr.
  - rewrite started_links_app, i_started0. simpl.
    rewrite (started_count_middle done l rest), Hl by auto.
    rewrite (started_count_middle done _ rest) by auto.
    replace (is_queued {| link_call := link_call l;
                          link_state := started_state s |}) with false
      by (destruct s; reflexivity).
    now rewrite seq_S.
  - rewrite existsb_app. simpl. rewrite (running_fulfilled _ Hd), (running_queued _ Hr).
    destruct s as [r0|]; simpl; [discriminate|]. auto.
Qed.

Lemma _consumeTrack_Inv0 s q k call c :
  Inv0 s q c -> Inv0 s q (fst (_consumeTrack k call c)).
Proof.
  intros H. unfold_methods; cases; inv_eqs; cbn [fst]; auto 10 with inv.
Qed.

Lemma _consumeTrack_running k call c c1 :
  _consumeTrack k call c = (c1, None) -> device c <> None.
Proof.
  unfold _consumeTrack. destruct (device c); [discriminate|]. discriminate.
Qed.

Lemma react_queued q k c :
  forallb is_queued q = true -> react None k q c = (q, c).
Proof.
  revert k. induction q as [|l q IH]; intros k H; simpl in *; auto.
  apply andb_true_iff in H. destruct H as [H1 H2].
  destruct l as [call []]; simpl in *; try discriminate.
  now rewrite IH.
Qed.

Lemma app_cons_assoc {A} (l1 : list A) x l2 : (l1 ++ [x]) ++ l2 = l1 ++ x :: l2.
Proof. now rewrite <- app_assoc. Qed.

Lemma react_Inv0 q : forall done v c,
  forallb fulfilled done = true ->
  Inv0 serial_pre (done ++ q) c ->
  Inv0 serial (done ++ fst (react (Some (Fulfilled v)) (List.length done) q c))
    (snd (react (Some (Fulfilled v)) (List.length done) q c)).
Proof.
  induction q as [|l q IH]; intros done v c Hd H.
  - simpl. eapply Inv0_shape; [|exact H].
    rewrite serial_prefix by auto. reflexivity.
  - pose proof (i_shape _ _ _ H) as Hs.
    rewrite serial_pre_prefix in Hs by auto. simpl in Hs.
    assert (Hlen : S (List.length done) = List.length (done ++ [l]))
      by (rewrite length_app; simpl; lia).
    simpl. destruct (link_state l) as [| |r] eqn:El.
    + (* queued: its reaction runs *)
      assert (Hl : is_queued l = true) by (unfold is_queued; now rewrite El).
      assert (Hf : fulfilled l = false) by (unfold fulfilled; now rewrite El).
      rewrite Hf, Hl in Hs. rewrite orb_true_r in Hs. simpl in Hs.
      destruct (_consumeTrack (List.length done) (link_call l)
                  (observe (Started (List.length done)) c)) as [c1 s] eqn:Es.
      assert (H1 : Inv0 serial_pre
                     (done ++ {| link_call := link_call l;
                                 link_state := started_state s |} :: q) c1).
      { pose proof (_consumeTrack_Inv0 serial_pre
                      (done ++ {| link_call := link_call l;
                                  link_state := started_state s |} :: q)
                      (List.length done) (link_call l)
                      (observe (Started (List.length done)) c)) as HI.
        rewrite Es in HI. apply HI. apply Inv0_started; auto.
        intros ->. apply _consumeTrack_running in Es. exact Es. }
      destruct s as [r0|].
      * destruct (catch_null_fulfilled r0) as [v' Ev]. simpl in H1.
        rewrite Ev in *.
        set (l' := {| link_call := link_call l; link_state := Settled (Fulfilled v') |}) in *.
        assert (Hd' : forallb fulfilled (done ++ [l']) = true)
          by (rewrite forallb_app, Hd; reflexivity).
        assert (Hlen' : S (List.length done) = List.length (done ++ [l']))
          by (rewrite length_app; simpl; lia).
        specialize (IH (done ++ [l']) v' c1 Hd').
        rewrite app_cons_assoc in IH. specialize (IH H1).
        rewrite <- Hlen' in IH.
        destruct (react (Some (Fulfilled v')) (S (List.length done)) q c1) as [q' c'].
        simpl in *. now rewrite app_cons_assoc in IH.
      * rewrite (react_queued _ _ _ Hs). simpl.
        eapply Inv0_shape; [|exact H1].
        rewrite serial_prefix by auto. simpl. now rewrite Hs.
    + (* running: nothing behind it is ready *)
      assert (Hf : fulfilled l = false) by (unfold fulfilled; now rewrite El).
      rewrite Hf in Hs. apply andb_true_iff in Hs. destruct Hs as [_ Hs].
      rewrite (react_queued _ _ _ Hs). simpl.
      eapply Inv0_shape; [|exact H].
      rewrite serial_prefix by auto. simpl. rewrite Hf, Hs.
      unfold is_running. now rewrite El.
    + (* settled *)
      destruct r as [v'|m].
      * assert (Hf : fulfilled l = true) by (unfold fulfilled; now rewrite El).
        specialize (IH (done ++ [l]) v' c).
        assert (Hd' : forallb fulfilled (done ++ [l]) = true)
          by (rewrite forallb_app, Hd; simpl; now rewrite Hf).
        rewrite app_cons_assoc in IH. specialize (IH Hd' H).
        rewrite <- Hlen in IH.
        destruct (react (Some (Fulfilled v')) (S (List.length done)) q c) as [q' c'].
        simpl in *. now rewrite app_cons_assoc in IH.
      * exfalso. unfold fulfilled, is_running, is_queued in Hs.
        rewrite El in Hs. discriminate.
Qed.

Lemma run_reactions_Inv c : Inv serial_pre c -> Inv serial (run_reactions c).
Proof.
  unfold Inv, run_reactions. intros H.
  pose proof (react_Inv0 (consumeQueue c) [] None c eq_refl H) as R.
  simpl in R.
  destruct (react (Some (Fulfilled None)) 0 (consumeQueue c) c) as [q c'].
  simpl in *. auto with inv.
Qed.

Lemma Inv_pre c : Inv serial c -> Inv serial_pre c.
Proof.
  unfold Inv. intros H. eapply Inv0_shape; [|exact H].
  apply serial_serial_pre. apply (i_shape _ _ _ H).
Qed.

Lemma step_Inv c i : Inv serial c -> Inv serial (step c i).
Proof.
  intros H. unfold step. apply run_reactions_Inv, handle_Inv, Inv_pre, H.
Qed.

Lemma new_Inv pid : Inv serial (new_MediasoupClient pid).
Proof.
  unfold Inv. constructor; simpl; auto; try constructor; try discriminate;
    try congruence; try (now intros ? ? []).
Qed.

Lemma run_Inv inputs c : Inv serial c -> Inv serial (run inputs c).
Proof.
  revert c. induction inputs as [|i inputs IH]; intros c H; simpl; auto.
  apply IH, step_Inv, H.
Qed.

Lemma reachable_Inv c : reachable c -> Inv serial c.
Proof. intros [pid [inputs ->]]. apply run_Inv, new_Inv. Qed.

(** *** The calls of the chain *)

Definition calls_of (c : Client) : list ConsumeCall :=
  map link_call (consumeQueue c).

Fixpoint consume_calls (inputs : list Input) : list ConsumeCall :=
  match inputs with
  | [] => []
  | Call_consumeTrack ppid pid :: r =>
      {| producerParticipantId := ppid; producerId := pid |} :: consume_calls r
  | _ :: r => consume_calls r
  end.

Lemma settle_link_calls k r q : map link_call (settle_link k r q) = map link_call q.
Proof.
  revert k. induction q as [|l q IH]; intros [|k]; simpl; auto.
  - destruct (link_state l); reflexivity.
  - now rewrite IH.
Qed.

Lemma invoke_calls event h args c : calls_of (invoke event h args c) = calls_of c.
Proof.
  unfold calls_of.
  destruct h as [cb|w cb]; destruct cb; unfold_methods; cases; inv_eqs; queue;
    rewrite ?settle_link_calls; reflexivity.
Qed.

Lemma emit_calls event args c : calls_of (emit event args c) = calls_of c.
Proof.
  apply emit_ind with (P := fun c' => calls_of c' = calls_of c); auto.
  intros h c' H _. now rewrite invoke_calls.
Qed.

Lemma flush_calls (l : list ProducerInfo) (c : Client) :
  calls_of
    (fold_left
       (fun c' producer =>
          emit "newProducer"
            (ProducerArgs
               {| info_participantId := info_participantId producer;
                  info_producerId := info_producerId producer;
                  info_kind := info_kind producer |}) c') l c) = calls_of c.
Proof.
  revert c. induction l as [|p l IH]; intros c; simpl; auto.
  now rewrite IH, emit_calls.
Qed.

Lemma handle_calls i c :
  calls_of (handle i c) = calls_of c ++ consume_calls [i].
Proof.
  unfold calls_of.
  destruct i; simpl consume_calls; rewrite ?app_nil_r;
    unfold_inputs; unfold handleRtpCapabilities_resume; unfold_methods; cases;
    inv_eqs; queue;
    repeat first [ rewrite settle_link_calls
                 | progress fold (calls_of c)
                 | match goal with
                   | |- context [map link_call (consumeQueue ?x)] =>
                       progress change (map link_call (consumeQueue x)) with (calls_of x)
                   end
                 | rewrite emit_calls
                 | rewrite flush_calls ];
    unfold calls_of; queue; try reflexivity.
  now rewrite map_app.
Qed.

Lemma react_calls q : forall prev k c,
  map link_call (fst (react prev k q c)) = map link_call q.
Proof.
  induction q as [|l q IH]; intros prev k c; simpl; auto.
  destruct (link_state l).
  - destruct prev as [[v|m]|].
    + destruct (_consumeTrack k (link_call l) (observe (Started k) c)) as [c1 [r0|]].
      * specialize (IH (Some (catch_null r0)) (S k) c1).
        destruct (react (Some (catch_null r0)) (S k) q c1). simpl in *. now rewrite IH.
      * specialize (IH None (S k) c1).
        destruct (react None (S k) q c1). simpl in *. now rewrite IH.
    + specialize (IH (Some (Fulfilled None)) (S k) c).
      destruct (react (Some (Fulfilled None)) (S k) q c). simpl in *. now rewrite IH.
    + specialize (IH None (S k) c). destruct (react None (S k) q c).
      simpl in *. now rewrite IH.
  - specialize (IH None (S k) c). destruct (react None (S k) q c).
    simpl in *. now rewrite IH.
  - specialize (IH (Some r) (S k) c). destruct (react (Some r) (S k) q c).
    simpl in *. now rewrite IH.
Qed.

Lemma run_reactions_calls c : calls_of (run_reactions c) = calls_of c.
Proof.
  unfold calls_of, run_reactions.
  pose proof (react_calls (consumeQueue c) (Some (Fulfilled None)) 0 c) as H.
  destruct (react (Some (Fulfilled None)) 0 (consumeQueue c) c). exact H.
Qed.

Lemma consume_calls_app l1 l2 :
  consume_calls (l1 ++ l2) = consume_calls l1 ++ consume_calls l2.
Proof. induction l1 as [|[] l1 IH]; simpl; auto. now rewrite IH. Qed.

Lemma run_calls inputs c :
  calls_of (run inputs c) = calls_of c ++ consume_calls inputs.
Proof.
  revert c. induction inputs as [|i inputs IH]; intros c.
  - simpl. now rewrite app_nil_r.
  - change (run (i :: inputs) c) with (run inputs (step c i)).
    rewrite IH. unfold step. rewrite run_reactions_calls, handle_calls.
    change (i :: inputs) with ([i] ++ inputs).
    now rewrite consume_calls_app, app_assoc.
Qed.

(** *** One negotiation at a time *)

Lemma queued_no_running q :
  forallb is_queued q = true -> filter is_running q = [].
Proof.
  induction q as [|l q IH]; simpl; auto.
  intros H. apply andb_true_iff in H. destruct H as [H1 H2].
  destruct l as [call []]; simpl in *; try discriminate. auto.
Qed.

Lemma serial_outstanding q : serial q = true -> List.length (filter is_running q) <= 1.
Proof.
  induction q as [|l q IH]; simpl; auto.
  destruct (fulfilled l) eqn:Ef.
  - rewrite (fulfilled_not_running _ Ef). auto.
  - intros H. apply andb_true_iff in H. destruct H as [H1 H2].
    rewrite H1. simpl. now rewrite (queued_no_running _ H2).
Qed.

(** Around the link that runs, the links before it are fulfilled and the
    links behind it are queued. *)
Lemma serial_around q k l :
  serial q = true -> nth_error q k = Some l -> is_running l = true ->
  (forall j lj, j < k -> nth_error q j = Some lj -> fulfilled lj = true) /\
  (forall j lj, k < j -> nth_error q j = Some lj -> is_queued lj = true).
Proof.
  revert k. induction q as [|x q IH]; intros k Hs Hk Hl.
  - destruct k; discriminate.
  - simpl in Hs. destruct (fulfilled x) eqn:Ef.
    + destruct k as [|k]; simpl in Hk.
      * inversion Hk; subst. rewrite (fulfilled_not_running _ Ef) in Hl. discriminate.
      * destruct (IH k Hs Hk Hl) as [A B]. split.
        -- intros [|j] lj Hj Hn; simpl in Hn.
           ++ now inversion Hn; subst.
           ++ apply (A j); auto. lia.
        -- intros [|j] lj Hj Hn; simpl in Hn; [lia|]. apply (B j); auto. lia.
    + apply andb_true_iff in Hs. destruct Hs as [H1 H2].
      destruct k as [|k]; simpl in Hk.
      * split; [intros j lj Hj; lia|].
        intros [|j] lj Hj Hn; [lia|]. simpl in Hn.
        rewrite forallb_forall in H2. apply H2. eapply nth_error_In; eauto.
      * exfalso. rewrite forallb_forall in H2.
        assert (is_queued l = true) by (apply H2; eapply nth_error_In; eauto).
        destruct l as [call []]; simpl in *; discriminate.
Qed.

(** Behind a fulfilled link, the next link has been started. *)
Lemma serial_progress q k l l' :
  serial q = true -> nth_error q k = Some l -> fulfilled l = true ->
  nth_error q (S k) = Some l' -> is_queued l' = false.
Proof.
  revert k. induction q as [|x q IH]; intros k Hs Hk Hl Hk'.
  - destruct k; discriminate.
  - simpl in Hs. destruct (fulfilled x) eqn:Ef.
    + destruct k as [|k]; simpl in Hk, Hk'.
      * destruct q as [|y q]; [discriminate|]. inversion Hk'; subst.
        simpl in Hs. destruct (fulfilled l') eqn:Ef'.
        -- now apply fulfilled_not_queued.
        -- apply andb_true_iff in Hs. destruct Hs as [H1 _].
           destruct l' as [call []]; simpl in *; auto; discriminate.
      * eapply IH; eauto.
    + apply andb_true_iff in Hs. destruct Hs as [H1 H2].
      destruct k as [|k]; simpl in Hk.
      * inversion Hk; subst. congruence.
      * rewrite forallb_forall in H2.
        assert (is_queued l = true) by (apply H2; eapply nth_error_In; eauto).
        rewrite (fulfilled_not_queued _ Hl) in H. discriminate.
Qed.

Lemma serial_never_rejected q k l m :
  serial q = true -> nth_error q k = Some l -> link_state l <> Settled (Rejected m).
Proof.
  revert k. induction q as [|x q IH]; intros k Hs Hk.
  - destruct k; discriminate.
  - simpl in Hs. destruct k as [|k]; simpl in Hk.
    + inversion Hk; subst. intros E. unfold fulfilled, is_running in Hs.
      rewrite E in Hs. discriminate.
    + destruct (fulfilled x).
      * eapply IH; eauto.
      * apply andb_true_iff in Hs. destruct Hs as [_ H2].
        rewrite forallb_forall in H2.
        assert (is_queued l = true) by (apply H2; eapply nth_error_In; eauto).
        intros E. unfold is_queued in H. rewrite E in H. discriminate.
Qed.


(** *** Reactions that have nothing to run *)

Lemma with_consumeQueue_same c : with_consumeQueue (consumeQueue c) c = c.
Proof. now destruct c. Qed.

Lemma react_serial q : forall v k c,
  serial q = true -> react (Some (Fulfilled v)) k q c = (q, c).
Proof.
  induction q as [|l q IH]; intros v k c H; simpl in *; auto.
  destruct l as [call [| |[v'|m]]]; unfold fulfilled, is_running in H; simpl in *;
    try discriminate.
  - rewrite (react_queued q (S k) c H). reflexivity.
  - now rewrite IH.
Qed.

Lemma run_reactions_serial c : serial (consumeQueue c) = true -> run_reactions c = c.
Proof.
  intros H. unfold run_reactions. rewrite react_serial; auto.
  apply with_consumeQueue_same.
Qed.

(** The reactions on a chain of fulfilled links and one more call. *)
Lemma react_last done : forall v k l c,
  forallb fulfilled done = true -> is_queued l = true ->
  react (Some (Fulfilled v)) k (done ++ [l]) c =
  let (c1, s) :=
    _consumeTrack (k + List.length done) (link_call l)
      (observe (Started (k + List.length done)) c) in
  (done ++ [{| link_call := link_call l; link_state := started_state s |}], c1).
Proof.
  induction done as [|x done IH]; intros v k l c Hd Hl.
  - simpl. rewrite Nat.add_0_r.
    destruct l as [call []]; simpl in *; try discriminate.
    destruct (_consumeTrack k call (observe (Started k) c)) as [c1 [r0|]]; reflexivity.
  - simpl in Hd. apply andb_true_iff in Hd. destruct Hd as [Hx Hd].
    destruct x as [call [| |[v'|m]]]; unfold fulfilled in Hx; simpl in Hx;
      try discriminate.
    simpl. rewrite (IH v' (S k) l c Hd Hl).
    replace (S k + List.length done) with (k + S (List.length done)) by lia.
    destruct (_consumeTrack (k + S (List.length done)) (link_call l)
                (observe (Started (k + S (List.length done))) c)); reflexivity.
Qed.

(** *** Events that only the application listens to *)

(** Several observations at once. *)
Definition observed (os : list Obs) (c : Client) : Client :=
  {| ws := ws c; onopen := onopen c; device := device c;
     participantId := participantId c; producerTransport := producerTransport c;
     consumerTransports := consumerTransports c; producers := producers c;
     consumers := consumers c; eventHandlers := eventHandlers c;
     pendingExistingProducers := pendingExistingProducers c;
     consumeQueue := consumeQueue c; nextObject := nextObject c;
     loading := loading c; loaded := loaded c; producing := producing c;
     consuming := consuming c; trace := trace c ++ os |}.

Lemma observed_nil c : observed [] c = c.
Proof. destruct c. unfold observed. simpl. now rewrite app_nil_r. Qed.

Lemma observed_observed l1 l2 c : observed l2 (observed l1 c) = observed (l1 ++ l2) c.
Proof. unfold observed. simpl. now rewrite app_assoc. Qed.

Lemma observe_observed o c : observe o c = observed [o] c.
Proof. reflexivity. Qed.

Lemma close_all_observed rs c : close_all rs c = observed (map CloseCalled rs) c.
Proof.
  unfold close_all. revert c. induction rs as [|r rs IH]; intros c; simpl.
  - now rewrite observed_nil.
  - now rewrite IH, observe_observed, observed_observed.
Qed.

(** The callbacks of the application in an array. *)
Definition user_callbacks (handlers : list Handler) : list nat :=
  flat_map (fun h => match h with Plain (UserCallback n) => [n] | _ => [] end)
    handlers.

Definition is_user (h : Handler) : bool :=
  match h with Plain (UserCallback _) => true | _ => false end.

Definition delivered_to (event : string) (args : Payload) (handlers : list Handler)
  : list Obs :=
  map (fun n => Delivered n event args) (user_callbacks handlers).

Lemma skipn_nth_error {A} (l : list A) k x :
  nth_error l k = Some x -> skipn k l = x :: skipn (S k) l.
Proof.
  revert k. induction l as [|y l IH]; intros [|k] H; simpl in *; try discriminate.
  - now inversion H.
  - now apply IH.
Qed.

Lemma forEach_users event args hs : forall n k c,
  handlersOf event c = hs -> forallb is_user hs = true ->
  forEach n k event args c =
  observed (delivered_to event args (firstn n (skipn k hs))) c.
Proof.
  induction n as [|n IH]; intros k c Hh Hu.
  - simpl. now rewrite observed_nil.
  - simpl. rewrite Hh. destruct (nth_error hs k) as [h|] eqn:En.
    + assert (Hin : In h hs) by (eapply nth_error_In; eauto).
      rewrite forallb_forall in Hu. pose proof (Hu h Hin) as Hh'.
      destruct h as [[n0| | | | | |]|]; simpl in Hh'; try discriminate.
      simpl invoke. rewrite IH with (k := S k); auto.
      2: { apply forallb_forall. exact Hu. }
      rewrite observe_observed, observed_observed. f_equal.
      now rewrite (skipn_nth_error _ _ _ En).
    + apply nth_error_None in En.
      rewrite IH with (k := S k); auto.
      rewrite !skipn_all2 by lia. now rewrite !firstn_nil.
Qed.

Lemma emit_users event args c :
  forallb is_user (handlersOf event c) = true ->
  emit event args c =
  observed (Emitted event args :: delivered_to event args (handlersOf event c)) c.
Proof.
  intros Hu. unfold emit.
  change (eventHandlers (observe (Emitted event args) c)) with (eventHandlers c).
  unfold handlersOf in *.
  destruct (JsMap.get event (eventHandlers c)) as [hs|] eqn:E.
  - rewrite (forEach_users event args hs); auto.
    + rewrite firstn_all. simpl skipn.
      now rewrite observe_observed, observed_observed.
    + unfold handlersOf. simpl. now rewrite E.
  - reflexivity.
Qed.

(** The events the class itself waits for with [once]. *)
Definition internal_event (event : string) : bool :=
  existsb (String.eqb event)
    ["producerTransportCreated"; "producerTransportConnected"; "produced";
     "consumerTransportCreated"; "consumerTransportConnected"; "consumed"].

Lemma sorted_users event hs :
  internal_event event = false ->
  forallb (sorted_ok event) hs = true -> forallb is_user hs = true.
Proof.
  intros He H. rewrite forallb_forall in *. intros h Hin.
  specialize (H h Hin). destruct h as [[]|w cb]; simpl in *; auto.
  unfold internal_event in He. simpl in He.
  repeat (apply orb_false_iff in He; destruct He as [? He]).
  destruct cb; simpl in H; congruence.
Qed.

Lemma Inv_users s c event :
  Inv s c -> internal_event event = false ->
  forallb is_user (handlersOf event c) = true.
Proof.
  intros H He. eapply sorted_users; eauto. apply (i_sorted _ _ _ H).
Qed.

(** *** Inputs on a client between two inputs *)

Lemma serial_idle q :
  serial q = true -> filter is_running q = [] -> forallb fulfilled q = true.
Proof.
  induction q as [|l q IH]; simpl; auto.
  destruct (fulfilled l) eqn:Ef.
  - rewrite (fulfilled_not_running _ Ef). auto.
  - intros H. apply andb_true_iff in H. destruct H as [H1 _]. rewrite H1. discriminate.
Qed.

Lemma outstanding_idle c :
  Inv serial c -> outstanding c = 0 -> forallb fulfilled (consumeQueue c) = true.
Proof.
  intros H Ho. apply serial_idle.
  - apply (i_shape _ _ _ H).
  - unfold outstanding in Ho. now apply length_zero_iff_nil.
Qed.

(** A call waits in the chain only behind a call that runs. *)
Lemma serial_queued_behind q : forall k l,
  serial q = true -> nth_error q k = Some l -> is_queued l = true ->
  exists j lj, j < k /\ nth_error q j = Some lj /\ is_running lj = true.
Proof.
  induction q as [|x q IH]; intros k l Hs Hk Hl.
  - destruct k; discriminate.
  - simpl in Hs. destruct (fulfilled x) eqn:Ef.
    + destruct k as [|k]; simpl in Hk.
      * inversion Hk; subst. rewrite (fulfilled_not_queued _ Ef) in Hl. discriminate.
      * destruct (IH k l Hs Hk Hl) as [j [lj [Hj [Hn Hr]]]].
        exists (S j), lj. repeat split; auto. lia.
    + apply andb_true_iff in Hs. destruct Hs as [H1 _].
      destruct k as [|k]; simpl in Hk.
      * inversion Hk; subst. destruct l as [call []]; simpl in *; discriminate.
      * exists 0, x. repeat split; auto. lia.
Qed.

(** A call has been started only behind a call that is settled. *)
Lemma serial_started_behind q : forall k l l',
  serial q = true -> nth_error q k = Some l -> nth_error q (S k) = Some l' ->
  is_queued l' = false -> fulfilled l = true.
Proof.
  induction q as [|x q IH]; intros k l l' Hs Hk Hk' Hl'.
  - destruct k; discriminate.
  - simpl in Hs. destruct (fulfilled x) eqn:Ef.
    + destruct k as [|k]; simpl in Hk, Hk'.
      * now inversion Hk; subst.
      * eapply IH; eauto.
    + apply andb_true_iff in Hs. destruct Hs as [_ H2].
      rewrite forallb_forall in H2. simpl in Hk'.
      assert (is_queued l' = true) by (apply H2; eapply nth_error_In; eauto).
      congruence.
Qed.

(** X21.  For every sequence of inputs, from a new
    client: the links of the chain are the [consumeTrack] calls in the order
    they were made; the [_consumeTrack] executions were started in that
    order, link after link; at most one of them is outstanding; while one
    runs every earlier call is settled and every later call has not been
    started.  The chain makes progress: a call waits only behind a call that
    runs, so while none runs every call made has settled; and behind a call
    that failed and resolved to no track the next call has been started.
    But the next call is started only when the call before it has settled:
    a call whose negotiation never settles keeps every later call waiting. *)
Theorem consume_calls_serialized (pid : string) (inputs : list Input) :
  let c := run inputs (new_MediasoupClient pid) in
  calls_of c = consume_calls inputs /\
  started_links (trace c) = seq 0 (started_count (consumeQueue c)) /\
  outstanding c <= 1 /\
  (forall k l, nth_error (consumeQueue c) k = Some l -> is_running l = true ->
     (forall j lj, j < k -> nth_error (consumeQueue c) j = Some lj ->
        fulfilled lj = true) /\
     (forall j lj, k < j -> nth_error (consumeQueue c) j = Some lj ->
        is_queued lj = true)) /\
  (forall k l, nth_error (consumeQueue c) k = Some l -> is_queued l = true ->
     exists j lj, j < k /\ nth_error (consumeQueue c) j = Some lj /\
                  is_running lj = true) /\
  (outstanding c = 0 ->
   forall k, k < List.length (consume_calls inputs) ->
     exists track, consumeTrack_result k c = Some (Fulfilled track)) /\
  (forall k l', consumeTrack_result k c = Some (Fulfilled None) ->
     nth_error (consumeQueue c) (S k) = Some l' -> is_queued l' = false) /\
  (forall k l l', nth_error (consumeQueue c) k = Some l ->
     nth_error (consumeQueue c) (S k) = Some l' ->
     (is_queued l' = false <-> exists track, consumeTrack_result k c = Some (Fulfilled track))).
Proof.
  intros c.
  assert (HI : Inv serial c) by (apply run_Inv, new_Inv).
  pose proof (i_shape _ _ _ HI) as Hs.
  assert (Hc : calls_of c = consume_calls inputs) by (unfold c; now rewrite run_calls).
  assert (Hres : forall k l, nth_error (consumeQueue c) k = Some l ->
                   fulfilled l = true ->
                   exists track, consumeTrack_result k c = Some (Fulfilled track)).
  { intros k l Hk Hf. unfold consumeTrack_result. rewrite Hk.
    destruct l as [call [| |[v|m]]]; unfold fulfilled in Hf; simpl in Hf;
      try discriminate. eauto. }
  assert (Hful : forall k l track, nth_error (consumeQueue c) k = Some l ->
                   consumeTrack_result k c = Some (Fulfilled track) ->
                   fulfilled l = true).
  { intros k l track Hk Hr. unfold consumeTrack_result in Hr. rewrite Hk in Hr.
    destruct l as [call [| |r]]; try discriminate. inversion Hr. reflexivity. }
  split; [|split; [|split; [|split; [|split; [|split; [|split]]]]]].
  - exact Hc.
  - apply (i_started _ _ _ HI).
  - now apply serial_outstanding.
  - intros k l Hk Hl. eapply serial_around; eauto.
  - intros k l Hk Hl. eapply serial_queued_behind; eauto.
  - intros Ho k Hk. pose proof (outstanding_idle c HI Ho) as Hf.
    rewrite <- Hc in Hk. unfold calls_of in Hk. rewrite length_map in Hk.
    destruct (nth_error (consumeQueue c) k) as [l|] eqn:En.
    + apply (Hres k l En). rewrite forallb_forall in Hf. apply Hf.
      eapply nth_error_In; eauto.
    + apply nth_error_None in En. lia.
  - intros k l' Hr Hk'.
    destruct (nth_error (consumeQueue c) k) as [l|] eqn:Hk.
    + apply (serial_progress (consumeQueue c) k l l' Hs Hk); auto.
      eapply Hful; eauto.
    + unfold consumeTrack_result in Hr. rewrite Hk in Hr. discriminate.
  - intros k l l' Hk Hk'. split.
    + intros Hq. apply (Hres k l Hk). eapply serial_started_behind; eauto.
    + intros [track Hr]. apply (serial_progress (consumeQueue c) k l l' Hs Hk); auto.
      eapply Hful; eauto.
Qed.

Lemma device_None_idle c :
  Inv serial c -> device c = None -> outstanding c = 0.
Proof.
  intros H Hd. unfold outstanding.
  destruct (filter is_running (consumeQueue c)) as [|l r] eqn:E; auto.
  exfalso. apply (i_running _ _ _ H); auto.
  apply existsb_exists. exists l.
  assert (Hin : In l (filter is_running (consumeQueue c))) by (rewrite E; now left).
  apply filter_In in Hin. exact Hin.
Qed.

(** A [consumeTrack] call while no negotiation is outstanding starts at once. *)
Lemma consumeTrack_idle c ppid pid :
  Inv serial c -> outstanding c = 0 ->
  step c (Call_consumeTrack ppid pid) =
  (let call := {| producerParticipantId := ppid; producerId := pid |} in
   let k := List.length (consumeQueue c) in
   let (c1, s) :=
     _consumeTrack k call (observe (Started k) (consumeTrack ppid pid c)) in
   with_consumeQueue
     (consumeQueue c ++ [{| link_call := call; link_state := started_state s |}])
     c1).
Proof.
  intros H Ho. unfold step, run_reactions. cbn [handle].
  pose proof (outstanding_idle c H Ho) as Hf.
  unfold consumeTrack at 1. cbn [consumeQueue with_consumeQueue].
  rewrite react_last; auto. cbn [link_call Nat.add].
  destruct (_consumeTrack (List.length (consumeQueue c))
              {| producerParticipantId := ppid; producerId := pid |}
              (observe (Started (List.length (consumeQueue c)))
                 (consumeTrack ppid pid c))) as [c1 s].
  reflexivity.
Qed.

(** An input that leaves the chain as it is needs no reaction. *)
Lemma step_quiet c i :
  Inv serial c -> consumeQueue (handle i c) = consumeQueue c ->
  step c i = handle i c.
Proof.
  intros H E. unfold step. apply run_reactions_serial. rewrite E.
  apply (i_shape _ _ _ H).
Qed.

Lemma flush_session c0 (l : list ProducerInfo) (c : Client) :
  same_session c0 c ->
  same_session c0
    (fold_left
       (fun c' producer =>
          emit "newProducer"
            (ProducerArgs
               {| info_participantId := info_participantId producer;
                  info_producerId := info_producerId producer;
                  info_kind := info_kind producer |}) c') l c).
Proof.
  revert c. induction l as [|p l IH]; intros c H; simpl; auto.
  apply IH. now apply emit_session.
Qed.

(** The flush writes the buffer and nothing else of the session. *)
Lemma handleRtpCapabilities_resume_session c0 c :
  same_session c0 c ->
  ws (handleRtpCapabilities_resume c) = ws c0 /\
  device (handleRtpCapabilities_resume c) = device c0 /\
  loaded (handleRtpCapabilities_resume c) = loaded c0.
Proof.
  intros H. unfold handleRtpCapabilities_resume.
  destruct (pendingExistingProducers c) eqn:E.
  - unfold same_session in H. tauto.
  - set (y := with_pendingExistingProducers [] c).
    pose proof (flush_session y (p :: l) y (same_session_refl y)) as F.
    unfold same_session in F, H. decompose [and] F. decompose [and] H.
    repeat split; etransitivity; eauto.
Qed.

Lemma trace_on event h c : trace (on event h c) = trace c.
Proof. unfold on. now destruct (JsMap.has event (eventHandlers c)). Qed.

Lemma trace_once event cb c : trace (once event cb c) = trace c.
Proof. unfold once. now rewrite trace_on. Qed.

Lemma session_once_self event cb c : same_session c (once event cb c).
Proof. apply session_once, same_session_refl. Qed.

(** [_consumeTrack] for a participant without a stored transport. *)
Lemma _consumeTrack_creates k call c d :
  device c = Some d ->
  JsMap.get (producerParticipantId call) (consumerTransports c) = None ->
  ws c = OPEN ->
  _consumeTrack k call c =
  (observe (Sent (createConsumerTransport_req (participantId c)))
     (once "consumerTransportCreated" (ConsumerTransportCreatedCb k call) c), None).
Proof.
  intros Hd Hg Hw. unfold _consumeTrack, createConsumerTransport, send.
  rewrite Hd, Hg.
  destruct (session_once_self "consumerTransportCreated"
              (ConsumerTransportCreatedCb k call) c) as [Hws _].
  now rewrite Hws, Hw.
Qed.

(** [_consumeTrack] for a participant whose transport is stored. *)
Lemma _consumeTrack_reuses k call c d t :
  device c = Some d ->
  JsMap.get (producerParticipantId call) (consumerTransports c) = Some t ->
  ws c = OPEN ->
  _consumeTrack k call c =
  (observe (Sent (consume (participantId c) (transport_id t)
                    (producerParticipantId call) (producerId call) d))
     (once "consumed" (ConsumedCb k t) c), None).
Proof.
  intros Hd Hg Hw. unfold _consumeTrack, _consumeTrack_negotiate, send.
  rewrite Hd, Hg.
  destruct (session_once_self "consumed" (ConsumedCb k t) c)
    as [Hws [_ [Hdev [Hpid _]]]].
  now rewrite Hdev, Hd, Hws, Hw, Hpid.
Qed.

(** ** The claims *)

(** C2. When the load of the device settles successfully (the transition to
    Ready) with N announcements in [pendingExistingProducers], exactly those N
    [newProducer] events are emitted, in the order of the buffer, and the
    buffer is empty afterwards; a further Ready transition emits nothing. *)
Theorem ready_flushes_pending (c : Client) (d : Device) :
  existsb (Nat.eqb d) (loading c) = true ->
  device c = Some d ->
  let c' := step c (Engine_load d true) in
  capability c' = Ready /\
  emissions (trace c') =
    emissions (trace c) ++ map announcement (pendingExistingProducers c) /\
  List.length (map announcement (pendingExistingProducers c)) =
    List.length (pendingExistingProducers c) /\
  pendingExistingProducers c' = [] /\
  forall d', emissions (trace (step c' (Engine_load d' true))) = emissions (trace c').
Proof.
  intros Hl Hd c'.
  assert (Hflush : forall x,
             emissions (trace (run_reactions (handleRtpCapabilities_resume x))) =
               emissions (trace x) ++ map announcement (pendingExistingProducers x) /\
             pendingExistingProducers (run_reactions (handleRtpCapabilities_resume x)) = []).
  { intros x. rewrite run_reactions_emissions, run_reactions_pending.
    apply handleRtpCapabilities_resume_spec. }
  set (x := with_loaded (loaded (with_loading (remove_device d (loading c)) c) ++ [d])
              (with_loading (remove_device d (loading c)) c)).
  assert (Ec : c' = run_reactions (handleRtpCapabilities_resume x)).
  { unfold c', step. cbn [handle]. unfold load_settled. now rewrite Hl. }
  clearbody c'. subst c'.
  split; [|split; [|split; [|split]]].
  - destruct (handleRtpCapabilities_resume_session x x (same_session_refl x))
      as [_ [Hdev Hld]].
    destruct (run_reactions_session _ _
                (same_session_refl (handleRtpCapabilities_resume x)))
      as [_ [_ [Hdev' [_ [_ [_ [_ [_ Hld']]]]]]]].
    unfold capability. rewrite Hdev', Hld', Hdev, Hld. unfold x. simpl. rewrite Hd.
    rewrite existsb_app. simpl. rewrite Nat.eqb_refl. now rewrite orb_true_r.
  - exact (proj1 (Hflush x)).
  - apply length_map.
  - exact (proj2 (Hflush x)).
  - intros d'. set (y := run_reactions (handleRtpCapabilities_resume x)).
    assert (Hy : pendingExistingProducers y = []) by exact (proj2 (Hflush x)).
    unfold step. cbn [handle]. unfold load_settled.
    destruct (existsb (Nat.eqb d') (loading y)).
    + destruct (Hflush (with_loaded
                          (loaded (with_loading (remove_device d' (loading y)) y) ++ [d'])
                          (with_loading (remove_device d' (loading y)) y))) as [E _].
      rewrite E. simpl. rewrite Hy. simpl. now rewrite app_nil_r.
    + apply run_reactions_emissions.
Qed.

(** C9, as the code has it.  A [joined] message with a non-empty list of
    existing producers replaces [pendingExistingProducers] by that list, in
    the order of the message, whatever the state of capability negotiation is;
    a [joined] message with an empty or absent list leaves the buffer as it
    is; and the message is not acted upon: the only event emitted is
    [joined]. *)
Theorem joined_replaces_pending (c : Client) (existing : option (list ProducerInfo)) :
  let c' := step c (Socket_message (joined existing)) in
  pendingExistingProducers c' =
    match existing with
    | Some (p :: l) => p :: l
    | _ => pendingExistingProducers c
    end /\
  emissions (trace c') = emissions (trace c) ++ [("joined", JoinedArgs existing)].
Proof.
  intros c'. unfold c', step. rewrite run_reactions_pending, run_reactions_emissions.
  cbn [handle onmessage].
  destruct existing as [[|p l]|]; simpl;
    rewrite ?emit_pending, emit_emissions; auto.
Qed.

(** C3, as the code has it.  While the server's capability announcement has
    not arrived (no device object exists), [produceTrack] fails at once with
    the error "Device not initialized", visible to its caller, and sends
    nothing; [consumeTrack] sends nothing either, but its caller sees no
    error: the chain catches the error of [_consumeTrack] and the call
    resolves to no track. *)
Theorem not_initialized_fails_fast (pid0 : string) (inputs : list Input) :
  let c := run inputs (new_MediasoupClient pid0) in
  capability c = NotReady ->
  (forall track,
     step c (Call_produceTrack track) =
     observe (ProduceSettled track (Rejected "Device not initialized")) c) /\
  (forall ppid pid,
     let c' := step c (Call_consumeTrack ppid pid) in
     consumeTrack_result (List.length (consumeQueue c)) c' = Some (Fulfilled None) /\
     trace c' = trace c ++ [Started (List.length (consumeQueue c))] /\
     sent_messages (trace c') = sent_messages (trace c)).
Proof.
  intros c.
  assert (HI : Inv serial c) by (apply run_Inv, new_Inv).
  clearbody c. intros Hcap.
  assert (Hd : device c = None).
  { unfold capability in Hcap. destruct (device c); auto.
    destruct (existsb (Nat.eqb d) (loaded c)); discriminate. }
  split.
  - intros track.
    assert (Eh : handle (Call_produceTrack track) c =
                 observe (ProduceSettled track (Rejected "Device not initialized")) c).
    { cbn [handle]. unfold produceTrack. now rewrite Hd. }
    rewrite step_quiet; [exact Eh | exact HI |]. rewrite Eh. reflexivity.
  - intros ppid pid c'. unfold c'.
    rewrite consumeTrack_idle; auto using device_None_idle.
    unfold _consumeTrack. cbn [device observe consumeTrack with_consumeQueue].
    rewrite Hd. cbn.
    unfold consumeTrack_result. cbn.
    rewrite nth_error_app2, Nat.sub_diag by lia. cbn.
    repeat split. rewrite sent_messages_app. cbn. apply app_nil_r.
Qed.

Lemma NoDup_values {V} (id : V -> string) (m : JsMap.t V) :
  NoDup (JsMap.keys m) -> (forall k v, In (k, v) m -> k = id v) ->
  NoDup (JsMap.values m).
Proof.
  induction m as [|[k v] m IH]; simpl; intros Hk Hid; [constructor|].
  inversion Hk; subst. constructor.
  - intros Hin. apply H1. unfold JsMap.values, JsMap.keys in *.
    apply in_map_iff in Hin. destruct Hin as [[k' v'] [E Hin]]. simpl in E. subst v'.
    apply in_map_iff. exists (k', v). split; auto. simpl.
    rewrite (Hid k' v (or_intror Hin)). symmetry. apply Hid. now left.
  - apply IH; auto.
Qed.

Definition option_list {A} (o : option A) : list A :=
  match o with Some x => [x] | None => [] end.

(** What [disconnect] closes, in order. *)
Definition closed_by_disconnect (c : Client) : list Resource :=
  map TheProducer (JsMap.values (producers c)) ++
  map TheConsumer (JsMap.values (consumers c)) ++
  map TheProducerTransport (option_list (producerTransport c)) ++
  map TheConsumerTransport (JsMap.values (consumerTransports c)) ++
  [TheSocket].

Lemma disconnect_spec c :
  trace (disconnect c) = trace c ++ map CloseCalled (closed_by_disconnect c) /\
  producers (disconnect c) = [] /\ consumers (disconnect c) = [] /\
  consumerTransports (disconnect c) = [] /\
  producerTransport (disconnect c) = producerTransport c /\
  device (disconnect c) = device c /\
  consumeQueue (disconnect c) = consumeQueue c /\
  producing (disconnect c) = producing c /\
  eventHandlers (disconnect c) = eventHandlers c.
Proof.
  unfold disconnect, ws_close, closed_by_disconnect.
  rewrite !close_all_observed. cbn.
  destruct (producerTransport c) as [t|] eqn:Ept; cbn;
    rewrite ?close_all_observed; cbn; destruct (ws c); cbn;
    repeat split; unfold JsMap.values;
    repeat first [rewrite map_app | rewrite <- app_assoc | progress cbn];
    first [reflexivity | assumption].
Qed.

Lemma step_disconnect c : Inv serial c -> step c Call_disconnect = disconnect c.
Proof.
  intros HI. unfold step. change (handle Call_disconnect c) with (disconnect c).
  apply run_reactions_serial.
  destruct (disconnect_spec c) as [_ [_ [_ [_ [_ [_ [Hq _]]]]]]].
  rewrite Hq. apply (i_shape _ _ _ HI).
Qed.

(** C7. [disconnect] calls [close] on every registered producer, then on every
    registered consumer, each once (no producer or consumer is registered
    twice), then on the producer transport, then on every consumer transport,
    then on the socket; afterwards the three maps are empty, and a second
    [disconnect] finds them empty: it closes only the producer transport,
    which is still set, and the socket. *)
Theorem disconnect_closes_everything (pid0 : string) (inputs : list Input) :
  let c := run inputs (new_MediasoupClient pid0) in
  let c' := step c Call_disconnect in
  trace c' = trace c ++ map CloseCalled (closed_by_disconnect c) /\
  NoDup (JsMap.values (producers c)) /\
  NoDup (JsMap.values (consumers c)) /\
  producers c' = [] /\ consumers c' = [] /\ consumerTransports c' = [] /\
  closed_by_disconnect c' =
    map TheProducerTransport (option_list (producerTransport c)) ++ [TheSocket] /\
  trace (step c' Call_disconnect) =
    trace c' ++
    map CloseCalled
      (map TheProducerTransport (option_list (producerTransport c)) ++ [TheSocket]).
Proof.
  intros c.
  assert (HI : Inv serial c) by (apply run_Inv, new_Inv).
  clearbody c. intros c'.
  assert (HI' : Inv serial c') by (apply step_Inv, HI).
  destruct (disconnect_spec c) as [Ht [Hp [Hc [Hct [Hpt [_ [Hq _]]]]]]].
  assert (E : c' = disconnect c) by exact (step_disconnect c HI).
  clearbody c'.
  assert (Hclosed : closed_by_disconnect c' =
            map TheProducerTransport (option_list (producerTransport c)) ++ [TheSocket]).
  { unfold closed_by_disconnect. rewrite E, Hp, Hc, Hct, Hpt. reflexivity. }
  repeat split; try (rewrite E; assumption); auto.
  - apply (NoDup_values producer_id); [apply (i_keys_p _ _ _ HI) | apply (i_ids_p _ _ _ HI)].
  - apply (NoDup_values consumer_id); [apply (i_keys_c _ _ _ HI) | apply (i_ids_c _ _ _ HI)].
  - destruct (disconnect_spec c') as [Ht' [_ [_ [_ [_ [_ [Hq' _]]]]]]].
    rewrite (step_disconnect c' HI'). now rewrite Ht', Hclosed.
Qed.

(** C10. [disconnect] empties the three maps and leaves [device] and
    [producerTransport] set.  A [produceTrack] call after it therefore passes
    the device check, registers no [producerTransportCreated] handler and
    sends no [createProducerTransport] request (it records and sends nothing
    at all), and calls [produce] on the transport that [disconnect] closed. *)
Theorem produce_after_disconnect (pid0 : string) (inputs : list Input)
    (d : Device) (t : Transport) (track : Track) :
  let c := run inputs (new_MediasoupClient pid0) in
  device c = Some d ->
  producerTransport c = Some t ->
  let c' := step c Call_disconnect in
  let c'' := step c' (Call_produceTrack track) in
  producers c' = [] /\ consumers c' = [] /\ consumerTransports c' = [] /\
  device c' = Some d /\ producerTransport c' = Some t /\
  In (CloseCalled (TheProducerTransport t)) (trace c') /\
  trace c'' = trace c' /\
  eventHandlers c'' = eventHandlers c' /\
  producing c'' = producing c' ++ [(t, track)].
Proof.
  intros c.
  assert (HI : Inv serial c) by (apply run_Inv, new_Inv).
  clearbody c. intros Hd Hpt c'.
  assert (HI' : Inv serial c') by (apply step_Inv, HI).
  destruct (disconnect_spec c) as [Ht [Hp [Hc [Hct [Hpt' [Hd' [Hq _]]]]]]].
  assert (E : c' = disconnect c) by exact (step_disconnect c HI).
  clearbody c'. intros c''.
  assert (Hd'' : device c' = Some d) by (rewrite E; congruence).
  assert (Hpt'' : producerTransport c' = Some t) by (rewrite E; congruence).
  assert (Hprod : handle (Call_produceTrack track) c' =
                  with_producing (producing c' ++ [(t, track)]) c').
  { cbn [handle]. unfold produceTrack, produceTrack_resume.
    now rewrite Hd'', Hpt''. }
  assert (E'' : c'' = with_producing (producing c' ++ [(t, track)]) c').
  { unfold c''. rewrite step_quiet; [exact Hprod | exact HI' |].
    rewrite Hprod. reflexivity. }
  clearbody c''. subst c''.
  repeat split; try (rewrite E; assumption); auto.
  rewrite E, Ht. apply in_or_app. right. apply in_map.
  unfold closed_by_disconnect. rewrite Hpt.
  apply in_or_app. right. apply in_or_app. right. now left.
Qed.

(** C5, as the code has it.  When [participantLeft] arrives for a participant
    whose consumer transport is stored, the transport is closed and removed
    from [consumerTransports], then the departure is emitted (to the
    application's handlers); the [consumers] map is left as it is.  The next
    [consumeTrack] for that participant finds no transport and requests a new
    one. *)
Theorem participantLeft_closes_transport (pid0 : string) (inputs : list Input)
    (pid : string) (t : Transport) :
  let c := run inputs (new_MediasoupClient pid0) in
  JsMap.get pid (consumerTransports c) = Some t ->
  let c' := step c (Socket_message (participantLeft pid)) in
  trace c' =
    trace c ++
    CloseCalled (TheConsumerTransport t)
    :: Emitted "participantLeft" (ParticipantArgs pid)
    :: delivered_to "participantLeft" (ParticipantArgs pid)
         (handlersOf "participantLeft" c) /\
  consumerTransports c' = JsMap.delete pid (consumerTransports c) /\
  JsMap.get pid (consumerTransports c') = None /\
  consumers c' = consumers c /\
  (forall producer, outstanding c = 0 -> ws c = OPEN ->
     trace (step c' (Call_consumeTrack pid producer)) =
     trace c' ++ [Started (List.length (consumeQueue c));
                  Sent (createConsumerTransport_req (participantId c))]).
Proof.
  intros c.
  assert (HI : Inv serial c) by (apply run_Inv, new_Inv).
  clearbody c. intros Hget c'.
  assert (HI' : Inv serial c') by (apply step_Inv, HI).
  set (c0 := with_consumerTransports (JsMap.delete pid (consumerTransports c))
               (observe (CloseCalled (TheConsumerTransport t)) c)).
  assert (Hu : forallb is_user (handlersOf "participantLeft" c0) = true)
    by (apply (Inv_users serial c "participantLeft" HI); reflexivity).
  assert (E : c' =
            observed (Emitted "participantLeft" (ParticipantArgs pid)
                      :: delivered_to "participantLeft" (ParticipantArgs pid)
                           (handlersOf "participantLeft" c)) c0).
  { assert (Eh : handle (Socket_message (participantLeft pid)) c =
                 observed (Emitted "participantLeft" (ParticipantArgs pid)
                           :: delivered_to "participantLeft" (ParticipantArgs pid)
                                (handlersOf "participantLeft" c)) c0).
    { cbn [handle onmessage]. unfold handleParticipantLeft. rewrite Hget.
      cbv zeta. fold c0. rewrite (emit_users _ _ c0 Hu). reflexivity. }
    unfold c'. rewrite step_quiet; [exact Eh | exact HI |].
    rewrite Eh. reflexivity. }
  clearbody c'.
  assert (Hnone : JsMap.get pid (consumerTransports c') = None).
  { rewrite E. cbn. apply get_delete_same. apply (i_keys_t _ _ _ HI). }
  assert (Hdev : device c' <> None).
  { rewrite E. cbn. apply (i_transports _ _ _ HI). intros En. rewrite En in Hget.
    discriminate. }
  repeat split; try (rewrite E; cbn; rewrite <- ?app_assoc; reflexivity); auto.
  intros producer Ho Hws.
  assert (Ho' : outstanding c' = 0) by (rewrite E; exact Ho).
  assert (Hws' : ws c' = OPEN) by (rewrite E; exact Hws).
  destruct (device c') as [dv|] eqn:Ed; [|congruence].
  rewrite consumeTrack_idle; auto. cbv zeta.
  rewrite (_consumeTrack_creates _ _ _ dv); auto.
  - cbn [trace with_consumeQueue observe]. rewrite trace_once.
    cbn [trace observe consumeTrack with_consumeQueue participantId consumeQueue].
    rewrite <- app_assoc. rewrite E. reflexivity.
Qed.

(** ** Further properties *)

(** *** [send] and the socket *)

(** The socket will not open any more. *)
Definition shut (c : Client) : bool :=
  match ws c with
  | CLOSING | CLOSED => true
  | _ => false
  end.

(** From [c0] to [c] the socket was not open and nothing was sent. *)
Definition silent (c0 c : Client) : Prop :=
  ws c <> OPEN /\ (shut c0 = true -> shut c = true) /\
  sent_messages (trace c) = sent_messages (trace c0).

Lemma silent_refl c : ws c <> OPEN -> silent c c.
Proof. unfold silent. auto. Qed.

Ltac silent_prim :=
  let H := fresh in
  intros H; unfold silent, shut in *; simpl; exact H.

Lemma silent_with_onopen c0 x c : silent c0 c -> silent c0 (with_onopen x c).
Proof. silent_prim. Qed.

Lemma silent_with_device c0 x c : silent c0 c -> silent c0 (with_device x c).
Proof. silent_prim. Qed.

Lemma silent_with_producerTransport c0 x c :
  silent c0 c -> silent c0 (with_producerTransport x c).
Proof. silent_prim. Qed.

Lemma silent_with_consumerTransports c0 x c :
  silent c0 c -> silent c0 (with_consumerTransports x c).
Proof. silent_prim. Qed.

Lemma silent_with_producers c0 x c : silent c0 c -> silent c0 (with_producers x c).
Proof. silent_prim. Qed.

Lemma silent_with_consumers c0 x c : silent c0 c -> silent c0 (with_consumers x c).
Proof. silent_prim. Qed.

Lemma silent_with_eventHandlers c0 x c :
  silent c0 c -> silent c0 (with_eventHandlers x c).
Proof. silent_prim. Qed.

Lemma silent_with_pendingExistingProducers c0 x c :
  silent c0 c -> silent c0 (with_pendingExistingProducers x c).
Proof. silent_prim. Qed.

Lemma silent_with_consumeQueue c0 x c :
  silent c0 c -> silent c0 (with_consumeQueue x c).
Proof. silent_prim. Qed.

Lemma silent_with_nextObject c0 x c : silent c0 c -> silent c0 (with_nextObject x c).
Proof. silent_prim. Qed.

Lemma silent_with_loading c0 x c : silent c0 c -> silent c0 (with_loading x c).
Proof. silent_prim. Qed.

Lemma silent_with_loaded c0 x c : silent c0 c -> silent c0 (with_loaded x c).
Proof. silent_prim. Qed.

Lemma silent_with_producing c0 x c : silent c0 c -> silent c0 (with_producing x c).
Proof. silent_prim. Qed.

Lemma silent_with_consuming c0 x c : silent c0 c -> silent c0 (with_consuming x c).
Proof. silent_prim. Qed.

Lemma silent_settle c0 k r c : silent c0 c -> silent c0 (settle k r c).
Proof. silent_prim. Qed.

Lemma silent_closing c0 c : silent c0 c -> silent c0 (with_ws CLOSING c).
Proof.
  unfold silent, shut. simpl. intros [_ [_ H]]. repeat split; auto. discriminate.
Qed.

Lemma silent_closed c0 c : silent c0 c -> silent c0 (with_ws CLOSED c).
Proof.
  unfold silent, shut. simpl. intros [_ [_ H]]. repeat split; auto. discriminate.
Qed.

Definition not_sent (o : Obs) : bool :=
  match o with Sent _ => false | _ => true end.

Lemma silent_observe c0 o c : not_sent o = true -> silent c0 c -> silent c0 (observe o c).
Proof.
  unfold silent, shut. simpl. intros Ho [H1 [H2 H3]]. repeat split; auto.
  rewrite sent_messages_app, H3. destruct o; try discriminate; apply app_nil_r.
Qed.

Lemma silent_send c0 m c : silent c0 c -> silent c0 (send m c).
Proof.
  intros H. unfold send. destruct (ws c) eqn:E; auto.
  destruct H as [H _]. congruence.
Qed.

Lemma silent_on c0 event h c : silent c0 c -> silent c0 (on event h c).
Proof.
  intros H. unfold on. destruct (JsMap.has event (eventHandlers c));
    auto using silent_with_eventHandlers.
Qed.

Lemma silent_once c0 event cb c : silent c0 c -> silent c0 (once event cb c).
Proof. intros H. unfold once. auto using silent_on, silent_with_nextObject. Qed.

Lemma silent_off c0 event w c : silent c0 c -> silent c0 (off event w c).
Proof.
  intros H. unfold off. destruct (JsMap.get event (eventHandlers c)); auto.
  destruct (indexOf w l); auto using silent_with_eventHandlers.
Qed.

Lemma silent_close_all c0 rs c : silent c0 c -> silent c0 (close_all rs c).
Proof.
  unfold close_all. revert c. induction rs as [|r rs IH]; intros c H; simpl; auto.
  apply IH. now apply silent_observe.
Qed.

Create HintDb silent discriminated.
#[local] Hint Resolve silent_with_onopen silent_with_device
  silent_with_producerTransport silent_with_consumerTransports
  silent_with_producers silent_with_consumers silent_with_eventHandlers
  silent_with_pendingExistingProducers silent_with_consumeQueue
  silent_with_nextObject silent_with_loading silent_with_loaded
  silent_with_producing silent_with_consuming silent_settle silent_closing
  silent_closed silent_observe silent_send silent_on silent_once silent_off
  silent_close_all : silent.
#[local] Hint Extern 1 (_ = _) => reflexivity : silent.

Lemma invoke_silent c0 event h args c :
  silent c0 c -> silent c0 (invoke event h args c).
Proof.
  intros H. destruct h as [cb|w cb]; destruct cb; unfold_methods; cases; inv_eqs;
    auto 12 with silent.
Qed.

Lemma emit_silent c0 event args c : silent c0 c -> silent c0 (emit event args c).
Proof.
  intros H. apply emit_ind; auto using invoke_silent with silent.
Qed.

Lemma flush_silent c0 (l : list ProducerInfo) (c : Client) :
  silent c0 c ->
  silent c0
    (fold_left
       (fun c' producer =>
          emit "newProducer"
            (ProducerArgs
               {| info_participantId := info_participantId producer;
                  info_producerId := info_producerId producer;
                  info_kind := info_kind producer |}) c') l c).
Proof.
  revert c. induction l as [|p l IH]; intros c H; simpl; auto.
  apply IH. now apply emit_silent.
Qed.

Lemma handleRtpCapabilities_resume_silent c0 c :
  silent c0 c -> silent c0 (handleRtpCapabilities_resume c).
Proof.
  intros H. unfold handleRtpCapabilities_resume.
  destruct (pendingExistingProducers c); auto.
  apply flush_silent. auto with silent.
Qed.

#[local] Hint Resolve emit_silent handleRtpCapabilities_resume_silent : silent.

(** An input other than the opening of the socket, on a socket that is not
    open. *)
Lemma handle_silent i c :
  ws c <> OPEN -> (i <> Socket_open \/ ws c <> CONNECTING) ->
  silent c (handle i c).
Proof.
  intros Hw Hi. pose proof (silent_refl c Hw) as H.
  destruct i; unfold_inputs; unfold_methods; cases; inv_eqs;
    try (destruct Hi; congruence); auto 14 with silent.
Qed.

Lemma _consumeTrack_silent c0 k call c :
  silent c0 c -> silent c0 (fst (_consumeTrack k call c)).
Proof.
  intros H. unfold_methods; cases; inv_eqs; cbn [fst]; auto 10 with silent.
Qed.

Lemma run_reactions_silent c0 c : silent c0 c -> silent c0 (run_reactions c).
Proof.
  intros H. unfold run_reactions.
  pose proof (react_ind (silent c0)) as R.
  specialize (R (fun k call c1 H1 =>
                   _consumeTrack_silent c0 k call _
                     (silent_observe c0 (Started k) c1 eq_refl H1))).
  specialize (R (consumeQueue c) (Some (Fulfilled None)) 0 c H).
  destruct (react (Some (Fulfilled None)) 0 (consumeQueue c) c).
  auto with silent.
Qed.

Lemma step_silent c i :
  ws c <> OPEN -> (i <> Socket_open \/ ws c <> CONNECTING) -> silent c (step c i).
Proof.
  intros Hw Hi. unfold step. apply run_reactions_silent. now apply handle_silent.
Qed.

Lemma run_silent (c : Client) (inputs : list Input) :
  ws c <> OPEN ->
  ~ In Socket_open inputs ->
  sent_messages (trace (run inputs c)) = sent_messages (trace c) /\
  ws (run inputs c) <> OPEN.
Proof.
  revert c. induction inputs as [|i inputs IH]; intros c Hw Hn; simpl; auto.
  assert (Hi : i <> Socket_open) by (intros ->; apply Hn; now left).
  destruct (step_silent c i Hw (or_introl Hi)) as [Hw' [_ Hs]].
  destruct (IH (step c i) Hw') as [E1 E2].
  - intros Hin. apply Hn. now right.
  - split; auto. congruence.
Qed.

(** X1. While the socket is not open and does not open, no method sends
    anything, whatever is called and whatever arrives: [send] drops every
    message. *)
Theorem nothing_sent_unless_open (c : Client) (inputs : list Input) :
  ws c <> OPEN ->
  ~ In Socket_open inputs ->
  sent_messages (trace (run inputs c)) = sent_messages (trace c) /\
  ws (run inputs c) <> OPEN.
Proof. apply run_silent. Qed.

Lemma ws_close_shut c : shut (ws_close c) = true.
Proof.
  unfold ws_close, shut. cbv zeta.
  change (ws (observe (CloseCalled TheSocket) c)) with (ws c).
  destruct (ws c) eqn:E; cbn [ws with_ws observe]; try reflexivity.
  now rewrite E.
Qed.

Lemma disconnect_shut c : shut (disconnect c) = true.
Proof. unfold disconnect. cbv zeta. apply ws_close_shut. Qed.

Lemma shut_not_open c : shut c = true -> ws c <> OPEN /\ ws c <> CONNECTING.
Proof. unfold shut. destruct (ws c); intros H; split; congruence. Qed.

(** X2. After [disconnect] the client never sends again: [disconnect] itself
    sends nothing, and whatever is called or arrives afterwards (the socket
    reporting that it opened included), no message goes out. *)
Theorem nothing_sent_after_disconnect (c : Client) (inputs : list Input) :
  sent_messages (trace (run inputs (step c Call_disconnect))) =
  sent_messages (trace c).
Proof.
  assert (H0 : shut (step c Call_disconnect) = true /\
               sent_messages (trace (step c Call_disconnect)) =
               sent_messages (trace c)).
  { unfold step. change (handle Call_disconnect c) with (disconnect c).
    pose proof (disconnect_shut c) as Hs.
    destruct (shut_not_open _ Hs) as [Hw _].
    destruct (run_reactions_silent _ _ (silent_refl _ Hw)) as [_ [Hs' E]].
    split; auto. rewrite E.
    destruct (disconnect_spec c) as [Ht _]. rewrite Ht, sent_messages_app.
    clear. induction (closed_by_disconnect c) as [|r l IH]; simpl.
    - apply app_nil_r.
    - exact IH. }
  destruct H0 as [Hs E]. rewrite <- E. clear E.
  revert Hs. generalize (step c Call_disconnect) as x. clear c.
  induction inputs as [|i inputs IH]; intros x Hs; simpl; auto.
  destruct (shut_not_open _ Hs) as [Hw Hc].
  destruct (step_silent x i Hw (or_intror Hc)) as [_ [Hs' E]].
  rewrite (IH _ (Hs' Hs)). exact E.
Qed.

(** *** [connect] and [joinRoom] *)

(** The socket, the handler that [connect] puts on it, and the identity. *)
Definition same_socket (c0 c : Client) : Prop :=
  ws c = ws c0 /\ onopen c = onopen c0 /\ participantId c = participantId c0.

Lemma same_socket_refl c : same_socket c c.
Proof. unfold same_socket. auto. Qed.

Lemma same_socket_ext c0 c c' :
  ws c' = ws c -> onopen c' = onopen c -> participantId c' = participantId c ->
  same_socket c0 c -> same_socket c0 c'.
Proof. unfold same_socket. intros -> -> ->. auto. Qed.

Lemma same_socket_session c0 c c' :
  same_session c c' -> same_socket c0 c -> same_socket c0 c'.
Proof.
  intros [H1 [H2 [_ [H3 _]]]]. now apply same_socket_ext.
Qed.

Lemma socket_send c0 m c : same_socket c0 c -> same_socket c0 (send m c).
Proof. apply same_socket_session, session_send, same_session_refl. Qed.

Lemma socket_once c0 event cb c : same_socket c0 c -> same_socket c0 (once event cb c).
Proof. apply same_socket_session, session_once, same_session_refl. Qed.

Lemma socket_on c0 event h c : same_socket c0 c -> same_socket c0 (on event h c).
Proof. apply same_socket_session, session_on, same_session_refl. Qed.

Lemma socket_emit c0 event args c : same_socket c0 c -> same_socket c0 (emit event args c).
Proof. apply same_socket_session, emit_session, same_session_refl. Qed.

Lemma socket_flush c0 c :
  same_socket c0 c -> same_socket c0 (handleRtpCapabilities_resume c).
Proof.
  intros H. unfold handleRtpCapabilities_resume.
  destruct (pendingExistingProducers c); auto.
  eapply same_socket_session; [apply flush_session, same_session_refl|].
  revert H. apply same_socket_ext; reflexivity.
Qed.

Lemma socket_run_reactions c0 c :
  same_socket c0 c -> same_socket c0 (run_reactions c).
Proof. apply same_socket_session, run_reactions_session, same_session_refl. Qed.

Lemma socket_off c0 event w c : same_socket c0 c -> same_socket c0 (off event w c).
Proof. apply same_socket_session, session_off, same_session_refl. Qed.

Lemma socket_close_all c0 rs c : same_socket c0 c -> same_socket c0 (close_all rs c).
Proof.
  intros H. rewrite close_all_observed. revert H. apply same_socket_ext; reflexivity.
Qed.

Ltac socket_step :=
  lazymatch goal with
  | |- same_socket _ (send _ _) => apply socket_send
  | |- same_socket _ (once _ _ _) => apply socket_once
  | |- same_socket _ (on _ _ _) => apply socket_on
  | |- same_socket _ (off _ _ _) => apply socket_off
  | |- same_socket _ (emit _ _ _) => apply socket_emit
  | |- same_socket _ (close_all _ _) => apply socket_close_all
  | |- same_socket _ (handleRtpCapabilities_resume _) => apply socket_flush
  | |- same_socket _ (?f ?x ?y) =>
      apply (fun c0 => same_socket_ext c0 y);
      [reflexivity | reflexivity | reflexivity |]
  end.

Ltac socket := repeat socket_step; try assumption; try apply same_socket_refl.

(** The inputs that leave the socket as it is. *)
Definition keeps_socket (i : Input) : bool :=
  match i with
  | Socket_open | Socket_closed | Call_disconnect => false
  | _ => true
  end.

Definition is_connect (i : Input) : bool :=
  match i with Call_connect => true | _ => false end.

Lemma step_connecting c i :
  ws c = CONNECTING -> keeps_socket i = true ->
  ws (step c i) = CONNECTING /\
  participantId (step c i) = participantId c /\
  onopen (step c i) = (is_connect i || onopen c)%bool.
Proof.
  intros Hw Hk.
  assert (H : same_socket (if is_connect i then with_onopen true c else c) (handle i c)).
  { pose proof (same_socket_refl c) as H.
    destruct i; try discriminate; cbn [is_connect];
      unfold_inputs; unfold_methods; cases; inv_eqs; try congruence; socket. }
  apply socket_run_reactions in H. fold (step c i) in H.
  destruct H as [H1 [H2 H3]]. rewrite H1, H2, H3.
  destruct (is_connect i); auto.
Qed.

Lemma run_app l1 l2 c : run (l1 ++ l2) c = run l2 (run l1 c).
Proof. unfold run. apply fold_left_app. Qed.

Lemma run_connecting l : forall c,
  ws c = CONNECTING -> forallb keeps_socket l = true ->
  ws (run l c) = CONNECTING /\
  participantId (run l c) = participantId c /\
  onopen (run l c) = (existsb is_connect l || onopen c)%bool.
Proof.
  induction l as [|i l IH]; intros c Hw Hk; simpl in *; auto.
  apply andb_true_iff in Hk. destruct Hk as [Hi Hl].
  destruct (step_connecting c i Hw Hi) as [H1 [H2 H3]].
  destruct (IH (step c i) H1 Hl) as [G1 [G2 G3]].
  rewrite G1, G2, G3, H2, H3. repeat split; auto.
  destruct (is_connect i), (existsb is_connect l), (onopen c); reflexivity.
Qed.

Lemma keeps_socket_not_open l :
  forallb keeps_socket l = true -> ~ In Socket_open l.
Proof.
  intros H Hin. rewrite forallb_forall in H. specialize (H _ Hin). discriminate.
Qed.

(** The opening of the socket, on a client between two inputs. *)
Lemma step_Socket_open c :
  Inv serial c -> ws c = CONNECTING ->
  trace (step c Socket_open) =
  trace c ++
  (if onopen c then [Sent (join (participantId c)); Sent getRtpCapabilities]
   else []).
Proof.
  intros HI Hw.
  assert (Eh : handle Socket_open c =
               if onopen c then joinRoom (with_ws OPEN c) else with_ws OPEN c).
  { cbn [handle]. rewrite Hw. reflexivity. }
  rewrite step_quiet; auto; rewrite Eh.
  - destruct (onopen c); cbn; [now rewrite <- app_assoc | now rewrite app_nil_r].
  - destruct (onopen c); reflexivity.
Qed.

(** X3. [connect] before the socket is open sends nothing and defers the
    join: from a new client, whatever else is called or arrives in between
    (the socket neither opening nor closing), when the socket opens exactly
    [join] with the client's participant id and [getRtpCapabilities] have been
    sent, in that order, however often [connect] was called; and without a
    [connect] call the opening of the socket sends nothing. *)
Theorem connect_joins_when_socket_opens (pid0 : string) (inputs : list Input) :
  forallb keeps_socket inputs = true ->
  sent_messages
    (trace (run (inputs ++ [Socket_open]) (new_MediasoupClient pid0))) =
  if existsb is_connect inputs then [join pid0; getRtpCapabilities] else [].
Proof.
  intros Hk. rewrite run_app. cbn [run fold_left].
  set (c := run inputs (new_MediasoupClient pid0)).
  assert (HI : Inv serial c) by (apply run_Inv, new_Inv).
  destruct (run_connecting inputs (new_MediasoupClient pid0) eq_refl Hk)
    as [Hw [Hp Ho]].
  destruct (run_silent (new_MediasoupClient pid0) inputs)
    as [Hs _]; [discriminate | now apply keeps_socket_not_open |].
  fold c in Hw, Hp, Ho, Hs. clearbody c.
  rewrite step_Socket_open, sent_messages_app, Hs, Ho, Hp; auto.
  cbn. rewrite orb_false_r. destruct (existsb is_connect inputs); reflexivity.
Qed.

(** *** The bus, with a one-shot handler in the array *)

Lemma forEach_split event args n1 : forall n2 k c,
  forEach (n1 + n2) k event args c =
  forEach n2 (k + n1) event args (forEach n1 k event args c).
Proof.
  induction n1 as [|n1 IH]; intros n2 k c.
  - simpl. now rewrite Nat.add_0_r.
  - simpl. replace (k + S n1) with (S k + n1) by lia.
    destruct (nth_error (handlersOf event c) k); apply IH.
Qed.

Lemma handlersOf_observed e os c : handlersOf e (observed os c) = handlersOf e c.
Proof. reflexivity. Qed.

Lemma handlersOf_send e m c : handlersOf e (send m c) = handlersOf e c.
Proof. unfold send. now destruct (ws c). Qed.

Lemma handlersOf_settle e k r c : handlersOf e (settle k r c) = handlersOf e c.
Proof. reflexivity. Qed.

Lemma handlersOf_once_same event cb c :
  handlersOf event (once event cb c) =
  handlersOf event c ++ [Wrapper (nextObject c) cb].
Proof. unfold once. now rewrite handlersOf_on_same. Qed.

Lemma handlersOf_once_other event e cb c :
  e <> event -> handlersOf e (once event cb c) = handlersOf e c.
Proof. intros H. unfold once. now rewrite handlersOf_on_other. Qed.

(** A closure of the class leaves the array of its own event as it is. *)
Lemma call_callback_handlers event cb args c :
  callback_event cb = Some event ->
  handlersOf event (call_callback event cb args c) = handlersOf event c.
Proof.
  intros He. destruct cb; simpl in He; inversion He; subst; clear He;
    unfold_methods; cases; inv_eqs; try reflexivity;
    rewrite ?handlersOf_send, ?handlersOf_settle, ?handlersOf_once_other
      by discriminate; reflexivity.
Qed.

Lemma indexOf_users us w cb rest :
  forallb is_user us = true ->
  indexOf w (us ++ Wrapper w cb :: rest) = Some (List.length us).
Proof.
  induction us as [|h us IH]; simpl; intros H.
  - now rewrite Nat.eqb_refl.
  - apply andb_true_iff in H. destruct H as [Hh Hu].
    destruct h as [[]|]; simpl in Hh; try discriminate.
    simpl. now rewrite IH.
Qed.

Lemma splice1_middle (l1 : list Handler) x l2 :
  splice1 (List.length l1) (l1 ++ x :: l2) = l1 ++ l2.
Proof.
  induction l1 as [|a l1 IH]; [reflexivity|].
  unfold splice1 in *. cbn [List.length firstn skipn app]. f_equal. exact IH.
Qed.

Lemma firstn_skipn_users (us1 us2 : list Handler) :
  firstn (List.length us1) (skipn 0 (us1 ++ us2)) = us1.
Proof. simpl. now rewrite firstn_app, firstn_all, Nat.sub_diag, app_nil_r. Qed.

Lemma forEach_users_upto event args hs : forall n k c,
  handlersOf event c = hs ->
  forallb is_user (firstn n (skipn k hs)) = true ->
  forEach n k event args c =
  observed (delivered_to event args (firstn n (skipn k hs))) c.
Proof.
  induction n as [|n IH]; intros k c Hh Hu.
  - simpl. now rewrite observed_nil.
  - simpl forEach. rewrite Hh. destruct (nth_error hs k) as [h|] eqn:En.
    + rewrite (skipn_nth_error _ _ _ En) in Hu |- *. cbn [firstn] in Hu |- *.
      cbn [forallb] in Hu. apply andb_true_iff in Hu. destruct Hu as [Hh' Hu].
      destruct h as [[n0| | | | | |]|]; simpl in Hh'; try discriminate.
      simpl invoke. rewrite IH with (k := S k); auto.
      now rewrite observe_observed, observed_observed.
    + apply nth_error_None in En.
      rewrite IH with (k := S k); auto.
      * rewrite !skipn_all2 by lia. now rewrite !firstn_nil.
      * rewrite skipn_all2 by lia. now rewrite firstn_nil.
Qed.

(** [emit] on an array of application callbacks with one wrapper among them:
    the callbacks before the wrapper, the wrapper, which takes itself out of
    the array, and then the callbacks behind it but the first: that one has
    moved to the index [forEach] has just left. *)
Lemma emit_once event args c us1 w cb us2 :
  handlersOf event c = us1 ++ Wrapper w cb :: us2 ->
  forallb is_user us1 = true ->
  forallb is_user us2 = true ->
  callback_event cb = Some event ->
  emit event args c =
    observed (delivered_to event args (tl us2))
      (off event w
         (call_callback event cb args
            (observed (Emitted event args :: delivered_to event args us1) c))) /\
  handlersOf event (emit event args c) = us1 ++ us2.
Proof.
  intros Hh Hu1 Hu2 Hcb.
  set (c1 := observed (Emitted event args :: delivered_to event args us1) c).
  set (c2 := off event w (call_callback event cb args c1)).
  assert (H2 : handlersOf event c2 = us1 ++ us2).
  { unfold c2. rewrite handlersOf_off_same, call_callback_handlers by auto.
    unfold c1. rewrite handlersOf_observed, Hh, indexOf_users by auto.
    apply splice1_middle. }
  assert (E : emit event args c = observed (delivered_to event args (tl us2)) c2).
  { unfold emit.
    change (eventHandlers (observe (Emitted event args) c)) with (eventHandlers c).
    assert (Hg : JsMap.get event (eventHandlers c) = Some (us1 ++ Wrapper w cb :: us2)).
    { unfold handlersOf in Hh. destruct (JsMap.get event (eventHandlers c)).
      - now rewrite Hh.
      - destruct us1; discriminate. }
    rewrite Hg, length_app. cbn [List.length].
    rewrite forEach_split.
    rewrite (forEach_users_upto event args (us1 ++ Wrapper w cb :: us2)
               (List.length us1) 0 (observe (Emitted event args) c)).
    - (* the callbacks before the wrapper *)
      rewrite firstn_skipn_users, observe_observed, observed_observed.
      fold c1. cbn [Nat.add forEach].
      rewrite handlersOf_observed, Hh.
      rewrite nth_error_app2, Nat.sub_diag by lia. cbn [nth_error invoke].
      fold c2.
      rewrite (forEach_users event args (us1 ++ us2)); auto.
      + f_equal. rewrite skipn_app, skipn_all2, Nat.sub_succ_l, Nat.sub_diag by lia.
        simpl. destruct us2 as [|h us2]; [reflexivity|].
        now rewrite firstn_all2 by (simpl; lia).
      + now rewrite forallb_app, Hu1, Hu2.
    - exact Hh.
    - now rewrite firstn_skipn_users. }
  split; [exact E|]. rewrite E. exact H2.
Qed.

Definition not_delivered (o : Obs) : bool :=
  match o with Delivered _ _ _ => false | _ => true end.

(** A closure of the class delivers nothing to the application. *)
Lemma invoke_wrapper_grows c0 event w cb args c :
  callback_event cb = Some event ->
  grows not_delivered c0 c ->
  grows not_delivered c0 (invoke event (Wrapper w cb) args c).
Proof.
  intros He H. destruct cb; simpl in He; try discriminate;
    unfold_methods; cases; inv_eqs; auto 10 with grows.
Qed.

Lemma not_delivered_deliveries l : forallb not_delivered l = true -> deliveries l = [].
Proof. induction l as [|[] l IH]; simpl; auto; try discriminate. Qed.

Lemma deliveries_delivered_to event args hs :
  deliveries (delivered_to event args hs) =
  map (fun n => (n, event, args)) (user_callbacks hs).
Proof.
  unfold delivered_to. induction (user_callbacks hs) as [|n l IH]; simpl; auto.
  now rewrite IH.
Qed.

Lemma user_callbacks_app hs1 hs2 :
  user_callbacks (hs1 ++ hs2) = user_callbacks hs1 ++ user_callbacks hs2.
Proof. unfold user_callbacks. apply flat_map_app. Qed.

(** X4. When the array of an event holds a one-shot handler of the class
    among handlers of the application, [emit] invokes the application's
    handlers before it and removes the one-shot handler, but the handler
    registered right behind the one-shot handler does not get the event: the
    [splice] inside [forEach] moves it to the index that was just visited.
    The handlers further behind are invoked. *)
Theorem once_handler_hides_the_next (event : string) (args : Payload) (c : Client)
    (us1 us2 : list Handler) (w : nat) (cb : Callback) :
  handlersOf event c = us1 ++ Wrapper w cb :: us2 ->
  forallb is_user us1 = true ->
  forallb is_user us2 = true ->
  callback_event cb = Some event ->
  deliveries (trace (emit event args c)) =
    deliveries (trace c) ++
    map (fun n => (n, event, args)) (user_callbacks us1 ++ user_callbacks (tl us2)) /\
  handlersOf event (emit event args c) = us1 ++ us2.
Proof.
  intros Hh Hu1 Hu2 Hcb.
  destruct (emit_once event args c us1 w cb us2 Hh Hu1 Hu2 Hcb) as [E H2].
  split; [|exact H2]. rewrite E.
  set (c1 := observed (Emitted event args :: delivered_to event args us1) c).
  destruct (invoke_wrapper_grows c1 event w cb args c1 Hcb (grows_refl _ c1))
    as [l [El Fl]].
  cbn [invoke] in El. cbn [trace observed]. rewrite El. unfold c1.
  cbn [trace observed].
  rewrite !deliveries_app. cbn [deliveries].
  rewrite (not_delivered_deliveries _ Fl), !deliveries_delivered_to, app_nil_r.
  now rewrite <- app_assoc, map_app.
Qed.

(** *** Messages that are only announced *)

Lemma step_emit_users c event args :
  Inv serial c -> internal_event event = false ->
  run_reactions (emit event args c) =
  observed (Emitted event args :: delivered_to event args (handlersOf event c)) c.
Proof.
  intros HI He. rewrite emit_users by (eapply Inv_users; eauto).
  apply run_reactions_serial. apply (i_shape _ _ _ HI).
Qed.

(** X5. A [participantJoined] or [newProducer] message changes nothing in the
    session: no transport is created and nothing is sent.  It is emitted to
    the handlers of that event, which in every state the client can reach are
    all handlers of the application, each invoked once, in the order of
    registration.  An [error] message or a message of another type is
    ignored. *)
Theorem announcements_only_notify (pid0 : string) (inputs : list Input) :
  let c := run inputs (new_MediasoupClient pid0) in
  (forall pid,
     forallb is_user (handlersOf "participantJoined" c) = true /\
     step c (Socket_message (participantJoined pid)) =
     observed
       (Emitted "participantJoined" (ParticipantArgs pid)
        :: delivered_to "participantJoined" (ParticipantArgs pid)
             (handlersOf "participantJoined" c)) c) /\
  (forall info,
     forallb is_user (handlersOf "newProducer" c) = true /\
     step c (Socket_message (newProducer info)) =
     observed
       (Emitted "newProducer" (ProducerArgs info)
        :: delivered_to "newProducer" (ProducerArgs info)
             (handlersOf "newProducer" c)) c) /\
  (forall message, step c (Socket_message (error message)) = c) /\
  (forall type, step c (Socket_message (otherType type)) = c).
Proof.
  intros c.
  assert (HI : Inv serial c) by (apply run_Inv, new_Inv).
  clearbody c. split; [|split; [|split]].
  - intros pid. split; [eapply Inv_users; eauto|].
    unfold step. cbn [handle onmessage]. now apply step_emit_users.
  - intros info. split; [eapply Inv_users; eauto|].
    unfold step. cbn [handle onmessage]. destruct info.
    cbn [info_participantId info_producerId info_kind]. now apply step_emit_users.
  - intros message. unfold step. cbn [handle onmessage].
    apply run_reactions_serial, (i_shape _ _ _ HI).
  - intros type. unfold step. cbn [handle onmessage].
    apply run_reactions_serial, (i_shape _ _ _ HI).
Qed.

(** *** The replies a consume negotiation waits for *)

(** The link of the chain a closure of the consume flow will settle. *)
Definition callback_links (cb : Callback) : list nat :=
  match cb with
  | ConsumerTransportCreatedCb k _ => [k]
  | ConsumedCb k _ => [k]
  | _ => []
  end.

Definition handler_links (h : Handler) : list nat :=
  match h with
  | Plain cb => callback_links cb
  | Wrapper _ cb => callback_links cb
  end.

Definition links_of (handlers : list Handler) : list nat :=
  flat_map handler_links handlers.

(** The links that something can still settle: those of the one-shot handlers
    registered for [consumerTransportCreated] and for [consumed], and those of
    the pending [consumerTransport.consume] calls. *)
Definition awaited (c : Client) : list nat :=
  links_of (handlersOf "consumerTransportCreated" c) ++
  links_of (handlersOf "consumed" c) ++
  map (fun x => fst (fst x)) (consuming c).

Definition running_at (q : list Link) (k : nat) : bool :=
  match nth_error q k with
  | Some l => is_running l
  | None => false
  end.

(** At most one reply is awaited, and it is for the link that runs. *)
Record Win (q : list Link) (c : Client) : Prop := {
  w_one : List.length (awaited c) <= 1;
  w_running : forallb (running_at q) (awaited c) = true
}.

Lemma links_of_app l1 l2 : links_of (l1 ++ l2) = links_of l1 ++ links_of l2.
Proof. unfold links_of. apply flat_map_app. Qed.

Lemma consuming_send m c : consuming (send m c) = consuming c.
Proof. unfold send. now destruct (ws c). Qed.

Lemma consuming_on event h c : consuming (on event h c) = consuming c.
Proof. unfold on. now destruct (JsMap.has event (eventHandlers c)). Qed.

Lemma consuming_once event cb c : consuming (once event cb c) = consuming c.
Proof. unfold once. now rewrite consuming_on. Qed.

Lemma consuming_off event w c : consuming (off event w c) = consuming c.
Proof.
  unfold off. destruct (JsMap.get event (eventHandlers c)); auto.
  now destruct (indexOf w l).
Qed.

Lemma awaited_ext c c' :
  handlersOf "consumerTransportCreated" c' = handlersOf "consumerTransportCreated" c ->
  handlersOf "consumed" c' = handlersOf "consumed" c ->
  consuming c' = consuming c ->
  awaited c' = awaited c.
Proof. unfold awaited. now intros -> -> ->. Qed.

Lemma awaited_send m c : awaited (send m c) = awaited c.
Proof.
  apply awaited_ext; auto using handlersOf_send, consuming_send.
Qed.

Lemma awaited_observe o c : awaited (observe o c) = awaited c.
Proof. reflexivity. Qed.

Lemma awaited_observed os c : awaited (observed os c) = awaited c.
Proof. reflexivity. Qed.

Lemma awaited_settle k r c : awaited (settle k r c) = awaited c.
Proof. reflexivity. Qed.

Lemma awaited_close_all rs c : awaited (close_all rs c) = awaited c.
Proof. now rewrite close_all_observed. Qed.

Lemma links_of_on event e h c :
  handler_links h = [] ->
  links_of (handlersOf e (on event h c)) = links_of (handlersOf e c).
Proof.
  intros Hh. destruct (String.eqb_spec e event) as [->|Hne].
  - rewrite handlersOf_on_same, links_of_app. unfold links_of at 2. simpl.
    now rewrite Hh, !app_nil_r.
  - now rewrite handlersOf_on_other.
Qed.

Lemma awaited_on event h c : handler_links h = [] -> awaited (on event h c) = awaited c.
Proof.
  intros Hh. unfold awaited.
  now rewrite !links_of_on, consuming_on by exact Hh.
Qed.

Lemma awaited_once event cb c :
  callback_links cb = [] -> awaited (once event cb c) = awaited c.
Proof. intros Hh. unfold once. now rewrite awaited_on. Qed.

(** Taking a wrapper out of another array. *)
Lemma awaited_off_other event w c :
  event <> "consumerTransportCreated" -> event <> "consumed" ->
  awaited (off event w c) = awaited c.
Proof.
  intros H1 H2. apply awaited_ext; auto using consuming_off;
    apply handlersOf_off_other; congruence.
Qed.

Lemma running_at_app q l k : running_at q k = true -> running_at (q ++ [l]) k = true.
Proof.
  unfold running_at. destruct (nth_error q k) eqn:E; [|discriminate].
  rewrite nth_error_app1; [now rewrite E|].
  apply nth_error_Some. congruence.
Qed.

Lemma Win_nil q c : awaited c = [] -> Win q c.
Proof. intros E. constructor; rewrite E; simpl; auto. Qed.

Lemma Win_same q c c' : awaited c' = awaited c -> Win q c -> Win q c'.
Proof. intros E []. constructor; now rewrite E. Qed.

Lemma Win_append q l c : Win q c -> Win (q ++ [l]) c.
Proof.
  intros []. constructor; auto.
  rewrite forallb_forall in *. intros k Hk. apply running_at_app. auto.
Qed.

(** Exactly one reply is awaited as soon as one is. *)
Lemma one_awaited (a b d : list nat) k :
  List.length (a ++ b ++ d) <= 1 -> In k (a ++ b ++ d) -> a ++ b ++ d = [k].
Proof.
  intros Hl Hin. destruct (a ++ b ++ d) as [|x [|y l]]; simpl in *;
    try lia; try contradiction.
  destruct Hin as [->|[]]. reflexivity.
Qed.

Lemma app3_singleton (a b d : list nat) k :
  a ++ b ++ d = [k] ->
  (a = [k] /\ b = [] /\ d = []) \/ (a = [] /\ b = [k] /\ d = []) \/
  (a = [] /\ b = [] /\ d = [k]).
Proof.
  destruct a as [|x a]; simpl.
  - destruct b as [|y b]; simpl.
    + intros ->. auto.
    + intros E. inversion E. apply app_eq_nil in H1. destruct H1; subst. auto.
  - intros E. inversion E. apply app_eq_nil in H1. destruct H1 as [-> H1].
    apply app_eq_nil in H1. destruct H1; subst. auto.
Qed.

Lemma In_links_of h hs k : In h hs -> In k (handler_links h) -> In k (links_of hs).
Proof. intros H1 H2. unfold links_of. apply in_flat_map. eauto. Qed.

(** [indexOf] finds a wrapper when the array holds one with that number. *)
Lemma indexOf_In w hs h :
  In h hs -> is_wrapper w h = true ->
  exists i h', indexOf w hs = Some i /\ nth_error hs i = Some h' /\
               is_wrapper w h' = true.
Proof.
  induction hs as [|x hs IH]; intros Hin Hw; [contradiction|].
  simpl. destruct (is_wrapper w x) eqn:Ex.
  - exists 0, x. auto.
  - destruct Hin as [->|Hin]; [congruence|].
    destruct (IH Hin Hw) as [i [h' [E1 [E2 E3]]]].
    exists (S i), h'. rewrite E1. auto.
Qed.

Lemma links_of_splice1 hs i h :
  nth_error hs i = Some h ->
  List.length (links_of (splice1 i hs)) + List.length (handler_links h) =
  List.length (links_of hs).
Proof.
  revert i. induction hs as [|x hs IH]; intros [|i] H; simpl in H; try discriminate.
  - inversion H; subst. unfold splice1. simpl. unfold links_of. simpl.
    rewrite length_app. lia.
  - specialize (IH i H).
    change (splice1 (S i) (x :: hs)) with (x :: splice1 i hs).
    change (links_of (x :: splice1 i hs))
      with (handler_links x ++ links_of (splice1 i hs)).
    change (links_of (x :: hs)) with (handler_links x ++ links_of hs).
    rewrite !length_app. lia.
Qed.

(** In its own array a wrapper of the consume flow carries one link. *)
Lemma sorted_wrapper_link event w h :
  (event = "consumerTransportCreated" \/ event = "consumed") ->
  sorted_ok event h = true -> is_wrapper w h = true ->
  List.length (handler_links h) = 1.
Proof.
  intros He Hs Hw. destruct h as [cb|w' cb]; [discriminate|].
  simpl in Hs. destruct cb; simpl in Hs |- *; auto;
    destruct He as [-> | ->]; discriminate.
Qed.

(** After its invocation the wrapper that carried the awaited link is gone
    from its array, and the array carries no link. *)
Lemma own_array_cleared event c w cb k x :
  (event = "consumerTransportCreated" \/ event = "consumed") ->
  (forall e, forallb (sorted_ok e) (handlersOf e c) = true) ->
  In (Wrapper w cb) (handlersOf event c) ->
  callback_links cb = [k] ->
  List.length (links_of (handlersOf event c)) <= 1 ->
  handlersOf event x = handlersOf event c ->
  links_of (handlersOf event (off event w x)) = [].
Proof.
  intros He Hs Hin Hk Hl Hx.
  rewrite handlersOf_off_same, Hx.
  destruct (indexOf_In w (handlersOf event c) (Wrapper w cb) Hin)
    as [i [h' [E1 [E2 E3]]]]; [simpl; apply Nat.eqb_refl|].
  rewrite E1.
  pose proof (links_of_splice1 _ _ _ E2) as Hsp.
  assert (Hh' : List.length (handler_links h') = 1).
  { apply (sorted_wrapper_link event w); auto.
    specialize (Hs event). rewrite forallb_forall in Hs. apply Hs.
    eapply nth_error_In; eauto. }
  apply length_zero_iff_nil. lia.
Qed.

Lemma device_once event cb c : device (once event cb c) = device c.
Proof.
  destruct (session_once_self event cb c) as [_ [_ [H _]]]. exact H.
Qed.

(** An input does not add to what is awaited, and settles a link only if a
    reply for it was awaited. *)
Definition calm (c c' : Client) : Prop :=
  List.length (awaited c') <= List.length (awaited c) /\
  (awaited c = [] ->
   exists calls, consumeQueue c' = consumeQueue c ++ calls /\
                 forallb is_queued calls = true).

Lemma calm_refl c : calm c c.
Proof. unfold calm. split; auto. intros _. exists []. now rewrite app_nil_r. Qed.

Lemma calm_trans c1 c2 c3 : calm c1 c2 -> calm c2 c3 -> calm c1 c3.
Proof.
  unfold calm. intros [L1 Q1] [L2 Q2]. split; [lia|].
  intros E. destruct (Q1 E) as [e1 [E1 F1]].
  assert (E2 : awaited c2 = []).
  { rewrite E in L1. simpl in L1. apply length_zero_iff_nil. lia. }
  destruct (Q2 E2) as [e2 [E3 F2]].
  exists (e1 ++ e2). rewrite E3, E1, app_assoc, forallb_app, F1, F2. auto.
Qed.

Lemma calm_same c c' :
  awaited c' = awaited c -> consumeQueue c' = consumeQueue c -> calm c c'.
Proof.
  unfold calm. intros -> ->. split; auto. intros _. exists [].
  now rewrite app_nil_r.
Qed.

Lemma sorted_cases event h :
  sorted_ok event h = true ->
  (exists n, h = Plain (UserCallback n)) \/
  (exists w cb, h = Wrapper w cb /\ callback_event cb = Some event).
Proof.
  destruct h as [[]|w cb]; simpl; try discriminate; eauto.
  destruct (callback_event cb) as [e|] eqn:E; [|discriminate].
  intros H. apply String.eqb_eq in H. subst. eauto.
Qed.

(** The closures of the produce flow and of the connect handshakes. *)
Lemma callback_other event cb args c :
  callback_event cb = Some event -> callback_links cb = [] ->
  event <> "consumerTransportCreated" /\ event <> "consumed" /\
  awaited (call_callback event cb args c) = awaited c /\
  consumeQueue (call_callback event cb args c) = consumeQueue c.
Proof.
  intros He Hl. destruct cb; simpl in He, Hl; try discriminate;
    inversion He; subst; clear He;
    (split; [discriminate|split; [discriminate|]]);
    unfold_methods; cases; inv_eqs; split; reflexivity.
Qed.

(** The closure that waits for [consumerTransportCreated]. *)
Lemma callback_created k call args c :
  let x := call_callback "consumerTransportCreated"
             (ConsumerTransportCreatedCb k call) args c in
  consuming x = consuming c /\ consumeQueue x = consumeQueue c /\
  (links_of (handlersOf "consumed" x) = links_of (handlersOf "consumed" c) \/
   links_of (handlersOf "consumed" x) = links_of (handlersOf "consumed" c) ++ [k]).
Proof.
  cbv zeta. unfold call_callback. destruct args; auto.
  unfold setupConsumerTransport. destruct (device c) as [d|] eqn:Ed; auto.
  destruct (createRecvTransport data) as [t|]; auto.
  unfold _consumeTrack_negotiate. rewrite device_once.
  change (device (with_consumerTransports _ c)) with (device c). rewrite Ed.
  cbv iota beta. unfold settle_if.
  rewrite consuming_send, consuming_once, queue_send, queue_once,
    handlersOf_send, handlersOf_once_same, links_of_app.
  repeat split. now right.
Qed.

(** The closure that waits for [consumed]. *)
Lemma callback_consumed k t args c :
  let x := call_callback "consumed" (ConsumedCb k t) args c in
  handlersOf "consumerTransportCreated" x = handlersOf "consumerTransportCreated" c /\
  handlersOf "consumed" x = handlersOf "consumed" c /\
  ((exists d, consuming x = consuming c ++ [(k, t, d)] /\
              consumeQueue x = consumeQueue c) \/
   (consuming x = consuming c /\
    consumeQueue x = settle_link k (Fulfilled None) (consumeQueue c))).
Proof.
  cbv zeta. unfold call_callback.
  destruct args; (split; [reflexivity|split; [reflexivity|]]);
    first [ left; eexists; split; reflexivity | right; split; reflexivity ].
Qed.

Lemma awaited_parts c k :
  List.length (awaited c) <= 1 -> In k (awaited c) ->
  (links_of (handlersOf "consumerTransportCreated" c) = [k] /\
   links_of (handlersOf "consumed" c) = [] /\ consuming c = []) \/
  (links_of (handlersOf "consumerTransportCreated" c) = [] /\
   links_of (handlersOf "consumed" c) = [k] /\ consuming c = []) \/
  (links_of (handlersOf "consumerTransportCreated" c) = [] /\
   links_of (handlersOf "consumed" c) = [] /\
   map (fun x => fst (fst x)) (consuming c) = [k]).
Proof.
  intros Hl Hin. pose proof (one_awaited _ _ _ k Hl Hin) as E.
  destruct (app3_singleton _ _ _ _ E) as [[A [B D]]|[[A [B D]]|[A [B D]]]]; auto.
  - left. repeat split; auto. now apply map_eq_nil in D.
  - right. left. repeat split; auto. now apply map_eq_nil in D.
Qed.

Lemma running_awaited q c k :
  Win q c -> In k (awaited c) -> running_at q k = true.
Proof.
  intros [_ H] Hin. rewrite forallb_forall in H. auto.
Qed.

Lemma Win_one q c k : awaited c = [k] -> running_at q k = true -> Win q c.
Proof. intros E H. constructor; rewrite E; simpl; auto. now rewrite H. Qed.

(** The invocation of a handler that is in the array. *)
Lemma invoke_Win event h args c :
  Inv serial_pre c -> Win (consumeQueue c) c -> In h (handlersOf event c) ->
  Win (consumeQueue (invoke event h args c)) (invoke event h args c) /\
  calm c (invoke event h args c).
Proof.
  intros HI HW Hin.
  pose proof (i_sorted _ _ _ HI) as Hs.
  assert (Hh : sorted_ok event h = true).
  { specialize (Hs event). rewrite forallb_forall in Hs. auto. }
  destruct (sorted_cases event h Hh) as [[n ->]|[w [cb [-> Hcb]]]].
  - (* a callback of the application *)
    split; [|apply calm_same; reflexivity].
    eapply Win_same; [|exact HW]. reflexivity.
  - cbn [invoke].
    destruct (callback_links cb) as [|k [|k' l]] eqn:Hl.
    + (* a closure outside the consume flow *)
      destruct (callback_other event cb args c Hcb Hl) as [N1 [N2 [EA EQ]]].
      assert (EA' : awaited (off event w (call_callback event cb args c)) = awaited c)
        by (rewrite awaited_off_other; auto).
      assert (EQ' : consumeQueue (off event w (call_callback event cb args c)) =
                    consumeQueue c) by (rewrite queue_off; auto).
      split; [|now apply calm_same].
      rewrite EQ'. eapply Win_same; eauto.
    + (* a closure of the consume flow, for link [k] *)
      assert (Hk : In k (awaited c)).
      { assert (In k (links_of (handlersOf event c)))
          by (eapply In_links_of; eauto; simpl; rewrite Hl; now left).
        unfold awaited.
        destruct cb; simpl in Hcb, Hl; try discriminate; inversion Hcb; subst;
          auto using in_or_app. }
      pose proof (running_awaited _ _ _ HW Hk) as Hrun.
      pose proof (w_one _ _ HW) as Hone.
      assert (Hnn : awaited c <> []) by (intros E; rewrite E in Hk; contradiction).
      assert (Hcalm : forall x, List.length (awaited x) <= 1 -> calm c x).
      { intros x Hx. split; [|intros E; contradiction].
        destruct (awaited c); [contradiction | simpl; lia]. }
      destruct cb; simpl in Hcb, Hl; try discriminate; inversion Hcb; inversion Hl;
        subst; clear Hcb Hl.
      * (* consumerTransportCreated *)
        set (x := call_callback "consumerTransportCreated"
                    (ConsumerTransportCreatedCb k call) args c).
        destruct (callback_created k call args c) as [Ec [Eq Eh]]. fold x in Ec, Eq, Eh.
        assert (Hown : links_of (handlersOf "consumerTransportCreated"
                                   (off "consumerTransportCreated" w x)) = []).
        { eapply own_array_cleared with (k := k); eauto.
          - unfold awaited in Hone. rewrite length_app in Hone. lia.
          - apply call_callback_handlers. reflexivity. }
        destruct (awaited_parts c k Hone Hk) as [[A [B D]]|[[A [B D]]|[A [B D]]]].
        2,3: exfalso;
          assert (In k (links_of (handlersOf "consumerTransportCreated" c)))
            by (eapply In_links_of; eauto; simpl; now left);
          rewrite A in *; contradiction.
        assert (EA : awaited (off "consumerTransportCreated" w x) =
                     links_of (handlersOf "consumed" x)).
        { unfold awaited. rewrite Hown, consuming_off, Ec, D.
          rewrite handlersOf_off_other by discriminate. simpl. apply app_nil_r. }
        rewrite queue_off, Eq. rewrite B in Eh. simpl in Eh.
        destruct Eh as [Eh|Eh]; rewrite Eh in EA.
        -- split; [now apply Win_nil | apply Hcalm; rewrite EA; simpl; lia].
        -- split; [now apply (Win_one _ _ k) | apply Hcalm; rewrite EA; simpl; lia].
      * (* consumed *)
        set (x := call_callback "consumed" (ConsumedCb k consumerTransport) args c).
        destruct (callback_consumed k consumerTransport args c) as [E1 [E2 Ex]].
        fold x in E1, E2, Ex.
        assert (Hown : links_of (handlersOf "consumed" (off "consumed" w x)) = []).
        { eapply own_array_cleared with (k := k); eauto.
          unfold awaited in Hone. rewrite !length_app in Hone. lia. }
        destruct (awaited_parts c k Hone Hk) as [[A [B D]]|[[A [B D]]|[A [B D]]]].
        1,3: exfalso;
          assert (In k (links_of (handlersOf "consumed" c)))
            by (eapply In_links_of; eauto; simpl; now left);
          rewrite B in *; contradiction.
        assert (EA : awaited (off "consumed" w x) =
                     map (fun y => fst (fst y)) (consuming x)).
        { unfold awaited. rewrite Hown, consuming_off.
          rewrite handlersOf_off_other, E1, A by discriminate. reflexivity. }
        rewrite queue_off.
        destruct Ex as [[d [Ec Eq]]|[Ec Eq]]; rewrite Ec, D in EA; rewrite Eq.
        -- simpl in EA.
           split; [now apply (Win_one _ _ k) | apply Hcalm; rewrite EA; simpl; lia].
        -- simpl in EA.
           split; [now apply Win_nil | apply Hcalm; rewrite EA; simpl; lia].
    + (* no closure carries two links *)
      destruct cb; discriminate.
Qed.

(** The window after an operation, and what the operation did to it. *)
Definition WC (c c' : Client) : Prop :=
  Win (consumeQueue c') c' /\ calm c c'.

Lemma WC_refl c : Win (consumeQueue c) c -> WC c c.
Proof. intros H. split; auto using calm_refl. Qed.

Lemma WC_frame c x c' :
  WC c x -> awaited c' = awaited x -> consumeQueue c' = consumeQueue x -> WC c c'.
Proof.
  intros [HW HC] EA EQ. split.
  - rewrite EQ. eapply Win_same; eauto.
  - eapply calm_trans; [exact HC|]. now apply calm_same.
Qed.

Lemma WC_trans c1 c2 c3 : WC c1 c2 -> WC c2 c3 -> WC c1 c3.
Proof. intros [_ C1] [W2 C2]. split; auto. eapply calm_trans; eauto. Qed.

Lemma emit_WC event args c :
  Inv serial_pre c -> Win (consumeQueue c) c -> WC c (emit event args c).
Proof.
  intros HI HW.
  assert (H : Inv serial_pre (emit event args c) /\ WC c (emit event args c)).
  { apply emit_ind with (P := fun c' => Inv serial_pre c' /\ WC c c').
    - split.
      + unfold Inv in *. queue. auto with inv.
      + eapply WC_frame; [apply WC_refl; exact HW | reflexivity | reflexivity].
    - intros h c' [HI' [HW' HC']] Hin. split; [now apply invoke_Inv|].
      destruct (invoke_Win event h args c' HI' HW' Hin) as [W2 C2].
      split; auto. eapply calm_trans; eauto. }
  apply H.
Qed.

Lemma flush_WC (l : list ProducerInfo) (c : Client) :
  Inv serial_pre c -> Win (consumeQueue c) c ->
  WC c
    (fold_left
       (fun c' producer =>
          emit "newProducer"
            (ProducerArgs
               {| info_participantId := info_participantId producer;
                  info_producerId := info_producerId producer;
                  info_kind := info_kind producer |}) c') l c).
Proof.
  revert c. induction l as [|p l IH]; intros c HI HW; simpl.
  - now apply WC_refl.
  - eapply WC_trans; [apply emit_WC; auto|].
    apply IH; [now apply emit_Inv | apply emit_WC; auto].
Qed.

Lemma handleRtpCapabilities_resume_WC c :
  Inv serial_pre c -> Win (consumeQueue c) c ->
  WC c (handleRtpCapabilities_resume c).
Proof.
  intros HI HW. unfold handleRtpCapabilities_resume.
  destruct (pendingExistingProducers c) eqn:E; [now apply WC_refl|].
  set (y := with_pendingExistingProducers [] c).
  assert (Hy : WC c y)
    by (eapply WC_frame; [apply WC_refl; exact HW | reflexivity | reflexivity]).
  eapply WC_trans; [exact Hy|].
  apply flush_WC.
  - unfold y, Inv in *. cbn [consumeQueue with_pendingExistingProducers].
    auto with inv.
  - apply Hy.
Qed.

Lemma awaited_disconnect c : awaited (disconnect c) = awaited c.
Proof.
  apply awaited_ext; destruct (disconnect_spec c)
    as [_ [_ [_ [_ [_ [_ [_ [_ He]]]]]]]]; unfold handlersOf; try now rewrite He.
  unfold disconnect, ws_close. cbv zeta.
  rewrite !close_all_observed.
  destruct (producerTransport _); destruct (ws _); reflexivity.
Qed.

(** What is awaited after a primitive that does not touch the consume flow. *)
Ltac awaited_frame :=
  repeat first
    [ rewrite awaited_send
    | rewrite awaited_close_all
    | rewrite awaited_once by reflexivity
    | rewrite awaited_on by reflexivity
    | match goal with
      | |- context [awaited (?f ?x ?y)] =>
          progress change (awaited (f x y)) with (awaited y)
      end ];
  try reflexivity.

Lemma remove_nth_single {A} (l : list A) i x (f : A -> nat) k :
  nth_error l i = Some x -> map f l = [k] -> remove_nth i l = [].
Proof.
  destruct l as [|y [|z l]]; simpl; try discriminate.
  destruct i as [|[|i]]; simpl; auto; discriminate.
Qed.

Lemma consume_settled_WC i r c :
  Inv serial_pre c -> Win (consumeQueue c) c -> WC c (consume_settled i r c).
Proof.
  intros HI HW. unfold consume_settled.
  destruct (nth_error (consuming c) i) as [[[k t] d]|] eqn:En; [|now apply WC_refl].
  assert (Hk : In k (awaited c)).
  { unfold awaited. apply in_or_app. right. apply in_or_app. right.
    apply in_map_iff. exists (k, t, d). split; auto. eapply nth_error_In; eauto. }
  pose proof (w_one _ _ HW) as Hone.
  destruct (awaited_parts c k Hone Hk) as [[A [B D]]|[[A [B D]]|[A [B D]]]];
    try (rewrite D in En; destruct i; discriminate).
  assert (Hrm : remove_nth i (consuming c) = [])
    by (eapply remove_nth_single; eauto).
  assert (Hnn : awaited c <> []) by (intros E; rewrite E in Hk; contradiction).
  assert (HA : forall x,
             handlersOf "consumerTransportCreated" x =
               handlersOf "consumerTransportCreated" c ->
             handlersOf "consumed" x = handlersOf "consumed" c ->
             consuming x = [] -> awaited x = []).
  { intros x E1 E2 E3. unfold awaited. now rewrite E1, E2, E3, A, B. }
  destruct r as [consumer|]; cbv zeta.
  - split; [apply Win_nil; apply HA; auto|].
    split; [|intros E; contradiction]. rewrite HA; auto. simpl. lia.
  - split; [apply Win_nil; apply HA; auto|].
    split; [|intros E; contradiction]. rewrite HA; auto. simpl. lia.
Qed.

Lemma handle_WC i c :
  Inv serial_pre c -> Win (consumeQueue c) c -> WC c (handle i c).
Proof.
  intros HI HW. pose proof (WC_refl c HW) as H0.
  destruct i; cbn [handle].
  - (* connect *)
    unfold connect, joinRoom. destruct (ws c);
      (eapply WC_frame; [exact H0 | awaited_frame | queue; reflexivity]).
  - (* on *)
    eapply WC_frame; [exact H0 | awaited_frame | queue; reflexivity].
  - (* produceTrack *)
    unfold_methods; cases;
      (eapply WC_frame; [exact H0 | awaited_frame | queue; reflexivity]).
  - (* consumeTrack *)
    unfold consumeTrack. split.
    + cbn [consumeQueue with_consumeQueue]. apply Win_append.
      eapply Win_same; [|exact HW]. reflexivity.
    + split; [apply Nat.le_refl|]. intros _.
      exists [{| link_call := {| producerParticipantId := producerParticipantId0;
                                 producerId := producerId0 |};
                 link_state := Queued |}]. auto.
  - (* disconnect *)
    eapply WC_frame; [exact H0 | apply awaited_disconnect |].
    destruct (disconnect_spec c) as [_ [_ [_ [_ [_ [_ [Hq _]]]]]]]. exact Hq.
  - (* the socket opens *)
    unfold joinRoom. cases;
      (eapply WC_frame; [exact H0 | awaited_frame | queue; reflexivity]).
  - (* the socket closes *)
    eapply WC_frame; [exact H0 | awaited_frame | queue; reflexivity].
  - (* a message *)
    destruct data; cbn [onmessage]; try apply emit_WC; auto.
    + destruct existingProducers as [[|p l]|]; try apply emit_WC; auto.
      eapply WC_frame; [apply emit_WC; auto | reflexivity | reflexivity].
    + unfold handleRtpCapabilities.
      eapply WC_frame; [exact H0 | awaited_frame | queue; reflexivity].
    + unfold handleParticipantLeft.
      destruct (JsMap.get pid (consumerTransports c)); [|now apply emit_WC].
      cbv zeta.
      set (x := with_consumerTransports _ _).
      assert (Hx : WC c x)
        by (eapply WC_frame; [exact H0 | reflexivity | reflexivity]).
      eapply WC_trans; [exact Hx|]. apply emit_WC; [|apply Hx].
      unfold x, Inv in *. queue. auto with inv.
  - (* the load settles *)
    unfold load_settled. destruct (existsb (Nat.eqb d) (loading c)); auto.
    destruct ok.
    + set (x := with_loaded _ _).
      assert (Hx : WC c x)
        by (eapply WC_frame; [exact H0 | reflexivity | reflexivity]).
      eapply WC_trans; [exact Hx|].
      apply handleRtpCapabilities_resume_WC; [|apply Hx].
      unfold x, Inv in *. queue. auto with inv.
    + eapply WC_frame; [exact H0 | reflexivity | reflexivity].
  - (* a transport asks to connect *)
    unfold on_transport_connect. destruct dir;
      (eapply WC_frame; [exact H0 | awaited_frame | queue; reflexivity]).
  - (* the transport asks to produce *)
    unfold on_transport_produce.
    eapply WC_frame; [exact H0 | awaited_frame | queue; reflexivity].
  - (* produce settles *)
    unfold produce_settled. cases;
      (eapply WC_frame; [exact H0 | awaited_frame | queue; reflexivity]).
  - (* consume settles *)
    now apply consume_settled_WC.
Qed.

Lemma no_running_awaited q c :
  Win q c -> existsb is_running q = false -> awaited c = [].
Proof.
  intros [_ H] Hn. destruct (awaited c) as [|k l]; auto.
  simpl in H. apply andb_true_iff in H. destruct H as [H _].
  unfold running_at in H. destruct (nth_error q k) as [x|] eqn:E; [|discriminate].
  assert (existsb is_running q = true)
    by (apply existsb_exists; exists x; split; auto; eapply nth_error_In; eauto).
  congruence.
Qed.

Lemma awaited_nil_parts c :
  awaited c = [] ->
  links_of (handlersOf "consumerTransportCreated" c) = [] /\
  links_of (handlersOf "consumed" c) = [] /\
  map (fun x => fst (fst x)) (consuming c) = [].
Proof.
  unfold awaited. intros E. apply app_eq_nil in E. destruct E as [A E].
  apply app_eq_nil in E. tauto.
Qed.

(** What is awaited once [_consumeTrack] has started, on a client that
    awaited nothing. *)
Lemma _consumeTrack_awaited k call c c1 s :
  awaited c = [] ->
  _consumeTrack k call c = (c1, s) ->
  consumeQueue c1 = consumeQueue c /\
  awaited c1 = match s with None => [k] | Some _ => [] end.
Proof.
  intros E. destruct (awaited_nil_parts c E) as [A [B D]].
  unfold _consumeTrack. destruct (device c) as [d|] eqn:Ed.
  - destruct (JsMap.get (producerParticipantId call) (consumerTransports c)) as [t|].
    + unfold _consumeTrack_negotiate. rewrite device_once, Ed.
      intros H. inversion H; subst; clear H. split; [queue; reflexivity|].
      rewrite awaited_send. unfold awaited.
      rewrite handlersOf_once_same, handlersOf_once_other, consuming_once,
        links_of_app, A, B, D by discriminate.
      reflexivity.
    + unfold createConsumerTransport.
      intros H. inversion H; subst; clear H. split; [queue; reflexivity|].
      rewrite awaited_send. unfold awaited.
      rewrite handlersOf_once_same, handlersOf_once_other, consuming_once,
        links_of_app, A, B, D by discriminate.
      reflexivity.
  - intros H. inversion H; subst; clear H. auto.
Qed.

Lemma running_at_middle done l rest :
  is_running l = true -> running_at (done ++ l :: rest) (List.length done) = true.
Proof.
  intros H. unfold running_at.
  now rewrite nth_error_app2, Nat.sub_diag by lia.
Qed.

Lemma react_Win q : forall done v c,
  forallb fulfilled done = true ->
  Inv0 serial_pre (done ++ q) c ->
  Win (done ++ q) c ->
  Win (done ++ fst (react (Some (Fulfilled v)) (List.length done) q c))
    (snd (react (Some (Fulfilled v)) (List.length done) q c)).
Proof.
  induction q as [|l q IH]; intros done v c Hd H HW.
  - exact HW.
  - pose proof (i_shape _ _ _ H) as Hs.
    rewrite serial_pre_prefix in Hs by auto. simpl in Hs.
    simpl. destruct (link_state l) as [| |r] eqn:El.
    + (* queued: its reaction runs *)
      assert (Hl : is_queued l = true) by (unfold is_queued; now rewrite El).
      assert (Hf : fulfilled l = false) by (unfold fulfilled; now rewrite El).
      rewrite Hf, Hl in Hs. rewrite orb_true_r in Hs. simpl in Hs.
      assert (Hnr : existsb is_running (done ++ l :: q) = false).
      { rewrite existsb_app. simpl.
        rewrite (running_fulfilled _ Hd), (running_queued _ Hs).
        unfold is_running. now rewrite El. }
      pose proof (no_running_awaited _ _ HW Hnr) as HA.
      destruct (_consumeTrack (List.length done) (link_call l)
                  (observe (Started (List.length done)) c)) as [c1 s] eqn:Es.
      assert (H1 : Inv0 serial_pre
                     (done ++ {| link_call := link_call l;
                                 link_state := started_state s |} :: q) c1).
      { pose proof (_consumeTrack_Inv0 serial_pre
                      (done ++ {| link_call := link_call l;
                                  link_state := started_state s |} :: q)
                      (List.length done) (link_call l)
                      (observe (Started (List.length done)) c)) as HI.
        rewrite Es in HI. apply HI. apply Inv0_started; auto.
        intros ->. apply _consumeTrack_running in Es. exact Es. }
      destruct (_consumeTrack_awaited _ _ (observe (Started (List.length done)) c)
                  _ _ HA Es) as [_ HA1].
      destruct s as [r0|].
      * destruct (catch_null_fulfilled r0) as [v' Ev]. simpl in H1.
        rewrite Ev in *.
        set (l' := {| link_call := link_call l; link_state := Settled (Fulfilled v') |}) in *.
        assert (Hd' : forallb fulfilled (done ++ [l']) = true)
          by (rewrite forallb_app, Hd; reflexivity).
        assert (Hlen' : S (List.length done) = List.length (done ++ [l']))
          by (rewrite length_app; simpl; lia).
        specialize (IH (done ++ [l']) v' c1 Hd').
        rewrite app_cons_assoc in IH. specialize (IH H1 (Win_nil _ _ HA1)).
        rewrite <- Hlen' in IH.
        destruct (react (Some (Fulfilled v')) (S (List.length done)) q c1) as [q' c'].
        simpl in *. now rewrite app_cons_assoc in IH.
      * rewrite (react_queued _ _ _ Hs). simpl.
        apply (Win_one _ _ (List.length done)); auto.
        now apply running_at_middle.
    + (* running: nothing behind it is ready *)
      assert (Hf : fulfilled l = false) by (unfold fulfilled; now rewrite El).
      rewrite Hf in Hs. apply andb_true_iff in Hs. destruct Hs as [_ Hs].
      rewrite (react_queued _ _ _ Hs). exact HW.
    + (* settled *)
      destruct r as [v'|m].
      * assert (Hf : fulfilled l = true) by (unfold fulfilled; now rewrite El).
        specialize (IH (done ++ [l]) v' c).
        assert (Hd' : forallb fulfilled (done ++ [l]) = true)
          by (rewrite forallb_app, Hd; simpl; now rewrite Hf).
        rewrite app_cons_assoc in IH. specialize (IH Hd' H HW).
        replace (List.length (done ++ [l])) with (S (List.length done)) in IH
          by (rewrite length_app; simpl; lia).
        destruct (react (Some (Fulfilled v')) (S (List.length done)) q c) as [q' c'].
        simpl in *. now rewrite app_cons_assoc in IH.
      * exfalso. unfold fulfilled, is_running, is_queued in Hs.
        rewrite El in Hs. discriminate.
Qed.

Lemma run_reactions_Win c :
  Inv serial_pre c -> Win (consumeQueue c) c ->
  Win (consumeQueue (run_reactions c)) (run_reactions c).
Proof.
  unfold Inv, run_reactions. intros H HW.
  pose proof (react_Win (consumeQueue c) [] None c eq_refl H HW) as R.
  simpl in R.
  destruct (react (Some (Fulfilled None)) 0 (consumeQueue c) c) as [q c'].
  simpl in *. eapply Win_same; [|exact R]. reflexivity.
Qed.

Lemma step_Win c i :
  Inv serial c -> Win (consumeQueue c) c ->
  Win (consumeQueue (step c i)) (step c i).
Proof.
  intros HI HW. unfold step. apply run_reactions_Win.
  - apply handle_Inv, Inv_pre, HI.
  - apply handle_WC; auto using Inv_pre.
Qed.

Lemma run_Win inputs : forall c,
  Inv serial c -> Win (consumeQueue c) c ->
  Win (consumeQueue (run inputs c)) (run inputs c).
Proof.
  induction inputs as [|i inputs IH]; intros c HI HW; simpl; auto.
  apply IH; [apply step_Inv, HI | now apply step_Win].
Qed.

Lemma new_Win pid : Win (consumeQueue (new_MediasoupClient pid)) (new_MediasoupClient pid).
Proof. apply Win_nil. reflexivity. Qed.

(** A client between two inputs that has no call running awaits no reply: the
    arrays of [consumerTransportCreated] and [consumed] hold handlers of the
    application only. *)
Lemma idle_users c event :
  Inv serial c -> Win (consumeQueue c) c -> outstanding c = 0 ->
  event = "consumerTransportCreated" \/ event = "consumed" ->
  forallb is_user (handlersOf event c) = true.
Proof.
  intros HI HW Ho He.
  assert (Hnr : existsb is_running (consumeQueue c) = false).
  { apply running_fulfilled. now apply outstanding_idle. }
  destruct (awaited_nil_parts c (no_running_awaited _ _ HW Hnr)) as [A [B _]].
  assert (HL : links_of (handlersOf event c) = [])
    by (destruct He as [-> | ->]; assumption).
  pose proof (i_sorted _ _ _ HI event) as Hs.
  rewrite forallb_forall in *. intros h Hin. specialize (Hs h Hin).
  destruct (sorted_cases event h Hs) as [[n ->]|[w [cb [-> Hcb]]]]; auto.
  exfalso.
  assert (Hh : handler_links (Wrapper w cb) <> []).
  { destruct cb; simpl in Hcb |- *; try discriminate;
      destruct He as [-> | ->]; discriminate. }
  destruct (handler_links (Wrapper w cb)) as [|k l] eqn:Ek; [congruence|].
  assert (In k (links_of (handlersOf event c)))
    by (eapply In_links_of; eauto; rewrite Ek; now left).
  rewrite HL in *. contradiction.
Qed.

(** X6. In every state the client can reach, at most one reply of a consume
    negotiation is awaited: counting the one-shot handlers registered for
    [consumerTransportCreated] and for [consumed] and the pending
    [consumerTransport.consume] calls, there is at most one, it belongs to
    the call that is running, and there is none while no call runs.  So a
    [consumerTransportCreated] or [consumed] message is never handed to the
    handler of another call. *)
Theorem one_reply_awaited (pid0 : string) (inputs : list Input) :
  let c := run inputs (new_MediasoupClient pid0) in
  List.length (awaited c) <= 1 /\
  (forall k, In k (awaited c) ->
     exists l, nth_error (consumeQueue c) k = Some l /\ is_running l = true) /\
  (outstanding c = 0 -> awaited c = []).
Proof.
  intros c.
  assert (HI : Inv serial c) by (apply run_Inv, new_Inv).
  assert (HW : Win (consumeQueue c) c) by (apply run_Win; [apply new_Inv | apply new_Win]).
  clearbody c. split; [apply (w_one _ _ HW)|]. split.
  - intros k Hk. pose proof (running_awaited _ _ _ HW Hk) as Hr.
    unfold running_at in Hr. destruct (nth_error (consumeQueue c) k); eauto.
    discriminate.
  - intros Ho. apply (no_running_awaited _ _ HW).
    apply running_fulfilled. now apply outstanding_idle.
Qed.

(** *** A negotiation that nothing can settle *)

(** A call runs and no reply for it is awaited. *)
Definition stalled (c : Client) : Prop :=
  Inv serial c /\ Win (consumeQueue c) c /\ awaited c = [] /\
  existsb is_running (consumeQueue c) = true.

Lemma serial_app_queued q calls :
  serial q = true -> existsb is_running q = true ->
  forallb is_queued calls = true -> serial (q ++ calls) = true.
Proof.
  induction q as [|l q IH]; simpl; [discriminate|].
  destruct (fulfilled l) eqn:Ef.
  - rewrite (fulfilled_not_running _ Ef). simpl. auto.
  - intros H _ Hc. apply andb_true_iff in H. destruct H as [H1 H2].
    now rewrite H1, forallb_app, H2, Hc.
Qed.

Lemma stalled_step c i :
  stalled c ->
  stalled (step c i) /\
  exists calls, consumeQueue (step c i) = consumeQueue c ++ calls /\
                forallb is_queued calls = true.
Proof.
  intros [HI [HW [HA Hr]]].
  pose proof (handle_Inv i c (Inv_pre c HI)) as HI'.
  destruct (handle_WC i c (Inv_pre c HI) HW) as [HW' [HL HQ]].
  destruct (HQ HA) as [calls [EQ FQ]].
  assert (HA' : awaited (handle i c) = []).
  { rewrite HA in HL. simpl in HL. apply length_zero_iff_nil. lia. }
  assert (Hs : serial (consumeQueue (handle i c)) = true).
  { rewrite EQ. apply serial_app_queued; auto. apply (i_shape _ _ _ HI). }
  assert (E : step c i = handle i c) by (apply run_reactions_serial; exact Hs).
  rewrite E. split; [|eauto].
  split; [|split; [|split]]; auto.
  - unfold Inv in *. eapply Inv0_shape; [exact Hs | exact HI'].
  - rewrite EQ, existsb_app, Hr. reflexivity.
Qed.

Lemma stalled_run inputs : forall c,
  stalled c ->
  stalled (run inputs c) /\
  exists calls, consumeQueue (run inputs c) = consumeQueue c ++ calls /\
                forallb is_queued calls = true.
Proof.
  induction inputs as [|i inputs IH]; intros c H; simpl.
  - split; auto. exists []. now rewrite app_nil_r.
  - destruct (stalled_step c i H) as [H1 [calls1 [E1 F1]]].
    destruct (IH _ H1) as [H2 [calls2 [E2 F2]]].
    split; auto. exists (calls1 ++ calls2).
    now rewrite E2, E1, app_assoc, forallb_app, F1, F2.
Qed.

(** Behind the link that runs no call has a result. *)
Lemma serial_no_result q k l j :
  serial q = true -> nth_error q k = Some l -> is_running l = true -> k <= j ->
  match nth_error q j with
  | Some {| link_state := Settled r |} => Some r
  | _ => None
  end = None.
Proof.
  intros Hs Hk Hl Hj.
  destruct (serial_around q k l Hs Hk Hl) as [_ After].
  destruct (nth_error q j) as [[call st]|] eqn:Ej; auto.
  destruct (Nat.eq_dec j k) as [->|Hne].
  - rewrite Hk in Ej. inversion Ej; subst. destruct st; try discriminate; auto.
  - assert (Hq : is_queued {| link_call := call; link_state := st |} = true)
      by (apply (After j); auto; lia).
    destruct st; try discriminate; auto.
Qed.

Lemma started_count_app_queued q calls :
  forallb is_queued calls = true -> started_count (q ++ calls) = started_count q.
Proof.
  intros H. rewrite started_count_app, (started_count_queued _ H). lia.
Qed.

(** The array of an event of the consume flow, around its one wrapper. *)
Lemma wrapper_alone c event k :
  Inv serial c -> Win (consumeQueue c) c ->
  event = "consumerTransportCreated" \/ event = "consumed" ->
  In k (links_of (handlersOf event c)) ->
  exists us1 w cb us2,
    handlersOf event c = us1 ++ Wrapper w cb :: us2 /\
    forallb is_user us1 = true /\ forallb is_user us2 = true /\
    callback_event cb = Some event /\ callback_links cb = [k] /\
    awaited c = [k].
Proof.
  intros HI HW He Hin.
  assert (Hk : In k (awaited c)).
  { unfold awaited. destruct He as [-> | ->]; auto using in_or_app. }
  pose proof (one_awaited _ _ _ k (w_one _ _ HW) Hk) as HA. fold (awaited c) in HA.
  assert (HL : links_of (handlersOf event c) = [k]).
  { destruct (awaited_parts c k (w_one _ _ HW) Hk) as [[A [B D]]|[[A [B D]]|[A [B D]]]];
      destruct He as [-> | ->]; auto; rewrite ?A, ?B in Hin; contradiction. }
  unfold links_of in Hin. apply in_flat_map in Hin. destruct Hin as [h [Hh Hkh]].
  destruct (in_split _ _ Hh) as [us1 [us2 Es]].
  pose proof (i_sorted _ _ _ HI event) as Hs. rewrite Es in Hs, HL.
  rewrite forallb_app in Hs. apply andb_true_iff in Hs. destruct Hs as [S1 S2].
  simpl in S2. apply andb_true_iff in S2. destruct S2 as [Sh S2].
  rewrite links_of_app in HL.
  change (links_of (h :: us2)) with (handler_links h ++ links_of us2) in HL.
  assert (Hparts : links_of us1 = [] /\ handler_links h = [k] /\ links_of us2 = []).
  { destruct (handler_links h) as [|x lh] eqn:Eh; [contradiction|].
    destruct (links_of us1); [|destruct l; discriminate].
    simpl in HL. inversion HL. apply app_eq_nil in H1. destruct H1 as [-> H1].
    subst. auto. }
  destruct Hparts as [L1 [Lh L2]].
  assert (Husers : forall us, forallb (sorted_ok event) us = true ->
                     links_of us = [] -> forallb is_user us = true).
  { intros us Hso Hli. rewrite forallb_forall in *. intros x Hx.
    destruct (sorted_cases event x (Hso x Hx)) as [[n ->]|[w [cb [-> Hcb]]]]; auto.
    exfalso.
    assert (Hne : handler_links (Wrapper w cb) <> []).
    { destruct cb; simpl in Hcb |- *; try discriminate;
        destruct He as [-> | ->]; discriminate. }
    destruct (handler_links (Wrapper w cb)) as [|y ly] eqn:Ey; [congruence|].
    assert (In y (links_of us))
      by (eapply In_links_of; eauto; rewrite Ey; now left).
    rewrite Hli in *. contradiction. }
  destruct (sorted_cases event h Sh) as [[n ->]|[w [cb [-> Hcb]]]]; [discriminate|].
  exists us1, w, cb, us2. repeat split; auto.
Qed.

Lemma users_no_links us : forallb is_user us = true -> links_of us = [].
Proof.
  induction us as [|h us IH]; simpl; auto.
  intros H. apply andb_true_iff in H. destruct H as [Hh Hu].
  destruct h as [[]|]; simpl in Hh; try discriminate.
  change (links_of (Plain (UserCallback n) :: us)) with (links_of us). auto.
Qed.

(** The reply [consumerTransportCreated] for which the engine refuses to make
    a transport leaves the call that waited for it running, with no handler
    and no pending operation that could settle it. *)
Lemma refused_transport_stalls c k data :
  Inv serial c -> Win (consumeQueue c) c ->
  In k (links_of (handlersOf "consumerTransportCreated" c)) ->
  createRecvTransport data = None ->
  stalled (step c (Socket_message (consumerTransportCreated data))) /\
  consumeQueue (step c (Socket_message (consumerTransportCreated data))) =
    consumeQueue c /\
  running_at (consumeQueue c) k = true.
Proof.
  intros HI HW Hin Hnone.
  destruct (wrapper_alone c "consumerTransportCreated" k HI HW (or_introl eq_refl) Hin)
    as [us1 [w [cb [us2 [Hh [Hu1 [Hu2 [Hcb [Hl HA]]]]]]]]].
  assert (Hk : In k (awaited c)) by (rewrite HA; now left).
  pose proof (running_awaited _ _ _ HW Hk) as Hrun.
  destruct (awaited_parts c k (w_one _ _ HW) Hk) as [[A [B D]]|[[A [B D]]|[A [B D]]]];
    try (rewrite A in Hin; contradiction).
  destruct cb; simpl in Hcb, Hl; try discriminate. inversion Hl; subst link; clear Hl.
  set (args := TransportArgs data).
  destruct (emit_once "consumerTransportCreated" args c us1 w
              (ConsumerTransportCreatedCb k call) us2 Hh Hu1 Hu2 eq_refl) as [E H2].
  set (c1 := observed (Emitted "consumerTransportCreated" args
                       :: delivered_to "consumerTransportCreated" args us1) c) in E.
  assert (Ex : call_callback "consumerTransportCreated"
                 (ConsumerTransportCreatedCb k call) args c1 = c1).
  { unfold call_callback, args, setupConsumerTransport. rewrite Hnone.
    now destruct (device c1). }
  rewrite Ex in E.
  assert (Eh : handle (Socket_message (consumerTransportCreated data)) c =
               emit "consumerTransportCreated" args c) by reflexivity.
  assert (Eq : consumeQueue (emit "consumerTransportCreated" args c) = consumeQueue c).
  { rewrite E. cbn [consumeQueue observed]. now rewrite queue_off. }
  assert (Es : step c (Socket_message (consumerTransportCreated data)) =
               emit "consumerTransportCreated" args c).
  { unfold step. rewrite Eh. apply run_reactions_serial. rewrite Eq.
    apply (i_shape _ _ _ HI). }
  rewrite Es. split; [|split; auto].
  split; [|split; [|split]].
  - rewrite <- Es. now apply step_Inv.
  - rewrite <- Es. now apply step_Win.
  - unfold awaited. rewrite H2. rewrite E.
    rewrite handlersOf_observed, handlersOf_off_other by discriminate.
    cbn [consuming observed]. rewrite consuming_off. unfold c1.
    rewrite handlersOf_observed. cbn [consuming observed].
    rewrite links_of_app, (users_no_links _ Hu1), (users_no_links _ Hu2), B, D.
    reflexivity.
  - rewrite Eq. apply existsb_exists. unfold running_at in Hrun.
    destruct (nth_error (consumeQueue c) k) as [l|] eqn:En; [|discriminate].
    exists l. split; auto. eapply nth_error_In; eauto.
Qed.

(** X7. When the engine refuses the transport data of a
    [consumerTransportCreated] reply ([createRecvTransport] throws inside the
    handler of [createConsumerTransport]), nothing catches the error: the
    [consumeTrack] call that waited for the reply never gets a result,
    whatever is called or arrives afterwards, no later [consumeTrack] call
    gets one either, and no later [_consumeTrack] is ever started. *)
Theorem refused_transport_stalls_the_queue (pid0 : string)
    (inputs later : list Input) (data : TransportData) (k : nat) :
  let c := run inputs (new_MediasoupClient pid0) in
  In k (links_of (handlersOf "consumerTransportCreated" c)) ->
  createRecvTransport data = None ->
  let c' := run later (step c (Socket_message (consumerTransportCreated data))) in
  (forall j, k <= j -> consumeTrack_result j c' = None) /\
  started_links (trace c') = started_links (trace c).
Proof.
  intros c.
  assert (HI : Inv serial c) by (apply run_Inv, new_Inv).
  assert (HW : Win (consumeQueue c) c) by (apply run_Win; [apply new_Inv | apply new_Win]).
  clearbody c. intros Hin Hnone c'.
  destruct (refused_transport_stalls c k data HI HW Hin Hnone) as [Hst [Eq Hrun]].
  destruct (stalled_run later _ Hst) as [[HI' _] [calls [Eq' Fq]]].
  fold c' in HI', Eq'. clearbody c'. rewrite Eq in Eq'.
  split.
  - intros j Hj. unfold consumeTrack_result. unfold running_at in Hrun.
    destruct (nth_error (consumeQueue c) k) as [l|] eqn:En; [|discriminate].
    apply (serial_no_result (consumeQueue c') k l j); auto.
    + apply (i_shape _ _ _ HI').
    + rewrite Eq', nth_error_app1; auto. apply nth_error_Some. congruence.
  - rewrite (i_started _ _ _ HI'), (i_started _ _ _ HI), Eq'.
    now rewrite started_count_app_queued.
Qed.

(** *** A consume negotiation from start to end *)

Lemma off_eq event w c : exists m, off event w c = with_eventHandlers m c.
Proof.
  unfold off. destruct (JsMap.get event (eventHandlers c)) as [hs|].
  - destruct (indexOf w hs); eauto. exists (eventHandlers c). now destruct c.
  - exists (eventHandlers c). now destruct c.
Qed.

Lemma once_eq event cb c :
  exists m, once event cb c =
            with_eventHandlers m (with_nextObject (S (nextObject c)) c).
Proof.
  unfold once, on.
  destruct (JsMap.has event (eventHandlers (with_nextObject (S (nextObject c)) c)));
    eexists; unfold with_eventHandlers; simpl; reflexivity.
Qed.

Lemma settle_link_last done : forall call r,
  settle_link (List.length done) r
    (done ++ [{| link_call := call; link_state := Running |}]) =
  done ++ [{| link_call := call; link_state := Settled (catch_null r) |}].
Proof.
  induction done as [|x done IH]; intros call r; simpl; auto.
  now rewrite IH.
Qed.

Lemma serial_fulfilled q : forallb fulfilled q = true -> serial q = true.
Proof.
  induction q as [|l q IH]; simpl; auto.
  intros H. apply andb_true_iff in H. destruct H as [H1 H2]. now rewrite H1, IH.
Qed.

Lemma fulfilled_no_running q :
  forallb fulfilled q = true -> filter is_running q = [].
Proof.
  induction q as [|l q IH]; simpl; auto.
  intros H. apply andb_true_iff in H. destruct H as [H1 H2].
  now rewrite (fulfilled_not_running _ H1), IH.
Qed.

Lemma result_last (done : list Link) l :
  nth_error (done ++ [l]) (List.length done) = Some l.
Proof. rewrite nth_error_app2, Nat.sub_diag by lia. reflexivity. Qed.

(** The end of a negotiation: the [consumed] reply starts the engine's
    [consume] on the transport, and its outcome settles the call. *)
Lemma consumed_settles c t us w done call data r :
  Inv serial c ->
  handlersOf "consumed" c = us ++ [Wrapper w (ConsumedCb (List.length done) t)] ->
  forallb is_user us = true ->
  consuming c = [] ->
  consumeQueue c = done ++ [{| link_call := call; link_state := Running |}] ->
  forallb fulfilled done = true ->
  let k := List.length done in
  let c2 := step c (Socket_message (consumed data)) in
  let c3 := step c2 (Engine_consumed 0 r) in
  consuming c2 = [(k, t, data)] /\
  sent_messages (trace c3) = sent_messages (trace c) /\
  consumeTrack_result k c3 = Some (Fulfilled (option_map consumer_track r)) /\
  consumers c3 =
    match r with
    | Some x => JsMap.set (consumer_id x) x (consumers c)
    | None => consumers c
    end /\
  consumerTransports c3 = consumerTransports c /\
  outstanding c3 = 0.
Proof.
  intros HI Hh Hu Hc Hq Hd k c2 c3. subst k.
  set (k := List.length done) in Hh.
  destruct (emit_once "consumed" (ConsumedArgs data) c us w (ConsumedCb k t) []
              Hh Hu eq_refl eq_refl) as [E _].
  cbn [tl delivered_to user_callbacks flat_map map call_callback] in E.
  rewrite observed_nil in E.
  destruct (off_eq "consumed" w
              (with_consuming
                 (consuming (observed (Emitted "consumed" (ConsumedArgs data)
                                       :: delivered_to "consumed" (ConsumedArgs data) us) c)
                  ++ [(k, t, data)])
                 (observed (Emitted "consumed" (ConsumedArgs data)
                            :: delivered_to "consumed" (ConsumedArgs data) us) c)))
    as [m Em].
  rewrite Em in E. clear Em.
  assert (E2 : c2 = emit "consumed" (ConsumedArgs data) c).
  { unfold c2. apply step_quiet; auto. cbn [handle onmessage]. now rewrite E. }
  assert (Hc2 : consuming c2 = [(k, t, data)]).
  { rewrite E2, E. cbn [consuming with_eventHandlers with_consuming observed].
    now rewrite Hc. }
  assert (Hs : sent_messages
                 (Emitted "consumed" (ConsumedArgs data)
                  :: delivered_to "consumed" (ConsumedArgs data) us) = []).
  { cbn [sent_messages]. unfold delivered_to.
    induction (user_callbacks us); simpl; auto. }
  assert (E3 : exists cs,
             c3 = with_consumeQueue
                    (done ++ [{| link_call := call;
                                 link_state :=
                                   Settled (Fulfilled (option_map consumer_track r)) |}])
                    (with_consumers cs (with_consuming [] c2)) /\
             cs = match r with
                  | Some x => JsMap.set (consumer_id x) x (consumers c)
                  | None => consumers c
                  end).
  { exists (match r with
            | Some x => JsMap.set (consumer_id x) x (consumers c)
            | None => consumers c
            end). split; auto.
    unfold c3, step. cbn [handle]. unfold consume_settled. rewrite Hc2.
    cbn [nth_error remove_nth].
    assert (Hq2 : consumeQueue c2 = consumeQueue c) by (rewrite E2, E; reflexivity).
    assert (Hcs : consumers c2 = consumers c) by (rewrite E2, E; reflexivity).
    destruct r as [x|]; cbn [option_map]; unfold settle;
      cbn [consumeQueue with_consumers with_consuming consumers];
      rewrite Hq2, Hq; unfold k; rewrite settle_link_last; cbn [catch_null];
      (rewrite run_reactions_serial;
       [| cbn [consumeQueue with_consumeQueue]; apply serial_fulfilled;
          rewrite forallb_app, Hd; reflexivity]).
    - rewrite Hcs. reflexivity.
    - rewrite <- Hcs. clear. now destruct c2. }
  destruct E3 as [cs [E3 Ecs]].
  split; [exact Hc2|]. split; [|split; [|split; [|split]]].
  - rewrite E3. cbn [trace with_consumeQueue with_consumers with_consuming].
    rewrite E2, E. cbn [trace with_eventHandlers with_consuming observed].
    now rewrite sent_messages_app, Hs, app_nil_r.
  - unfold consumeTrack_result. rewrite E3. cbn [consumeQueue with_consumeQueue].
    unfold k. now rewrite result_last.
  - rewrite E3. cbn [consumers with_consumeQueue with_consumers]. exact Ecs.
  - rewrite E3. cbn [consumerTransports with_consumeQueue with_consumers with_consuming].
    rewrite E2, E. reflexivity.
  - unfold outstanding. rewrite E3. cbn [consumeQueue with_consumeQueue].
    rewrite fulfilled_no_running; auto. rewrite forallb_app, Hd. reflexivity.
Qed.

(** The participant id is never written. *)
Lemma session_pid c c' : same_session c c' -> participantId c' = participantId c.
Proof. unfold same_session. tauto. Qed.

Lemma pid_send m c : participantId (send m c) = participantId c.
Proof. apply session_pid, session_send, same_session_refl. Qed.

Lemma pid_once event cb c : participantId (once event cb c) = participantId c.
Proof. apply session_pid, session_once, same_session_refl. Qed.

Lemma pid_on event h c : participantId (on event h c) = participantId c.
Proof. apply session_pid, session_on, same_session_refl. Qed.

Lemma pid_off event w c : participantId (off event w c) = participantId c.
Proof. apply session_pid, session_off, same_session_refl. Qed.

Lemma pid_emit event args c : participantId (emit event args c) = participantId c.
Proof. apply session_pid, emit_session, same_session_refl. Qed.

Lemma pid_close_all rs c : participantId (close_all rs c) = participantId c.
Proof. now rewrite close_all_observed. Qed.

Lemma pid_flush c : participantId (handleRtpCapabilities_resume c) = participantId c.
Proof.
  unfold handleRtpCapabilities_resume. destruct (pendingExistingProducers c); auto.
  apply (session_pid (with_pendingExistingProducers [] c)), flush_session,
    same_session_refl.
Qed.

Ltac pid_step :=
  lazymatch goal with
  | |- participantId (send _ _) = _ => rewrite pid_send
  | |- participantId (once _ _ _) = _ => rewrite pid_once
  | |- participantId (on _ _ _) = _ => rewrite pid_on
  | |- participantId (off _ _ _) = _ => rewrite pid_off
  | |- participantId (emit _ _ _) = _ => rewrite pid_emit
  | |- participantId (close_all _ _) = _ => rewrite pid_close_all
  | |- participantId (handleRtpCapabilities_resume _) = _ => rewrite pid_flush
  | |- participantId (?f ?x ?y) = _ => change (participantId (f x y)) with (participantId y)
  end.

Lemma step_participantId c i : participantId (step c i) = participantId c.
Proof.
  unfold step.
  rewrite (session_pid _ _ (run_reactions_session _ _ (same_session_refl _))).
  destruct i; unfold_inputs; unfold_methods; cases; inv_eqs;
    repeat pid_step; reflexivity.
Qed.

Lemma run_participantId inputs : forall c,
  participantId (run inputs c) = participantId c.
Proof.
  induction inputs as [|i l IH]; intros c; simpl; auto.
  now rewrite IH, step_participantId.
Qed.

Lemma sent_delivered event args us :
  sent_messages (Emitted event args :: delivered_to event args us) = [].
Proof.
  cbn [sent_messages]. unfold delivered_to. induction (user_callbacks us); simpl; auto.
Qed.

Lemma idle_consuming c :
  Inv serial c -> Win (consumeQueue c) c -> outstanding c = 0 -> consuming c = [].
Proof.
  intros HI HW Ho.
  assert (Hnr : existsb is_running (consumeQueue c) = false).
  { apply running_fulfilled. now apply outstanding_idle. }
  destruct (awaited_nil_parts c (no_running_awaited _ _ HW Hnr)) as [_ [_ D]].
  destruct (consuming c); [reflexivity | discriminate].
Qed.

(** [consumeTrack] for a participant whose transport is stored, while no
    call runs. *)
Lemma consume_call_reuses c ppid pid d t :
  Inv serial c -> outstanding c = 0 ->
  device c = Some d -> ws c = OPEN ->
  JsMap.get ppid (consumerTransports c) = Some t ->
  step c (Call_consumeTrack ppid pid) =
  with_consumeQueue
    (consumeQueue c ++
       [{| link_call := {| producerParticipantId := ppid; producerId := pid |};
           link_state := Running |}])
    (observe (Sent (consume (participantId c) (transport_id t) ppid pid d))
       (once "consumed" (ConsumedCb (List.length (consumeQueue c)) t)
          (observe (Started (List.length (consumeQueue c)))
             (consumeTrack ppid pid c)))).
Proof.
  intros HI Ho Hd Hw Hg. rewrite consumeTrack_idle by auto. cbv zeta.
  rewrite (_consumeTrack_reuses _ _ _ d t); auto.
Qed.

(** [consumeTrack] for a participant without a stored transport, while no
    call runs. *)
Lemma consume_call_creates c ppid pid d :
  Inv serial c -> outstanding c = 0 ->
  device c = Some d -> ws c = OPEN ->
  JsMap.get ppid (consumerTransports c) = None ->
  step c (Call_consumeTrack ppid pid) =
  with_consumeQueue
    (consumeQueue c ++
       [{| link_call := {| producerParticipantId := ppid; producerId := pid |};
           link_state := Running |}])
    (observe (Sent (createConsumerTransport_req (participantId c)))
       (once "consumerTransportCreated"
          (ConsumerTransportCreatedCb (List.length (consumeQueue c))
             {| producerParticipantId := ppid; producerId := pid |})
          (observe (Started (List.length (consumeQueue c)))
             (consumeTrack ppid pid c)))).
Proof.
  intros HI Ho Hd Hw Hg. rewrite consumeTrack_idle by auto. cbv zeta.
  rewrite (_consumeTrack_creates _ _ _ d); auto.
Qed.

(** X8. A [consumeTrack] call for a participant whose consumer transport is
    stored, made while the socket is open and no other call runs, sends no
    [createConsumerTransport] request: it sends one [consume] request that
    names the stored transport; the [consumed] reply starts the engine's
    [consume] on that transport, and the call resolves to the consumer's
    track, with the consumer registered under its id, or to no track when
    the engine fails; the map of transports is as it was. *)
Theorem consume_reuses_the_stored_transport (pid0 : string) (inputs : list Input)
    (ppid pid : string) (d : Device) (t : Transport) (data : ConsumedData)
    (r : option Consumer) :
  let c := run inputs (new_MediasoupClient pid0) in
  outstanding c = 0 -> device c = Some d -> ws c = OPEN ->
  JsMap.get ppid (consumerTransports c) = Some t ->
  let k := List.length (consumeQueue c) in
  let c1 := step c (Call_consumeTrack ppid pid) in
  let c2 := step c1 (Socket_message (consumed data)) in
  let c3 := step c2 (Engine_consumed 0 r) in
  sent_messages (trace c1) =
    sent_messages (trace c) ++ [consume pid0 (transport_id t) ppid pid d] /\
  sent_messages (trace c3) = sent_messages (trace c1) /\
  consuming c2 = [(k, t, data)] /\
  consumeTrack_result k c3 = Some (Fulfilled (option_map consumer_track r)) /\
  consumers c3 =
    match r with
    | Some x => JsMap.set (consumer_id x) x (consumers c)
    | None => consumers c
    end /\
  consumerTransports c3 = consumerTransports c /\
  outstanding c3 = 0.
Proof.
  intros c.
  assert (HI : Inv serial c) by (apply run_Inv, new_Inv).
  assert (HW : Win (consumeQueue c) c) by (apply run_Win; [apply new_Inv | apply new_Win]).
  assert (Hp : participantId c = pid0) by apply run_participantId.
  clearbody c. intros Ho Hd Hw Hg k c1 c2 c3.
  assert (HI1 : Inv serial c1) by now apply step_Inv.
  pose proof (consume_call_reuses c ppid pid d t HI Ho Hd Hw Hg) as E1.
  fold c1 k in E1. rewrite Hp in E1.
  set (c0 := observe (Started k) (consumeTrack ppid pid c)) in E1.
  assert (Hh : handlersOf "consumed" c1 =
               handlersOf "consumed" c ++ [Wrapper (nextObject c) (ConsumedCb k t)]).
  { rewrite E1.
    change (handlersOf "consumed" (once "consumed" (ConsumedCb k t) c0) =
            handlersOf "consumed" c ++ [Wrapper (nextObject c) (ConsumedCb k t)]).
    now rewrite handlersOf_once_same. }
  destruct (once_eq "consumed" (ConsumedCb k t) c0) as [m Em].
  rewrite Em in E1. clear Em.
  assert (Hq : consumeQueue c1 =
               consumeQueue c ++
               [{| link_call := {| producerParticipantId := ppid; producerId := pid |};
                   link_state := Running |}]) by (rewrite E1; reflexivity).
  assert (Hc : consuming c1 = []).
  { rewrite E1. cbn. now apply idle_consuming. }
  destruct (consumed_settles c1 t (handlersOf "consumed" c) (nextObject c)
              (consumeQueue c) _ data r HI1 Hh
              (idle_users c "consumed" HI HW Ho (or_intror eq_refl)) Hc Hq
              (outstanding_idle c HI Ho))
    as [A1 [A2 [A3 [A4 [A5 A6]]]]].
  fold c2 c3 k in A1, A2, A3, A4, A5, A6.
  assert (Ht : trace c1 = trace c ++ [Started k; Sent (consume pid0 (transport_id t) ppid pid d)]).
  { rewrite E1. cbn. now rewrite <- app_assoc. }
  split; [|split; [|split; [|split; [|split; [|split]]]]]; auto.
  - rewrite Ht, sent_messages_app. reflexivity.
  - rewrite A4. rewrite E1. reflexivity.
  - rewrite A5. rewrite E1. reflexivity.
Qed.

Lemma negotiate_open k call t c d :
  device c = Some d -> ws c = OPEN ->
  _consumeTrack_negotiate k call t c =
  (observe (Sent (consume (participantId c) (transport_id t)
                    (producerParticipantId call) (producerId call) d))
     (once "consumed" (ConsumedCb k t) c), None).
Proof.
  intros Hd Hw. unfold _consumeTrack_negotiate, send.
  destruct (session_once_self "consumed" (ConsumedCb k t) c)
    as [Hws [_ [Hdev [Hpid _]]]].
  now rewrite Hdev, Hd, Hws, Hw, Hpid.
Qed.

(** The [consumerTransportCreated] reply, for the call that waits for it,
    when the engine accepts the transport data. *)
Lemma transport_created_negotiates c us w k call d data t :
  handlersOf "consumerTransportCreated" c =
    us ++ [Wrapper w (ConsumerTransportCreatedCb k call)] ->
  forallb is_user us = true ->
  device c = Some d -> ws c = OPEN ->
  createRecvTransport data = Some t ->
  handle (Socket_message (consumerTransportCreated data)) c =
  off "consumerTransportCreated" w
    (observe (Sent (consume (participantId c) (transport_id t)
                      (producerParticipantId call) (producerId call) d))
       (once "consumed" (ConsumedCb k t)
          (with_consumerTransports
             (JsMap.set (producerParticipantId call) t (consumerTransports c))
             (observed (Emitted "consumerTransportCreated" (TransportArgs data)
                        :: delivered_to "consumerTransportCreated"
                             (TransportArgs data) us) c)))).
Proof.
  intros Hh Hu Hd Hw Hr.
  destruct (emit_once "consumerTransportCreated" (TransportArgs data) c us w
              (ConsumerTransportCreatedCb k call) [] Hh Hu eq_refl eq_refl) as [E _].
  cbn [tl] in E. change (delivered_to "consumerTransportCreated" (TransportArgs data) [])
    with (@nil Obs) in E.
  rewrite observed_nil in E.
  change (handle (Socket_message (consumerTransportCreated data)) c)
    with (emit "consumerTransportCreated" (TransportArgs data) c).
  rewrite E. f_equal.
  set (c1 := observed (Emitted "consumerTransportCreated" (TransportArgs data)
                       :: delivered_to "consumerTransportCreated"
                            (TransportArgs data) us) c).
  unfold call_callback, setupConsumerTransport.
  change (device c1) with (device c). rewrite Hd, Hr.
  rewrite (negotiate_open k call t _ d); auto.
Qed.

(** X9. A [consumeTrack] call for a participant without a stored consumer
    transport, made while the socket is open and no other call runs, sends
    one [createConsumerTransport] request; when the reply comes and the
    engine accepts its transport data, the new transport is stored under the
    participant's id and one [consume] request that names it is sent; the
    call is still pending then, and the [consumed] reply and the engine's
    outcome resolve it as for a stored transport. *)
Theorem first_consume_creates_the_transport (pid0 : string) (inputs : list Input)
    (ppid pid : string) (d : Device) (data : TransportData) (t : Transport)
    (cdata : ConsumedData) (r : option Consumer) :
  let c := run inputs (new_MediasoupClient pid0) in
  outstanding c = 0 -> device c = Some d -> ws c = OPEN ->
  JsMap.get ppid (consumerTransports c) = None ->
  createRecvTransport data = Some t ->
  let k := List.length (consumeQueue c) in
  let c1 := step c (Call_consumeTrack ppid pid) in
  let c2 := step c1 (Socket_message (consumerTransportCreated data)) in
  let c3 := step c2 (Socket_message (consumed cdata)) in
  let c4 := step c3 (Engine_consumed 0 r) in
  sent_messages (trace c1) =
    sent_messages (trace c) ++ [createConsumerTransport_req pid0] /\
  sent_messages (trace c2) =
    sent_messages (trace c1) ++ [consume pid0 (transport_id t) ppid pid d] /\
  sent_messages (trace c4) = sent_messages (trace c2) /\
  consumerTransports c2 = JsMap.set ppid t (consumerTransports c) /\
  consumerTransports c4 = JsMap.set ppid t (consumerTransports c) /\
  JsMap.get ppid (consumerTransports c4) = Some t /\
  consumeTrack_result k c2 = None /\
  consuming c3 = [(k, t, cdata)] /\
  consumeTrack_result k c4 = Some (Fulfilled (option_map consumer_track r)) /\
  consumers c4 =
    match r with
    | Some x => JsMap.set (consumer_id x) x (consumers c)
    | None => consumers c
    end /\
  outstanding c4 = 0.
Proof.
  intros c.
  assert (HI : Inv serial c) by (apply run_Inv, new_Inv).
  assert (HW : Win (consumeQueue c) c) by (apply run_Win; [apply new_Inv | apply new_Win]).
  assert (Hp : participantId c = pid0) by apply run_participantId.
  clearbody c. intros Ho Hd Hw Hg Hr k c1 c2 c3 c4.
  assert (HI1 : Inv serial c1) by now apply step_Inv.
  assert (HI2 : Inv serial c2) by now apply step_Inv.
  set (call := {| producerParticipantId := ppid; producerId := pid |}).
  (* the call *)
  pose proof (consume_call_creates c ppid pid d HI Ho Hd Hw Hg) as E1.
  fold c1 k call in E1. rewrite Hp in E1.
  set (c0 := observe (Started k) (consumeTrack ppid pid c)) in E1.
  assert (Hh1 : handlersOf "consumerTransportCreated" c1 =
                handlersOf "consumerTransportCreated" c ++
                [Wrapper (nextObject c) (ConsumerTransportCreatedCb k call)]).
  { rewrite E1.
    change (handlersOf "consumerTransportCreated"
              (once "consumerTransportCreated" (ConsumerTransportCreatedCb k call) c0) =
            handlersOf "consumerTransportCreated" c ++
            [Wrapper (nextObject c) (ConsumerTransportCreatedCb k call)]).
    now rewrite handlersOf_once_same. }
  assert (Hh1' : handlersOf "consumed" c1 = handlersOf "consumed" c).
  { rewrite E1.
    change (handlersOf "consumed"
              (once "consumerTransportCreated" (ConsumerTransportCreatedCb k call) c0) =
            handlersOf "consumed" c).
    now rewrite handlersOf_once_other by discriminate. }
  destruct (once_eq "consumerTransportCreated" (ConsumerTransportCreatedCb k call) c0)
    as [m1 Em1].
  rewrite Em1 in E1. clear Em1.
  assert (Hq1 : consumeQueue c1 =
                consumeQueue c ++ [{| link_call := call; link_state := Running |}])
    by (rewrite E1; reflexivity).
  assert (Ht1 : trace c1 =
                trace c ++ [Started k; Sent (createConsumerTransport_req pid0)]).
  { rewrite E1. cbn. now rewrite <- app_assoc. }
  assert (Hn1 : nextObject c1 = S (nextObject c)) by (rewrite E1; reflexivity).
  assert (Hd1 : device c1 = Some d) by (rewrite E1; exact Hd).
  assert (Hw1 : ws c1 = OPEN) by (rewrite E1; exact Hw).
  assert (Hp1 : participantId c1 = pid0) by (rewrite E1; exact Hp).
  assert (Hc1 : consuming c1 = []).
  { rewrite E1. cbn. now apply idle_consuming. }
  assert (Hm1 : consumerTransports c1 = consumerTransports c) by (rewrite E1; reflexivity).
  assert (Hs1 : consumers c1 = consumers c) by (rewrite E1; reflexivity).
  clear E1.
  (* the reply *)
  pose proof (transport_created_negotiates c1
                (handlersOf "consumerTransportCreated" c) (nextObject c) k call d
                data t Hh1
                (idle_users c "consumerTransportCreated" HI HW Ho (or_introl eq_refl))
                Hd1 Hw1 Hr) as E2.
  rewrite Hp1, Hm1 in E2. cbn [producerParticipantId producerId call] in E2.
  set (os := Emitted "consumerTransportCreated" (TransportArgs data)
             :: delivered_to "consumerTransportCreated" (TransportArgs data)
                  (handlersOf "consumerTransportCreated" c)) in E2.
  set (cx := with_consumerTransports (JsMap.set ppid t (consumerTransports c))
               (observed os c1)) in E2.
  assert (Hh2 : handlersOf "consumed" (handle (Socket_message (consumerTransportCreated data)) c1) =
                handlersOf "consumed" c ++ [Wrapper (S (nextObject c)) (ConsumedCb k t)]).
  { rewrite E2, handlersOf_off_other by discriminate.
    change (handlersOf "consumed" (once "consumed" (ConsumedCb k t) cx) =
            handlersOf "consumed" c ++ [Wrapper (S (nextObject c)) (ConsumedCb k t)]).
    rewrite handlersOf_once_same.
    change (handlersOf "consumed" cx) with (handlersOf "consumed" c1).
    change (nextObject cx) with (nextObject c1).
    now rewrite Hh1', Hn1. }
  destruct (once_eq "consumed" (ConsumedCb k t) cx) as [m2 Em2].
  rewrite Em2 in E2. clear Em2.
  destruct (off_eq "consumerTransportCreated" (nextObject c)
              (observe (Sent (consume pid0 (transport_id t) ppid pid d))
                 (with_eventHandlers m2 (with_nextObject (S (nextObject cx)) cx))))
    as [m3 Em3].
  rewrite Em3 in E2. clear Em3.
  assert (E2s : c2 = handle (Socket_message (consumerTransportCreated data)) c1).
  { unfold c2. apply step_quiet; auto. rewrite E2. reflexivity. }
  rewrite <- E2s in E2, Hh2.
  assert (Hq2 : consumeQueue c2 =
                consumeQueue c ++ [{| link_call := call; link_state := Running |}])
    by (rewrite E2; exact Hq1).
  assert (Ht2 : trace c2 =
                trace c1 ++ os ++ [Sent (consume pid0 (transport_id t) ppid pid d)]).
  { rewrite E2. cbn. now rewrite <- app_assoc. }
  assert (Hc2 : consuming c2 = []) by (rewrite E2; exact Hc1).
  assert (Hm2 : consumerTransports c2 = JsMap.set ppid t (consumerTransports c))
    by (rewrite E2; reflexivity).
  assert (Hs2 : consumers c2 = consumers c) by (rewrite E2; exact Hs1).
  clear E2.
  (* the end *)
  destruct (consumed_settles c2 t (handlersOf "consumed" c) (S (nextObject c))
              (consumeQueue c) call cdata r HI2 Hh2
              (idle_users c "consumed" HI HW Ho (or_intror eq_refl)) Hc2 Hq2
              (outstanding_idle c HI Ho))
    as [A1 [A2 [A3 [A4 [A5 A6]]]]].
  fold c3 c4 k in A1, A2, A3, A4, A5, A6.
  split; [|split; [|split; [|split; [|split; [|split; [|split;
    [|split; [|split; [|split]]]]]]]]]; auto.
  - rewrite Ht1, sent_messages_app. reflexivity.
  - rewrite Ht2, !sent_messages_app. unfold os. now rewrite sent_delivered.
  - now rewrite A5.
  - rewrite A5, Hm2. apply get_set_same.
  - unfold consumeTrack_result. rewrite Hq2. unfold k. now rewrite result_last.
  - now rewrite A4, Hs2.
Qed.

(** *** Results are final *)

(** What the caller of link [k] has got. *)
Definition result_at (q : list Link) (k : nat) : option (Settlement (option Track)) :=
  match nth_error q k with
  | Some {| link_state := Settled r |} => Some r
  | _ => None
  end.

(** The chain of [c'] has every result the chain of [c] has. *)
Definition final (c c' : Client) : Prop :=
  forall k r, result_at (consumeQueue c) k = Some r ->
              result_at (consumeQueue c') k = Some r.

Lemma final_refl c : final c c.
Proof. unfold final. auto. Qed.

Lemma final_trans c1 c2 c3 : final c1 c2 -> final c2 c3 -> final c1 c3.
Proof. unfold final. auto. Qed.

Lemma final_same c0 c c' :
  consumeQueue c' = consumeQueue c -> final c0 c -> final c0 c'.
Proof. unfold final. intros ->. auto. Qed.

Lemma result_at_settle_link q : forall k j r r',
  result_at q k = Some r -> result_at (settle_link j r' q) k = Some r.
Proof.
  unfold result_at.
  induction q as [|l q IH]; intros [|k] [|j] r r' H; simpl in *; auto.
  - destruct l as [call [| |r0]]; simpl in *; auto; discriminate.
  - destruct (link_state l); simpl; auto.
Qed.

Lemma final_settle c0 k r c : final c0 c -> final c0 (settle k r c).
Proof.
  unfold final. intros H j r0 Hj. apply result_at_settle_link. auto.
Qed.

Lemma result_at_app q l k r :
  result_at q k = Some r -> result_at (q ++ l) k = Some r.
Proof.
  unfold result_at. intros H.
  destruct (nth_error q k) as [x|] eqn:E; [|discriminate].
  rewrite nth_error_app1; [now rewrite E|].
  apply nth_error_Some. congruence.
Qed.

Lemma final_send c0 m c : final c0 c -> final c0 (send m c).
Proof. apply final_same. now rewrite queue_send. Qed.

Lemma final_on c0 event h c : final c0 c -> final c0 (on event h c).
Proof. apply final_same. now rewrite queue_on. Qed.

Lemma final_once c0 event cb c : final c0 c -> final c0 (once event cb c).
Proof. apply final_same. now rewrite queue_once. Qed.

Lemma final_off c0 event w c : final c0 c -> final c0 (off event w c).
Proof. apply final_same. now rewrite queue_off. Qed.

Lemma final_close_all c0 rs c : final c0 c -> final c0 (close_all rs c).
Proof. apply final_same. now rewrite queue_close_all. Qed.

Ltac final_step :=
  lazymatch goal with
  | |- final _ (settle _ _ _) => apply final_settle
  | |- final _ (send _ _) => apply final_send
  | |- final _ (once _ _ _) => apply final_once
  | |- final _ (on _ _ _) => apply final_on
  | |- final _ (off _ _ _) => apply final_off
  | |- final _ (close_all _ _) => apply final_close_all
  | |- final _ (?f ?x ?y) => apply (fun c0 => final_same c0 y); [reflexivity|]
  end.

Ltac finality := repeat final_step; try assumption; try apply final_refl.

Lemma invoke_final c0 event h args c :
  final c0 c -> final c0 (invoke event h args c).
Proof.
  intros H. destruct h as [cb|w cb]; destruct cb;
    unfold_methods; cases; inv_eqs; finality.
Qed.

Lemma emit_final c0 event args c : final c0 c -> final c0 (emit event args c).
Proof.
  intros H. apply emit_ind; [finality|]. intros h c' H' _. now apply invoke_final.
Qed.

Lemma flush_final c0 c :
  final c0 c -> final c0 (handleRtpCapabilities_resume c).
Proof.
  intros H. unfold handleRtpCapabilities_resume.
  destruct (pendingExistingProducers c) as [|p l]; auto.
  assert (H' : final c0 (with_pendingExistingProducers [] c)) by finality.
  revert H'. generalize (with_pendingExistingProducers [] c).
  induction (p :: l) as [|x xs IH]; intros y Hy; simpl; auto.
  apply IH. now apply emit_final.
Qed.

Lemma handle_final i c : final c (handle i c).
Proof.
  pose proof (final_refl c) as H.
  destruct i; unfold_inputs; unfold_methods; cases; inv_eqs;
    repeat first [ apply emit_final | apply flush_final | final_step ];
    try assumption.
  intros k r Hk. cbn [consumeQueue with_consumeQueue]. now apply result_at_app.
Qed.

Lemma react_final q : forall prev k c j r,
  result_at q j = Some r -> result_at (fst (react prev k q c)) j = Some r.
Proof.
  unfold result_at.
  induction q as [|l q IH]; intros prev k c j r H; simpl in *; auto.
  destruct j as [|j]; simpl in H.
  - destruct l as [call [| |r0]]; simpl in *; try discriminate.
    destruct (react (Some r0) (S k) q c). exact H.
  - destruct (link_state l).
    + destruct prev as [[v|m]|].
      * destruct (_consumeTrack k (link_call l) (observe (Started k) c)) as [c1 [r0|]].
        -- specialize (IH (Some (catch_null r0)) (S k) c1 j r H).
           destruct (react (Some (catch_null r0)) (S k) q c1). exact IH.
        -- specialize (IH None (S k) c1 j r H).
           destruct (react None (S k) q c1). exact IH.
      * specialize (IH (Some (Fulfilled None)) (S k) c j r H).
        destruct (react (Some (Fulfilled None)) (S k) q c). exact IH.
      * specialize (IH None (S k) c j r H). destruct (react None (S k) q c). exact IH.
    + specialize (IH None (S k) c j r H). destruct (react None (S k) q c). exact IH.
    + specialize (IH (Some r0) (S k) c j r H). destruct (react (Some r0) (S k) q c).
      exact IH.
Qed.

Lemma run_reactions_final c : final c (run_reactions c).
Proof.
  unfold final, run_reactions. intros k r H.
  pose proof (react_final (consumeQueue c) (Some (Fulfilled None)) 0 c k r H) as R.
  destruct (react (Some (Fulfilled None)) 0 (consumeQueue c) c). exact R.
Qed.

Lemma step_final c i : final c (step c i).
Proof.
  unfold step. eapply final_trans; [apply handle_final | apply run_reactions_final].
Qed.

Lemma run_final inputs : forall c, final c (run inputs c).
Proof.
  induction inputs as [|i l IH]; intros c; simpl; [apply final_refl|].
  eapply final_trans; [apply step_final | apply IH].
Qed.

(** X10. What [consumeTrack] gives its caller is never an error and never
    changes: in every state the client can reach, the promise of a call that
    has settled is fulfilled (with a track or with no track), and whatever is
    called or arrives later, it stays settled with the same value. *)
Theorem consume_results_are_final (pid0 : string) (inputs later : list Input)
    (k : nat) (r : Settlement (option Track)) :
  let c := run inputs (new_MediasoupClient pid0) in
  consumeTrack_result k c = Some r ->
  (exists track, r = Fulfilled track) /\
  consumeTrack_result k (run later c) = Some r.
Proof.
  intros c H.
  assert (HI : Inv serial c) by (apply run_Inv, new_Inv).
  clearbody c. split.
  - unfold consumeTrack_result in H.
    destruct (nth_error (consumeQueue c) k) as [[call st]|] eqn:E; [|discriminate].
    destruct st as [| |r0]; try discriminate. inversion H; subst r0; clear H.
    destruct r as [v|m]; [eauto|].
    exfalso. apply (serial_never_rejected _ _ _ m (i_shape _ _ _ HI) E). reflexivity.
  - apply (run_final later c k r H).
Qed.

(** *** Producing *)

(** [emit] with one wrapper behind application callbacks: whatever handler
    is registered right behind the wrapper is passed over, and stays. *)
Lemma emit_once_behind event args c us1 w cb rest :
  handlersOf event c = us1 ++ Wrapper w cb :: rest ->
  forallb is_user us1 = true ->
  forallb is_user (tl rest) = true ->
  callback_event cb = Some event ->
  emit event args c =
    observed (delivered_to event args (tl rest))
      (off event w
         (call_callback event cb args
            (observed (Emitted event args :: delivered_to event args us1) c))) /\
  handlersOf event (emit event args c) = us1 ++ rest.
Proof.
  intros Hh Hu1 Hu2 Hcb.
  set (c1 := observed (Emitted event args :: delivered_to event args us1) c).
  set (c2 := off event w (call_callback event cb args c1)).
  assert (H2 : handlersOf event c2 = us1 ++ rest).
  { unfold c2. rewrite handlersOf_off_same, call_callback_handlers by auto.
    unfold c1. rewrite handlersOf_observed, Hh, indexOf_users by auto.
    apply splice1_middle. }
  assert (E : emit event args c = observed (delivered_to event args (tl rest)) c2).
  { unfold emit.
    change (eventHandlers (observe (Emitted event args) c)) with (eventHandlers c).
    assert (Hg : JsMap.get event (eventHandlers c) = Some (us1 ++ Wrapper w cb :: rest)).
    { unfold handlersOf in Hh. destruct (JsMap.get event (eventHandlers c)).
      - now rewrite Hh.
      - destruct us1; discriminate. }
    rewrite Hg, length_app. cbn [List.length].
    rewrite forEach_split.
    rewrite (forEach_users_upto event args (us1 ++ Wrapper w cb :: rest)
               (List.length us1) 0 (observe (Emitted event args) c)).
    - rewrite firstn_skipn_users, observe_observed, observed_observed.
      fold c1. cbn [Nat.add forEach].
      rewrite handlersOf_observed, Hh.
      rewrite nth_error_app2, Nat.sub_diag by lia. cbn [nth_error invoke].
      fold c2.
      assert (Hf : firstn (List.length rest)
                     (skipn (S (List.length us1)) (us1 ++ rest)) = tl rest).
      { rewrite skipn_app, skipn_all2, Nat.sub_succ_l, Nat.sub_diag by lia.
        simpl. destruct rest as [|h rest]; [reflexivity|].
        now rewrite firstn_all2 by (simpl; lia). }
      rewrite (forEach_users_upto event args (us1 ++ rest)); auto.
      + now rewrite Hf.
      + now rewrite Hf.
    - exact Hh.
    - now rewrite firstn_skipn_users. }
  split; [exact E|]. rewrite E. exact H2.
Qed.

Lemma produce_call_creates c track d :
  device c = Some d -> producerTransport c = None -> ws c = OPEN ->
  handle (Call_produceTrack track) c =
  observe (Sent (createProducerTransport_req (participantId c)))
    (once "producerTransportCreated" (ProducerTransportCreatedCb track) c).
Proof.
  intros Hd Hp Hw. cbn [handle]. unfold produceTrack, createProducerTransport, send.
  rewrite Hd, Hp.
  destruct (session_once_self "producerTransportCreated"
              (ProducerTransportCreatedCb track) c) as [Hws _].
  now rewrite Hws, Hw.
Qed.

(** The [producerTransportCreated] reply, for the first call that waits for
    it, when the engine accepts the transport data. *)
Lemma transport_created_produces c us w track rest d data t :
  handlersOf "producerTransportCreated" c =
    us ++ Wrapper w (ProducerTransportCreatedCb track) :: rest ->
  forallb is_user us = true ->
  forallb is_user (tl rest) = true ->
  device c = Some d ->
  createSendTransport data = Some t ->
  let args := TransportArgs data in
  let c1 := observed (Emitted "producerTransportCreated" args
                      :: delivered_to "producerTransportCreated" args us) c in
  handle (Socket_message (producerTransportCreated data)) c =
    observed (delivered_to "producerTransportCreated" args (tl rest))
      (off "producerTransportCreated" w
         (with_producing (producing c ++ [(t, track)])
            (with_producerTransport (Some t) c1))) /\
  handlersOf "producerTransportCreated"
    (handle (Socket_message (producerTransportCreated data)) c) = us ++ rest.
Proof.
  intros Hh Hu Hr Hd Ht args c1.
  destruct (emit_once_behind "producerTransportCreated" args c us w
              (ProducerTransportCreatedCb track) rest Hh Hu Hr eq_refl) as [E H2].
  change (handle (Socket_message (producerTransportCreated data)) c)
    with (emit "producerTransportCreated" args c).
  split; [|exact H2]. rewrite E. fold c1. f_equal. f_equal.
  unfold call_callback, args, setupProducerTransport, produceTrack_resume.
  change (device c1) with (device c). rewrite Hd, Ht. reflexivity.
Qed.

Lemma remove_nth_last {A} (l : list A) x : remove_nth (List.length l) (l ++ [x]) = l.
Proof. induction l as [|y l IH]; simpl; auto. now rewrite IH. Qed.

Lemma nth_error_last {A} (l : list A) x : nth_error (l ++ [x]) (List.length l) = Some x.
Proof. rewrite nth_error_app2, Nat.sub_diag by lia. reflexivity. Qed.

(** What the producing inputs leave as it is. *)
Lemma produce_call_frame c track d :
  device c = Some d -> producerTransport c = None -> ws c = OPEN ->
  let c1 := handle (Call_produceTrack track) c in
  trace c1 = trace c ++ [Sent (createProducerTransport_req (participantId c))] /\
  handlersOf "producerTransportCreated" c1 =
    handlersOf "producerTransportCreated" c ++
    [Wrapper (nextObject c) (ProducerTransportCreatedCb track)] /\
  nextObject c1 = S (nextObject c) /\
  consumeQueue c1 = consumeQueue c /\ device c1 = device c /\ ws c1 = ws c /\
  participantId c1 = participantId c /\
  producerTransport c1 = producerTransport c /\ producing c1 = producing c /\
  producers c1 = producers c.
Proof.
  intros Hd Hp Hw c1. unfold c1. rewrite (produce_call_creates c track d) by auto.
  split; [|split].
  - cbn [trace observe]. now rewrite trace_once.
  - change (handlersOf "producerTransportCreated"
              (once "producerTransportCreated" (ProducerTransportCreatedCb track) c) =
            handlersOf "producerTransportCreated" c ++
            [Wrapper (nextObject c) (ProducerTransportCreatedCb track)]).
    apply handlersOf_once_same.
  - destruct (once_eq "producerTransportCreated" (ProducerTransportCreatedCb track) c)
      as [m ->]. repeat split.
Qed.

Lemma transport_created_frame c us w track rest d data t :
  handlersOf "producerTransportCreated" c =
    us ++ Wrapper w (ProducerTransportCreatedCb track) :: rest ->
  forallb is_user us = true ->
  forallb is_user (tl rest) = true ->
  device c = Some d ->
  createSendTransport data = Some t ->
  let c1 := handle (Socket_message (producerTransportCreated data)) c in
  handlersOf "producerTransportCreated" c1 = us ++ rest /\
  producerTransport c1 = Some t /\
  producing c1 = producing c ++ [(t, track)] /\
  sent_messages (trace c1) = sent_messages (trace c) /\
  consumeQueue c1 = consumeQueue c /\ device c1 = device c /\ ws c1 = ws c /\
  participantId c1 = participantId c /\ producers c1 = producers c.
Proof.
  intros Hh Hu Hr Hd Ht c1.
  destruct (transport_created_produces c us w track rest d data t Hh Hu Hr Hd Ht)
    as [E H2].
  cbv zeta in E. fold c1 in E, H2. split; [exact H2|]. clear H2.
  destruct (off_eq "producerTransportCreated" w
              (with_producing (producing c ++ [(t, track)])
                 (with_producerTransport (Some t)
                    (observed (Emitted "producerTransportCreated" (TransportArgs data)
                               :: delivered_to "producerTransportCreated"
                                    (TransportArgs data) us) c))))
    as [m Em].
  rewrite Em in E. clear Em. rewrite E. repeat split.
  cbn [trace observed with_eventHandlers with_producing with_producerTransport].
  rewrite !sent_messages_app, sent_delivered, app_nil_r.
  assert (Hs : sent_messages
                 (delivered_to "producerTransportCreated" (TransportArgs data)
                    (tl rest)) = []).
  { unfold delivered_to. induction (user_callbacks (tl rest)); simpl; auto. }
  now rewrite Hs, app_nil_r.
Qed.

(** X11. A [produceTrack] call in a state the client can reach, with the
    device set, the socket open, no producer transport and no other call
    waiting for one, sends one [createProducerTransport] request and nothing
    else; when [producerTransportCreated] arrives and the engine accepts its
    data, the new transport becomes the producer transport and [produce] is
    called on it for the track, nothing being sent; when that settles, the
    call resolves and the producer is registered under its id, or the call
    fails and nothing is registered. *)
Theorem produce_creates_the_transport (pid0 : string) (inputs : list Input)
    (track : Track) (d : Device) (data : TransportData) (t : Transport)
    (r : option Producer) :
  let c := run inputs (new_MediasoupClient pid0) in
  device c = Some d -> ws c = OPEN -> producerTransport c = None ->
  forallb is_user (handlersOf "producerTransportCreated" c) = true ->
  createSendTransport data = Some t ->
  let c1 := step c (Call_produceTrack track) in
  let c2 := step c1 (Socket_message (producerTransportCreated data)) in
  let c3 := step c2 (Engine_produced (List.length (producing c)) r) in
  trace c1 = trace c ++ [Sent (createProducerTransport_req pid0)] /\
  producerTransport c2 = Some t /\
  producing c2 = producing c ++ [(t, track)] /\
  sent_messages (trace c2) = sent_messages (trace c1) /\
  producing c3 = producing c /\
  match r with
  | Some p =>
      trace c3 = trace c2 ++ [ProduceSettled track (Fulfilled p)] /\
      producers c3 = JsMap.set (producer_id p) p (producers c)
  | None =>
      (exists m, trace c3 = trace c2 ++ [ProduceSettled track (Rejected m)]) /\
      producers c3 = producers c
  end.
Proof.
  intros c.
  assert (HI : Inv serial c) by (apply run_Inv, new_Inv).
  assert (Hp : participantId c = pid0) by apply run_participantId.
  clearbody c. intros Hd Hw Hpt Hu Ht c1 c2 c3.
  assert (HI1 : Inv serial c1) by now apply step_Inv.
  assert (HI2 : Inv serial c2) by now apply step_Inv.
  destruct (produce_call_frame c track d Hd Hpt Hw)
    as [A1 [A2 [A3 [A4 [A5 [A6 [A7 [A8 [A9 A10]]]]]]]]].
  assert (E1 : c1 = handle (Call_produceTrack track) c)
    by (apply step_quiet; auto).
  rewrite <- E1 in *. clear E1.
  destruct (transport_created_frame c1 (handlersOf "producerTransportCreated" c)
              (nextObject c) track [] d data t A2 Hu eq_refl
              (eq_trans A5 Hd) Ht)
    as [B1 [B2 [B3 [B4 [B5 [B6 [B7 [B8 B9]]]]]]]].
  assert (E2 : c2 = handle (Socket_message (producerTransportCreated data)) c1)
    by (apply step_quiet; auto).
  rewrite <- E2 in *. clear E2.
  rewrite A9 in B3.
  assert (E3 : c3 = handle (Engine_produced (List.length (producing c)) r) c2).
  { apply step_quiet; auto. cbn [handle]. unfold produce_settled.
    rewrite B3, nth_error_last. now destruct r. }
  rewrite Hp in A1.
  split; [exact A1|]. split; [exact B2|]. split; [exact B3|]. split; [exact B4|].
  rewrite E3. cbn [handle]. unfold produce_settled.
  rewrite B3, nth_error_last, remove_nth_last.
  destruct r as [p|].
  - split; [reflexivity|]. split; [reflexivity|].
    cbn [producers observe with_producers with_producing]. now rewrite B9, A10.
  - split; [reflexivity|]. split; [eexists; reflexivity|].
    cbn [producers observe with_producers with_producing]. now rewrite B9, A10.
Qed.

(** X12. Two [produceTrack] calls made before the producer transport exists
    each send a [createProducerTransport] request.  The first reply is
    handled for the first call only (the handler of the second call is the
    one [forEach] passes over): its transport becomes the producer transport
    and carries the first track.  The second reply makes a second transport,
    which replaces the first as the producer transport and carries the
    second track; [disconnect] then closes the second transport and never
    the first. *)
Theorem two_produce_calls_make_two_transports (pid0 : string)
    (inputs : list Input) (a b : Track) (d : Device)
    (data1 data2 : TransportData) (t1 t2 : Transport) :
  let c := run inputs (new_MediasoupClient pid0) in
  device c = Some d -> ws c = OPEN -> producerTransport c = None ->
  forallb is_user (handlersOf "producerTransportCreated" c) = true ->
  createSendTransport data1 = Some t1 ->
  createSendTransport data2 = Some t2 ->
  let c2 := step (step c (Call_produceTrack a)) (Call_produceTrack b) in
  let c3 := step c2 (Socket_message (producerTransportCreated data1)) in
  let c4 := step c3 (Socket_message (producerTransportCreated data2)) in
  trace c2 =
    trace c ++ [Sent (createProducerTransport_req pid0);
                Sent (createProducerTransport_req pid0)] /\
  producerTransport c3 = Some t1 /\
  producing c3 = producing c ++ [(t1, a)] /\
  producerTransport c4 = Some t2 /\
  producing c4 = producing c ++ [(t1, a); (t2, b)] /\
  (t1 <> t2 -> ~ In (TheProducerTransport t1) (closed_by_disconnect c4)).
Proof.
  intros c.
  assert (HI : Inv serial c) by (apply run_Inv, new_Inv).
  assert (Hp : participantId c = pid0) by apply run_participantId.
  clearbody c. intros Hd Hw Hpt Hu Ht1 Ht2.
  set (c1 := step c (Call_produceTrack a)).
  intros c2 c3 c4.
  assert (HI1 : Inv serial c1) by now apply step_Inv.
  assert (HI2 : Inv serial c2) by now apply step_Inv.
  assert (HI3 : Inv serial c3) by now apply step_Inv.
  destruct (produce_call_frame c a d Hd Hpt Hw)
    as [A1 [A2 [A3 [A4 [A5 [A6 [A7 [A8 [A9 A10]]]]]]]]].
  assert (E1 : c1 = handle (Call_produceTrack a) c) by (apply step_quiet; auto).
  rewrite <- E1 in *. clear E1.
  destruct (produce_call_frame c1 b d (eq_trans A5 Hd) (eq_trans A8 Hpt)
              (eq_trans A6 Hw))
    as [B1 [B2 [B3 [B4 [B5 [B6 [B7 [B8 [B9 B10]]]]]]]]].
  assert (E2 : c2 = handle (Call_produceTrack b) c1) by (apply step_quiet; auto).
  rewrite <- E2 in *. clear E2.
  rewrite A2, <- app_assoc in B2. cbn [app] in B2.
  destruct (transport_created_frame c2 (handlersOf "producerTransportCreated" c)
              (nextObject c) a
              [Wrapper (nextObject c1) (ProducerTransportCreatedCb b)]
              d data1 t1 B2 Hu eq_refl
              (eq_trans B5 (eq_trans A5 Hd)) Ht1)
    as [C1 [C2 [C3 [C4 [C5 [C6 [C7 [C8 C9]]]]]]]].
  assert (E3 : c3 = handle (Socket_message (producerTransportCreated data1)) c2)
    by (apply step_quiet; auto).
  rewrite <- E3 in *. clear E3.
  destruct (transport_created_frame c3 (handlersOf "producerTransportCreated" c)
              (nextObject c1) b [] d data2 t2 C1 Hu eq_refl
              (eq_trans C6 (eq_trans B5 (eq_trans A5 Hd))) Ht2)
    as [D1 [D2 [D3 [D4 [D5 [D6 [D7 [D8 D9]]]]]]]].
  assert (E4 : c4 = handle (Socket_message (producerTransportCreated data2)) c3)
    by (apply step_quiet; auto).
  rewrite <- E4 in *. clear E4.
  split; [|split; [|split; [|split; [|split]]]].
  - rewrite B1, A1, A7, Hp, <- app_assoc. reflexivity.
  - exact C2.
  - now rewrite C3, B9, A9.
  - exact D2.
  - now rewrite D3, C3, B9, A9, <- app_assoc.
  - intros Hne Hin. unfold closed_by_disconnect in Hin. rewrite D2 in Hin.
    repeat (apply in_app_or in Hin; destruct Hin as [Hin|Hin]).
    + apply in_map_iff in Hin. destruct Hin as [x [Hx _]]. discriminate.
    + apply in_map_iff in Hin. destruct Hin as [x [Hx _]]. discriminate.
    + simpl in Hin. destruct Hin as [Hin|[]]. inversion Hin. congruence.
    + apply in_map_iff in Hin. destruct Hin as [x [Hx _]]. discriminate.
    + simpl in Hin. destruct Hin as [Hin|[]]. discriminate.
Qed.

(** *** What [emit] visits *)

(** The allocation numbers of the wrappers in an array. *)
Definition wrapper_ids (hs : list Handler) : list nat :=
  flat_map (fun h => match h with Wrapper w _ => [w] | Plain _ => [] end) hs.

(** The wrappers of an array are distinct closures, allocated before. *)
Record Fresh (c : Client) : Prop := {
  f_nodup : forall e, NoDup (wrapper_ids (handlersOf e c));
  f_below : forall e w, In w (wrapper_ids (handlersOf e c)) -> w < nextObject c
}.

Lemma wrapper_ids_app l1 l2 : wrapper_ids (l1 ++ l2) = wrapper_ids l1 ++ wrapper_ids l2.
Proof. unfold wrapper_ids. apply flat_map_app. Qed.

Lemma Fresh_same c c' :
  (forall e, handlersOf e c' = handlersOf e c) ->
  nextObject c <= nextObject c' ->
  Fresh c -> Fresh c'.
Proof.
  intros Hh Hn [H1 H2]. constructor; intros e.
  - rewrite Hh. apply H1.
  - intros w. rewrite Hh. intros Hin. specialize (H2 e w Hin). lia.
Qed.

Lemma nextObject_send m c : nextObject (send m c) = nextObject c.
Proof. unfold send. now destruct (ws c). Qed.

Lemma nextObject_on event h c : nextObject (on event h c) = nextObject c.
Proof. unfold on. now destruct (JsMap.has event (eventHandlers c)). Qed.

Lemma nextObject_off event w c : nextObject (off event w c) = nextObject c.
Proof. destruct (off_eq event w c) as [m ->]. reflexivity. Qed.

Lemma Fresh_send m c : Fresh c -> Fresh (send m c).
Proof.
  apply Fresh_same; [intros e; apply handlersOf_send | now rewrite nextObject_send].
Qed.

Lemma Fresh_on event cb c : Fresh c -> Fresh (on event (Plain cb) c).
Proof.
  intros [H1 H2]. constructor; intros e; rewrite ?nextObject_on;
    (destruct (String.eqb_spec e event) as [->|Hne];
     [rewrite handlersOf_on_same, wrapper_ids_app; simpl; rewrite app_nil_r
     |rewrite handlersOf_on_other by auto]); eauto.
Qed.

Lemma Fresh_once event cb c : Fresh c -> Fresh (once event cb c).
Proof.
  intros [H1 H2].
  assert (Hn : nextObject (once event cb c) = S (nextObject c)).
  { destruct (once_eq event cb c) as [m ->]. reflexivity. }
  constructor; intros e; rewrite ?Hn;
    (destruct (String.eqb_spec e event) as [->|Hne];
     [rewrite handlersOf_once_same, wrapper_ids_app; simpl
     |rewrite handlersOf_once_other by auto]).
  - apply NoDup_app; auto.
    + constructor; [intros []|constructor].
    + intros w Hin [<-|[]]. specialize (H2 _ _ Hin). lia.
  - apply H1.
  - intros w Hin. apply in_app_or in Hin. destruct Hin as [Hin|[<-|[]]]; [|lia].
    specialize (H2 _ _ Hin). lia.
  - intros w Hin. specialize (H2 _ _ Hin). lia.
Qed.

Lemma wrapper_ids_splice1 i hs w :
  In w (wrapper_ids (splice1 i hs)) -> In w (wrapper_ids hs).
Proof.
  unfold splice1. rewrite <- (firstn_skipn i hs) at 3.
  rewrite !wrapper_ids_app. intros H. apply in_app_or in H. apply in_or_app.
  destruct H as [H|H]; auto. right.
  destruct (skipn i hs) as [|x r] eqn:E.
  - rewrite skipn_all2 in H; [exact H|].
    apply (f_equal (@List.length Handler)) in E. rewrite length_skipn in E.
    simpl in E. lia.
  - replace (skipn (S i) hs) with r in H.
    + change (x :: r) with ([x] ++ r). rewrite wrapper_ids_app. apply in_or_app. auto.
    + change (S i) with (1 + i). rewrite <- skipn_skipn, E. reflexivity.
Qed.

Lemma NoDup_splice1 i hs :
  NoDup (wrapper_ids hs) -> NoDup (wrapper_ids (splice1 i hs)).
Proof.
  unfold splice1. rewrite <- (firstn_skipn i hs) at 1.
  rewrite !wrapper_ids_app.
  destruct (skipn i hs) as [|x r] eqn:E.
  - rewrite skipn_all2; [auto|].
    apply (f_equal (@List.length Handler)) in E. rewrite length_skipn in E.
    simpl in E. lia.
  - replace (skipn (S i) hs) with r.
    + change (x :: r) with ([x] ++ r). rewrite wrapper_ids_app.
      destruct x as [cb|w cb]; simpl; auto. apply NoDup_remove_1.
    + change (S i) with (1 + i). rewrite <- skipn_skipn, E. reflexivity.
Qed.

Lemma Fresh_off event w c : Fresh c -> Fresh (off event w c).
Proof.
  intros [H1 H2]. constructor; intros e; rewrite ?nextObject_off;
    (destruct (String.eqb_spec e event) as [->|Hne];
     [rewrite handlersOf_off_same; destruct (indexOf w (handlersOf event c))
     |rewrite handlersOf_off_other by auto]); eauto.
  - now apply NoDup_splice1.
  - intros x Hin. apply wrapper_ids_splice1 in Hin. eauto.
Qed.

Lemma Fresh_close_all rs c : Fresh c -> Fresh (close_all rs c).
Proof. rewrite close_all_observed. apply Fresh_same; auto. Qed.

Ltac fresh_step :=
  lazymatch goal with
  | |- Fresh (send _ _) => apply Fresh_send
  | |- Fresh (once _ _ _) => apply Fresh_once
  | |- Fresh (on _ (Plain _) _) => apply Fresh_on
  | |- Fresh (off _ _ _) => apply Fresh_off
  | |- Fresh (close_all _ _) => apply Fresh_close_all
  | |- Fresh (?f ?x ?y) =>
      apply (Fresh_same y); [intros; reflexivity | cbn; lia |]
  end.

Ltac freshness := repeat fresh_step; try assumption.

Lemma invoke_Fresh event h args c : Fresh c -> Fresh (invoke event h args c).
Proof.
  intros H. destruct h as [cb|w cb]; destruct cb;
    unfold_methods; cases; inv_eqs; freshness.
Qed.

Lemma emit_Fresh event args c : Fresh c -> Fresh (emit event args c).
Proof.
  intros H. apply emit_ind; [freshness|]. intros h c' H' _. now apply invoke_Fresh.
Qed.

Lemma flush_Fresh c : Fresh c -> Fresh (handleRtpCapabilities_resume c).
Proof.
  intros H. unfold handleRtpCapabilities_resume.
  destruct (pendingExistingProducers c) as [|p l]; auto.
  assert (H' : Fresh (with_pendingExistingProducers [] c)) by freshness.
  revert H'. generalize (with_pendingExistingProducers [] c).
  induction (p :: l) as [|x xs IH]; intros y Hy; simpl; auto.
  apply IH. now apply emit_Fresh.
Qed.

Lemma handle_Fresh i c : Fresh c -> Fresh (handle i c).
Proof.
  intros H.
  destruct i; unfold_inputs; unfold_methods; cases; inv_eqs;
    repeat first [ apply emit_Fresh | apply flush_Fresh | fresh_step ];
    try assumption.
Qed.

Lemma _consumeTrack_Fresh k call c : Fresh c -> Fresh (fst (_consumeTrack k call c)).
Proof.
  intros H. unfold_methods; cases; inv_eqs; cbn [fst]; freshness.
Qed.

Lemma run_reactions_Fresh c : Fresh c -> Fresh (run_reactions c).
Proof.
  intros H. unfold run_reactions.
  pose proof (react_ind Fresh) as R.
  specialize (R (fun k call c1 H1 =>
                   _consumeTrack_Fresh k call _
                     (Fresh_same c1 (observe (Started k) c1)
                        (fun e => eq_refl) (le_n _) H1))).
  specialize (R (consumeQueue c) (Some (Fulfilled None)) 0 c H).
  destruct (react (Some (Fulfilled None)) 0 (consumeQueue c) c).
  simpl in R. freshness.
Qed.

Lemma run_Fresh inputs : forall c, Fresh c -> Fresh (run inputs c).
Proof.
  induction inputs as [|i l IH]; intros c H; simpl; auto.
  apply IH. unfold step. now apply run_reactions_Fresh, handle_Fresh.
Qed.

Lemma new_Fresh pid0 : Fresh (new_MediasoupClient pid0).
Proof. constructor; intros e; [constructor | intros w []]. Qed.

(** The handlers [forEach] gets to, in an array as it is when [emit] starts:
    behind a wrapper, which takes itself out, the next handler is passed
    over. *)
Fixpoint visited (hs : list Handler) : list Handler :=
  match hs with
  | [] => []
  | Plain cb :: r => Plain cb :: visited r
  | Wrapper w cb :: r =>
      Wrapper w cb :: match r with [] => [] | _ :: r' => visited r' end
  end.

(** The array afterwards. *)
Fixpoint survivors (hs : list Handler) : list Handler :=
  match hs with
  | [] => []
  | Plain cb :: r => Plain cb :: survivors r
  | Wrapper w cb :: r =>
      match r with [] => [] | h :: r' => h :: survivors r' end
  end.

Lemma indexOf_fresh pre w cb r :
  ~ In w (wrapper_ids pre) ->
  indexOf w (pre ++ Wrapper w cb :: r) = Some (List.length pre).
Proof.
  induction pre as [|a pre IH]; simpl; intros H.
  - now rewrite Nat.eqb_refl.
  - destruct a as [cb'|w' cb']; simpl in *.
    + now rewrite IH.
    + destruct (Nat.eqb_spec w w') as [->|Hne]; [exfalso; auto|].
      rewrite IH; auto.
Qed.

Lemma forEach_beyond event args n : forall k c,
  List.length (handlersOf event c) <= k -> forEach n k event args c = c.
Proof.
  induction n as [|n IH]; intros k c H; simpl; auto.
  destruct (nth_error (handlersOf event c) k) eqn:E.
  - assert (k < List.length (handlersOf event c))
      by (apply nth_error_Some; congruence).
    lia.
  - apply IH. lia.
Qed.

Lemma forEach_visits event args n : forall pre rest c,
  handlersOf event c = pre ++ rest ->
  forallb (sorted_ok event) rest = true ->
  NoDup (wrapper_ids (pre ++ rest)) ->
  List.length rest <= n ->
  forEach n (List.length pre) event args c =
    fold_left (fun c' h => invoke event h args c') (visited rest) c /\
  handlersOf event (forEach n (List.length pre) event args c) = pre ++ survivors rest.
Proof.
  induction n as [|n IH]; intros pre rest c Hh Hs Hnd Hn.
  - destruct rest; [|simpl in Hn; lia]. simpl. split; auto.
  - destruct rest as [|h r].
    + rewrite forEach_beyond by (rewrite Hh, app_nil_r; lia). simpl. split; auto.
    + simpl forEach. rewrite Hh, nth_error_app2, Nat.sub_diag by lia.
      cbn [nth_error]. cbn [forallb] in Hs. apply andb_true_iff in Hs.
      destruct Hs as [Hs1 Hs2]. simpl in Hn.
      assert (Hl : forall x : Handler, S (List.length pre) = List.length (pre ++ [x]))
        by (intros x; rewrite length_app; simpl; lia).
      destruct h as [cb|w cb].
      * destruct cb; simpl in Hs1; try discriminate.
        rewrite (Hl (Plain (UserCallback n0))).
        destruct (IH (pre ++ [Plain (UserCallback n0)]) r
                    (invoke event (Plain (UserCallback n0)) args c)) as [E1 E2].
        -- rewrite <- app_assoc. exact Hh.
        -- exact Hs2.
        -- rewrite <- app_assoc. exact Hnd.
        -- lia.
        -- split; [exact E1|]. rewrite E2, <- app_assoc. reflexivity.
      * assert (Hcb : callback_event cb = Some event).
        { simpl in Hs1. destruct (callback_event cb) as [e|]; [|discriminate].
          apply String.eqb_eq in Hs1. now subst. }
        rewrite wrapper_ids_app in Hnd.
        change (wrapper_ids (Wrapper w cb :: r)) with (w :: wrapper_ids r) in Hnd.
        pose proof (NoDup_remove_1 _ _ _ Hnd) as Hnd1.
        pose proof (NoDup_remove_2 _ _ _ Hnd) as Hnd2.
        set (c' := invoke event (Wrapper w cb) args c).
        assert (Hh' : handlersOf event c' = pre ++ r).
        { unfold c'. cbn [invoke].
          rewrite handlersOf_off_same, call_callback_handlers, Hh by auto.
          rewrite indexOf_fresh.
          - apply splice1_middle.
          - intros Hin. apply Hnd2. apply in_or_app. now left. }
        destruct r as [|h' r'].
        -- rewrite forEach_beyond by (rewrite Hh', app_nil_r; lia).
           simpl. split; auto.
        -- rewrite (Hl h').
           destruct (IH (pre ++ [h']) r' c') as [E1 E2].
           ++ rewrite <- app_assoc. exact Hh'.
           ++ cbn [forallb] in Hs2. apply andb_true_iff in Hs2. tauto.
           ++ rewrite <- app_assoc, wrapper_ids_app. exact Hnd1.
           ++ simpl in Hn. lia.
           ++ split; [exact E1|]. rewrite E2, <- app_assoc. reflexivity.
Qed.

Lemma visited_In_tl hs :
  (forall h, In h (visited hs) -> In h hs) /\
  (forall h, In h (visited (tl hs)) -> In h hs).
Proof.
  induction hs as [|x r [IH1 IH2]]; [simpl; auto|].
  split; [|intros h H; right; auto].
  intros h. destruct x as [cb|w cb]; simpl.
  - intros [->|H]; auto.
  - intros [->|H]; auto. right. apply IH2. now destruct r.
Qed.

Lemma visited_In h hs : In h (visited hs) -> In h hs.
Proof. apply visited_In_tl. Qed.

Lemma fold_invoke_deliveries event args l : forall c,
  forallb (sorted_ok event) l = true ->
  deliveries (trace (fold_left (fun c' h => invoke event h args c') l c)) =
  deliveries (trace c) ++ map (fun n => (n, event, args)) (user_callbacks l).
Proof.
  induction l as [|h l IH]; intros c Hs; simpl.
  - now rewrite app_nil_r.
  - cbn [forallb] in Hs. apply andb_true_iff in Hs. destruct Hs as [Hs1 Hs2].
    rewrite IH by auto. destruct h as [cb|w cb].
    + destruct cb; simpl in Hs1; try discriminate.
      cbn [invoke call_callback trace observe]. rewrite deliveries_app.
      cbn [deliveries]. rewrite <- app_assoc. reflexivity.
    + assert (Hcb : callback_event cb = Some event).
      { simpl in Hs1. destruct (callback_event cb) as [e|]; [|discriminate].
        apply String.eqb_eq in Hs1. now subst. }
      destruct (invoke_wrapper_grows c event w cb args c Hcb (grows_refl _ c))
        as [o [Eo Fo]].
      rewrite Eo, deliveries_app, (not_delivered_deliveries _ Fo), app_nil_r.
      reflexivity.
Qed.

(** X13. In every state the client can reach, [emit] invokes, in the order
    of the array, the handlers of the event except each one registered right
    behind a one-shot handler of the class: a one-shot handler removes itself
    while [forEach] runs, and the handler behind it moves to the index
    already visited.  Those handlers stay registered, the one-shot handlers
    that ran are gone, and the application's handlers that are passed over
    do not get the event. *)
Theorem emit_passes_over_the_handler_behind_a_wrapper (pid0 : string)
    (inputs : list Input) (event : string) (args : Payload) :
  let c := run inputs (new_MediasoupClient pid0) in
  let hs := handlersOf event c in
  emit event args c =
    fold_left (fun c' h => invoke event h args c') (visited hs)
      (observe (Emitted event args) c) /\
  handlersOf event (emit event args c) = survivors hs /\
  deliveries (trace (emit event args c)) =
    deliveries (trace c) ++
    map (fun n => (n, event, args)) (user_callbacks (visited hs)).
Proof.
  intros c hs.
  assert (HI : Inv serial c) by (apply run_Inv, new_Inv).
  assert (HF : Fresh c) by (apply run_Fresh, new_Fresh).
  pose proof (i_sorted _ _ _ HI event) as Hs. fold hs in Hs.
  pose proof (f_nodup _ HF event) as Hnd. fold hs in Hnd.
  assert (Hhs : handlersOf event c = hs) by reflexivity.
  clearbody hs c.
  assert (E : emit event args c =
              fold_left (fun c' h => invoke event h args c') (visited hs)
                (observe (Emitted event args) c) /\
              handlersOf event (emit event args c) = survivors hs).
  { unfold emit.
    change (eventHandlers (observe (Emitted event args) c)) with (eventHandlers c).
    unfold handlersOf in Hhs.
    destruct (JsMap.get event (eventHandlers c)) as [l|] eqn:Eg.
    - subst l.
      apply (forEach_visits event args (List.length hs) [] hs
               (observe (Emitted event args) c)); auto.
      unfold handlersOf. cbn [eventHandlers observe]. now rewrite Eg.
    - subst hs. simpl. split; auto. unfold handlersOf.
      cbn [eventHandlers observe]. now rewrite Eg. }
  destruct E as [E1 E2]. split; [exact E1|]. split; [exact E2|].
  rewrite E1, fold_invoke_deliveries.
  - cbn [trace observe]. rewrite deliveries_app. cbn [deliveries].
    now rewrite app_nil_r.
  - rewrite forallb_forall in *. intros h Hin. apply Hs. now apply visited_In.
Qed.

(** *** The errors of [produceTrack] *)

(** [produceTrack] failed at its second check. *)
Definition transport_missing (o : Obs) : bool :=
  match o with
  | ProduceSettled _ (Rejected m) => String.eqb m "Producer transport not created"
  | _ => false
  end.

Definition transport_found (o : Obs) : bool := negb (transport_missing o).

Lemma found_with_loading c0 x c :
  grows transport_found c0 c -> grows transport_found c0 (with_loading x c).
Proof. intros H. eapply grows_same_trace; [|exact H]; reflexivity. Qed.

Lemma found_close_all c0 rs c :
  grows transport_found c0 c -> grows transport_found c0 (close_all rs c).
Proof.
  intros H. eapply grows_trans; [exact H|]. rewrite close_all_observed.
  exists (map CloseCalled rs). split; [reflexivity|]. now induction rs.
Qed.

Lemma invoke_found c0 event h args c :
  grows transport_found c0 c -> grows transport_found c0 (invoke event h args c).
Proof.
  intros H. destruct h as [cb|w cb]; destruct cb; unfold_methods; branches;
    inv_eqs; auto 10 with grows.
Qed.

Lemma emit_found c0 event args c :
  grows transport_found c0 c -> grows transport_found c0 (emit event args c).
Proof.
  intros H. apply emit_ind; [auto with grows|].
  intros h c' H' _. now apply invoke_found.
Qed.

Lemma flush_found c0 c :
  grows transport_found c0 c ->
  grows transport_found c0 (handleRtpCapabilities_resume c).
Proof.
  intros H. unfold handleRtpCapabilities_resume.
  destruct (pendingExistingProducers c) as [|p l]; auto.
  assert (H' : grows transport_found c0 (with_pendingExistingProducers [] c))
    by (eapply grows_same_trace; [|exact H]; reflexivity).
  revert H'. generalize (with_pendingExistingProducers [] c).
  induction (p :: l) as [|x xs IH]; intros y Hy; simpl; auto.
  apply IH. now apply emit_found.
Qed.

Ltac found_step :=
  lazymatch goal with
  | |- grows _ _ (emit _ _ _) => apply emit_found
  | |- grows _ _ (handleRtpCapabilities_resume _) => apply flush_found
  | |- grows _ _ (close_all _ _) => apply found_close_all
  | |- grows _ _ (send _ _) => apply grows_send; [reflexivity|]
  | |- grows _ _ (once _ _ _) => apply grows_once
  | |- grows _ _ (on _ _ _) => apply grows_on
  | |- grows _ _ (observe _ _) => apply grows_observe; [reflexivity|]
  | |- grows _ _ (?f ?x ?y) =>
      apply (grows_same_trace transport_found _ y); [reflexivity|]
  end.

Lemma handle_found i c : grows transport_found c (handle i c).
Proof.
  pose proof (grows_refl transport_found c) as H.
  destruct i; unfold_inputs; unfold_methods; cases; inv_eqs;
    repeat found_step; assumption.
Qed.

Lemma step_found c i : grows transport_found c (step c i).
Proof.
  unfold step. eapply grows_trans; [apply handle_found|].
  eapply grows_weaken; [|apply run_reactions_grows].
  intros [] Ho; simpl in *; auto; discriminate.
Qed.

Lemma run_found inputs : forall c, grows transport_found c (run inputs c).
Proof.
  induction inputs as [|i l IH]; intros c; simpl; [apply grows_refl|].
  eapply grows_trans; [apply step_found | apply IH].
Qed.

(** X14. [produceTrack] never fails with [Producer transport not created]:
    whatever is called and whatever arrives, its second check finds the
    transport, because the call goes on only after [setupProducerTransport]
    has assigned it.  (When [createSendTransport] throws, the call does not
    go on at all.) *)
Theorem producer_transport_is_never_missing (pid0 : string) (inputs : list Input) :
  existsb transport_missing (trace (run inputs (new_MediasoupClient pid0))) = false.
Proof.
  destruct (run_found inputs (new_MediasoupClient pid0)) as [l [E F]].
  rewrite E. cbn [trace new_MediasoupClient app]. clear E.
  induction l as [|o l IH]; [reflexivity|].
  cbn [forallb existsb] in *. apply andb_true_iff in F. destruct F as [F1 F2].
  unfold transport_found in F1. apply negb_true_iff in F1. rewrite F1.
  now apply IH.
Qed.

(** *** The requests of the engine *)

(** A request relayed for the engine, and its reply: the one-shot handler
    behind the application's handlers resumes the engine, once. *)
Lemma relay_round_trip c event cb m args :
  ws c = OPEN ->
  forallb is_user (handlersOf event c) = true ->
  callback_event cb = Some event ->
  (forall x, call_callback event cb args x = observe (EngineResumed cb args) x) ->
  let c1 := send m (once event cb c) in
  trace c1 = trace c ++ [Sent m] /\
  consumeQueue c1 = consumeQueue c /\
  trace (emit event args c1) =
    trace c1 ++
    Emitted event args
    :: delivered_to event args (handlersOf event c) ++ [EngineResumed cb args] /\
  handlersOf event (emit event args c1) = handlersOf event c /\
  consumeQueue (emit event args c1) = consumeQueue c.
Proof.
  intros Hw Hu Hcb Hcall c1.
  assert (Hh : handlersOf event c1 =
               handlersOf event c ++ [Wrapper (nextObject c) cb]).
  { unfold c1. now rewrite handlersOf_send, handlersOf_once_same. }
  assert (E1 : c1 = observe (Sent m) (once event cb c)).
  { unfold c1, send. destruct (session_once_self event cb c) as [Hws _].
    now rewrite Hws, Hw. }
  destruct (emit_once event args c1 (handlersOf event c) (nextObject c) cb []
              Hh Hu eq_refl Hcb) as [E H2].
  rewrite app_nil_r in H2.
  cbn [tl] in E. change (delivered_to event args []) with (@nil Obs) in E.
  rewrite observed_nil, Hcall in E.
  destruct (off_eq event (nextObject c)
              (observe (EngineResumed cb args)
                 (observed (Emitted event args
                            :: delivered_to event args (handlersOf event c)) c1)))
    as [m' Em].
  rewrite Em in E. clear Em.
  split; [|split; [|split; [|split]]].
  - rewrite E1. cbn [trace observe]. now rewrite trace_once.
  - rewrite E1. cbn [consumeQueue observe]. apply queue_once.
  - rewrite E. cbn [trace with_eventHandlers observe observed].
    rewrite <- app_assoc. reflexivity.
  - exact H2.
  - rewrite E. cbn [consumeQueue with_eventHandlers observe observed].
    rewrite E1. cbn [consumeQueue observe]. apply queue_once.
Qed.

(** The event, request, reply and callback of each request of the engine. *)
Definition connected_event (dir : Direction) : string :=
  match dir with
  | Sending => "producerTransportConnected"
  | Receiving => "consumerTransportConnected"
  end.

Definition connect_request (dir : Direction) (pid tid : string) (dtls : Opaque)
  : ClientMsg :=
  match dir with
  | Sending => connectProducerTransport pid tid dtls
  | Receiving => connectConsumerTransport pid tid dtls
  end.

Definition connected_reply (dir : Direction) : ServerMsg :=
  match dir with
  | Sending => producerTransportConnected
  | Receiving => consumerTransportConnected
  end.

Definition connected_callback (dir : Direction) (tid : string) : Callback :=
  match dir with
  | Sending => ProducerTransportConnectedCb tid
  | Receiving => ConsumerTransportConnectedCb tid
  end.

(** X15. The [connect] event of a transport is relayed to the server and
    answered once.  In a state the client can reach, with the socket open
    and no other [connect] waiting for its reply, the event sends one
    [connectProducerTransport] (or [connectConsumerTransport]) request with
    the client's participant id, the transport's id and the DTLS parameters;
    the server's reply is emitted to the application's handlers and calls the
    engine's [callback] once; the one-shot handler is gone afterwards, so a
    further reply calls nothing. *)
Theorem transport_connect_is_relayed (pid0 : string) (inputs : list Input)
    (dir : Direction) (tid : string) (dtls : Opaque) :
  let c := run inputs (new_MediasoupClient pid0) in
  let event := connected_event dir in
  ws c = OPEN ->
  forallb is_user (handlersOf event c) = true ->
  let c1 := step c (Engine_connect dir tid dtls) in
  let c2 := step c1 (Socket_message (connected_reply dir)) in
  let c3 := step c2 (Socket_message (connected_reply dir)) in
  trace c1 = trace c ++ [Sent (connect_request dir pid0 tid dtls)] /\
  trace c2 =
    trace c1 ++
    Emitted event NoArgs
    :: delivered_to event NoArgs (handlersOf event c)
       ++ [EngineResumed (connected_callback dir tid) NoArgs] /\
  handlersOf event c2 = handlersOf event c /\
  trace c3 =
    trace c2 ++ Emitted event NoArgs :: delivered_to event NoArgs (handlersOf event c).
Proof.
  intros c event.
  assert (HI : Inv serial c) by (apply run_Inv, new_Inv).
  assert (Hp : participantId c = pid0) by apply run_participantId.
  clearbody c. intros Hw Hu c1 c2 c3.
  assert (HI1 : Inv serial c1) by now apply step_Inv.
  assert (HI2 : Inv serial c2) by now apply step_Inv.
  destruct (relay_round_trip c event (connected_callback dir tid)
              (connect_request dir pid0 tid dtls) NoArgs Hw Hu)
    as [A1 [A2 [A3 [A4 A5]]]].
  { now destruct dir. }
  { intros x. now destruct dir. }
  assert (Eh1 : handle (Engine_connect dir tid dtls) c =
                send (connect_request dir pid0 tid dtls)
                  (once event (connected_callback dir tid) c)).
  { cbn [handle]. unfold on_transport_connect. rewrite Hp. now destruct dir. }
  assert (E1 : c1 = handle (Engine_connect dir tid dtls) c).
  { apply step_quiet; auto. now rewrite Eh1. }
  rewrite Eh1 in E1. rewrite <- E1 in A1, A2, A3, A4, A5.
  assert (Eh2 : handle (Socket_message (connected_reply dir)) c1 =
                emit event NoArgs c1) by now destruct dir.
  assert (E2 : c2 = emit event NoArgs c1).
  { rewrite <- Eh2. apply step_quiet; auto. rewrite Eh2. congruence. }
  rewrite <- E2 in A3, A4, A5.
  assert (Hu2 : forallb is_user (handlersOf event c2) = true) by now rewrite A4.
  assert (Eh3 : handle (Socket_message (connected_reply dir)) c2 =
                emit event NoArgs c2) by now destruct dir.
  assert (E3 : c3 = emit event NoArgs c2).
  { rewrite <- Eh3. apply step_quiet; auto. rewrite Eh3, emit_users by auto.
    reflexivity. }
  split; [exact A1|]. split; [exact A3|]. split; [exact A4|].
  rewrite E3, emit_users by auto. cbn [trace observed]. now rewrite A4.
Qed.

(** X16. The [produce] event of the producer transport is relayed to the
    server and answered once.  In a state the client can reach, with the
    socket open and no other [produce] waiting for its reply, the event
    sends one [produce] request with the client's participant id, the
    transport's id, the kind and the RTP parameters; the [produced] reply is
    emitted to the application's handlers and calls the engine's [callback]
    once, with the id the server sent. *)
Theorem transport_produce_is_relayed (pid0 : string) (inputs : list Input)
    (tid kind : string) (rtp : Opaque) (id : string) :
  let c := run inputs (new_MediasoupClient pid0) in
  ws c = OPEN ->
  forallb is_user (handlersOf "produced" c) = true ->
  let c1 := step c (Engine_produce tid kind rtp) in
  let c2 := step c1 (Socket_message (produced id)) in
  trace c1 = trace c ++ [Sent (produce pid0 tid kind rtp)] /\
  trace c2 =
    trace c1 ++
    Emitted "produced" (IdArgs id)
    :: delivered_to "produced" (IdArgs id) (handlersOf "produced" c)
       ++ [EngineResumed (ProducedCb tid) (IdArgs id)] /\
  handlersOf "produced" c2 = handlersOf "produced" c.
Proof.
  intros c.
  assert (HI : Inv serial c) by (apply run_Inv, new_Inv).
  assert (Hp : participantId c = pid0) by apply run_participantId.
  clearbody c. intros Hw Hu c1 c2.
  assert (HI1 : Inv serial c1) by now apply step_Inv.
  destruct (relay_round_trip c "produced" (ProducedCb tid)
              (produce pid0 tid kind rtp) (IdArgs id) Hw Hu eq_refl
              (fun x => eq_refl))
    as [A1 [A2 [A3 [A4 A5]]]].
  assert (Eh1 : handle (Engine_produce tid kind rtp) c =
                send (produce pid0 tid kind rtp) (once "produced" (ProducedCb tid) c)).
  { cbn [handle]. unfold on_transport_produce. now rewrite Hp. }
  assert (E1 : c1 = handle (Engine_produce tid kind rtp) c).
  { apply step_quiet; auto. now rewrite Eh1. }
  rewrite Eh1 in E1. rewrite <- E1 in A1, A2, A3, A4, A5.
  assert (E2 : c2 = emit "produced" (IdArgs id) c1).
  { apply step_quiet; auto. cbn [handle onmessage]. congruence. }
  rewrite <- E2 in A3, A4.
  split; [exact A1|]. split; [exact A3 | exact A4].
Qed.

(** *** Loads that do not make the client ready *)

Lemma run_reactions_trace_eq c :
  serial (consumeQueue c) = true -> trace (run_reactions c) = trace c.
Proof. intros H. now rewrite run_reactions_serial. Qed.

(** X17. The flush of [pendingExistingProducers] follows every load that
    succeeds, not readiness: when a second [rtpCapabilities] message has
    replaced the device while the first one was loading, the end of the
    first load republishes the buffered announcements and empties the buffer
    although the client is not ready, its current device still loading. *)
Theorem load_of_replaced_device_flushes (c : Client) (d d' : Device) :
  existsb (Nat.eqb d) (loading c) = true ->
  device c = Some d' ->
  d <> d' ->
  existsb (Nat.eqb d') (loaded c) = false ->
  let c' := step c (Engine_load d true) in
  capability c' = Loading /\
  emissions (trace c') =
    emissions (trace c) ++ map announcement (pendingExistingProducers c) /\
  pendingExistingProducers c' = [].
Proof.
  intros Hl Hd Hne Hnl c'.
  set (x := with_loaded (loaded (with_loading (remove_device d (loading c)) c) ++ [d])
              (with_loading (remove_device d (loading c)) c)).
  assert (Ec : c' = run_reactions (handleRtpCapabilities_resume x)).
  { unfold c', step. cbn [handle]. unfold load_settled. now rewrite Hl. }
  clearbody c'. subst c'.
  rewrite run_reactions_emissions, run_reactions_pending.
  split; [|exact (handleRtpCapabilities_resume_spec x)].
  destruct (handleRtpCapabilities_resume_session x x (same_session_refl x))
    as [_ [Hdev Hld]].
  destruct (run_reactions_session _ _
              (same_session_refl (handleRtpCapabilities_resume x)))
    as [_ [_ [Hdev' [_ [_ [_ [_ [_ Hld']]]]]]]].
  unfold capability. rewrite Hdev', Hld', Hdev, Hld. unfold x. simpl. rewrite Hd.
  assert (Hf : existsb (Nat.eqb d') (loaded c ++ [d]) = false).
  { rewrite existsb_app. apply orb_false_iff. split; [exact Hnl|].
    simpl. destruct (Nat.eqb_spec d' d); [congruence | reflexivity]. }
  now rewrite Hf.
Qed.

(** X18. A load that fails leaves the device assigned and not loaded: the
    client stays in the loading state, nothing is emitted and the buffered
    announcements are kept; and since only [this.device] is checked,
    [produceTrack] does not fail afterwards but requests a producer
    transport. *)
Theorem failed_load_leaves_the_device (pid0 : string) (inputs : list Input)
    (d : Device) (track : Track) :
  let c := run inputs (new_MediasoupClient pid0) in
  existsb (Nat.eqb d) (loading c) = true ->
  device c = Some d ->
  existsb (Nat.eqb d) (loaded c) = false ->
  let c' := step c (Engine_load d false) in
  capability c' = Loading /\
  trace c' = trace c /\
  pendingExistingProducers c' = pendingExistingProducers c /\
  (ws c = OPEN -> producerTransport c = None ->
   trace (step c' (Call_produceTrack track)) =
   trace c' ++ [Sent (createProducerTransport_req pid0)]).
Proof.
  intros c.
  assert (HI : Inv serial c) by (apply run_Inv, new_Inv).
  assert (Hp : participantId c = pid0) by apply run_participantId.
  clearbody c. intros Hl Hd Hnl c'.
  assert (HI' : Inv serial c') by now apply step_Inv.
  assert (Ec : c' = with_loading (remove_device d (loading c)) c).
  { unfold c'. rewrite step_quiet; auto; cbn [handle]; unfold load_settled;
      now rewrite Hl. }
  split; [|split; [|split]].
  - rewrite Ec. unfold capability. cbn [device loaded with_loading].
    now rewrite Hd, Hnl.
  - now rewrite Ec.
  - now rewrite Ec.
  - intros Hw Hpt.
    assert (Hd' : device c' = Some d) by (rewrite Ec; exact Hd).
    assert (Hw' : ws c' = OPEN) by (rewrite Ec; exact Hw).
    assert (Hpt' : producerTransport c' = None) by (rewrite Ec; exact Hpt).
    assert (Hp' : participantId c' = pid0) by (rewrite Ec; exact Hp).
    destruct (produce_call_frame c' track d Hd' Hpt' Hw') as [A1 [_ [_ [A4 _]]]].
    rewrite step_quiet by auto. now rewrite A1, Hp'.
Qed.

(** *** What stays registered *)

Lemma has_set {V} (k k0 : string) (v : V) (m : JsMap.t V) :
  JsMap.has k0 m = true -> JsMap.has k0 (JsMap.set k v m) = true.
Proof.
  unfold JsMap.has. destruct (String.eqb_spec k0 k) as [->|Hne].
  - now rewrite get_set_same.
  - now rewrite get_set_other.
Qed.

(** The producers and consumers registered in [c] are registered in [c']. *)
Definition registered (c c' : Client) : Prop :=
  (forall id, JsMap.has id (producers c) = true ->
              JsMap.has id (producers c') = true) /\
  (forall id, JsMap.has id (consumers c) = true ->
              JsMap.has id (consumers c') = true).

Lemma registered_refl c : registered c c.
Proof. unfold registered. auto. Qed.

Lemma registered_trans c1 c2 c3 :
  registered c1 c2 -> registered c2 c3 -> registered c1 c3.
Proof. unfold registered. intros [A1 A2] [B1 B2]. auto. Qed.

Lemma registered_same c0 c c' :
  producers c' = producers c -> consumers c' = consumers c ->
  registered c0 c -> registered c0 c'.
Proof. unfold registered. intros -> ->. auto. Qed.

Lemma registered_session c0 c c' :
  same_session c c' -> registered c0 c -> registered c0 c'.
Proof.
  intros [_ [_ [_ [_ [Hp [Hc _]]]]]]. now apply registered_same.
Qed.

Lemma registered_producer c0 p c :
  registered c0 c ->
  registered c0 (with_producers (JsMap.set (producer_id p) p (producers c)) c).
Proof.
  intros [A1 A2]. split; cbn [producers consumers with_producers]; auto.
  intros id H. apply has_set. auto.
Qed.

Lemma registered_consumer c0 x c :
  registered c0 c ->
  registered c0 (with_consumers (JsMap.set (consumer_id x) x (consumers c)) c).
Proof.
  intros [A1 A2]. split; cbn [producers consumers with_consumers]; auto.
  intros id H. apply has_set. auto.
Qed.

Lemma flush_registered c0 c :
  registered c0 c -> registered c0 (handleRtpCapabilities_resume c).
Proof.
  intros H. unfold handleRtpCapabilities_resume.
  destruct (pendingExistingProducers c) as [|p l]; auto.
  eapply registered_session; [apply flush_session, same_session_refl|].
  revert H. apply registered_same; reflexivity.
Qed.

Ltac registered_step :=
  lazymatch goal with
  | |- registered _ (with_producers (JsMap.set _ _ _) _) => apply registered_producer
  | |- registered _ (with_consumers (JsMap.set _ _ _) _) => apply registered_consumer
  | |- registered _ (send _ _) =>
      eapply registered_session; [apply session_send, same_session_refl|]
  | |- registered _ (once _ _ _) =>
      eapply registered_session; [apply session_once, same_session_refl|]
  | |- registered _ (on _ _ _) =>
      eapply registered_session; [apply session_on, same_session_refl|]
  | |- registered _ (emit _ _ _) =>
      eapply registered_session; [apply emit_session, same_session_refl|]
  | |- registered _ (handleRtpCapabilities_resume _) => apply flush_registered
  | |- registered _ (?f ?x ?y) =>
      apply (fun c0 => registered_same c0 y); [reflexivity | reflexivity |]
  end.

Definition is_disconnect (i : Input) : bool :=
  match i with Call_disconnect => true | _ => false end.

Lemma step_registered c i : is_disconnect i = false -> registered c (step c i).
Proof.
  intros Hi. unfold step.
  eapply registered_session; [apply run_reactions_session, same_session_refl|].
  pose proof (registered_refl c) as H.
  destruct i; try discriminate; unfold_inputs; unfold_methods; cases; inv_eqs;
    repeat registered_step; assumption.
Qed.

Lemma run_registered later : forall c,
  existsb is_disconnect later = false -> registered c (run later c).
Proof.
  induction later as [|i l IH]; intros c H; [apply registered_refl|].
  cbn [existsb] in H. apply orb_false_iff in H. destruct H as [Hi Hl].
  change (run (i :: l) c) with (run l (step c i)).
  apply registered_trans with (c2 := step c i).
  - now apply step_registered.
  - now apply IH.
Qed.

(** X19. Only [disconnect] unregisters producers and consumers: as long as
    [disconnect] is not called, a producer or consumer id that is in the
    [producers] or [consumers] map stays in it, whatever is called or
    arrives; in particular the consumers of a participant that left are
    kept. *)
Theorem registered_until_disconnect (pid0 : string) (inputs later : list Input)
    (id : string) :
  let c := run inputs (new_MediasoupClient pid0) in
  existsb is_disconnect later = false ->
  (JsMap.has id (producers c) = true ->
   JsMap.has id (producers (run later c)) = true) /\
  (JsMap.has id (consumers c) = true ->
   JsMap.has id (consumers (run later c)) = true).
Proof.
  intros c H. destruct (run_registered later c H) as [A1 A2]. auto.
Qed.

(** *** The handlers of the application *)

Lemma user_callbacks_splice1 w : forall hs i,
  indexOf w hs = Some i -> user_callbacks (splice1 i hs) = user_callbacks hs.
Proof.
  induction hs as [|h r IH]; intros i H; simpl in H; [discriminate|].
  destruct (is_wrapper w h) eqn:Ew.
  - inversion H; subst i. destruct h as [cb|w' cb]; [discriminate|]. reflexivity.
  - destruct (indexOf w r) as [i'|]; [|discriminate]. inversion H; subst i.
    change (splice1 (S i') (h :: r)) with ([h] ++ splice1 i' r).
    change (h :: r) with ([h] ++ r).
    now rewrite !user_callbacks_app, IH.
Qed.

(** The application's handlers of [e] in [c'] are those in [c]. *)
Definition same_users (e : string) (c c' : Client) : Prop :=
  user_callbacks (handlersOf e c') = user_callbacks (handlersOf e c).

Lemma same_users_same e c0 c c' :
  handlersOf e c' = handlersOf e c -> same_users e c0 c -> same_users e c0 c'.
Proof. unfold same_users. intros ->. auto. Qed.

Lemma same_users_send e c0 m c : same_users e c0 c -> same_users e c0 (send m c).
Proof. apply same_users_same, handlersOf_send. Qed.

Lemma same_users_once e c0 event cb c :
  same_users e c0 c -> same_users e c0 (once event cb c).
Proof.
  unfold same_users. intros H. destruct (String.eqb_spec e event) as [->|Hne].
  - rewrite handlersOf_once_same, user_callbacks_app. simpl. now rewrite app_nil_r.
  - now rewrite handlersOf_once_other.
Qed.

Lemma same_users_off e c0 event w c :
  same_users e c0 c -> same_users e c0 (off event w c).
Proof.
  unfold same_users. intros H. destruct (String.eqb_spec e event) as [->|Hne].
  - rewrite handlersOf_off_same.
    destruct (indexOf w (handlersOf event c)) as [i|] eqn:Ei; auto.
    now rewrite (user_callbacks_splice1 w _ _ Ei).
  - now rewrite handlersOf_off_other.
Qed.

Lemma same_users_close_all e c0 rs c :
  same_users e c0 c -> same_users e c0 (close_all rs c).
Proof. rewrite close_all_observed. now apply same_users_same. Qed.

Ltac users_step :=
  lazymatch goal with
  | |- same_users _ _ (send _ _) => apply same_users_send
  | |- same_users _ _ (once _ _ _) => apply same_users_once
  | |- same_users _ _ (off _ _ _) => apply same_users_off
  | |- same_users _ _ (close_all _ _) => apply same_users_close_all
  | |- same_users _ _ (?f ?x ?y) =>
      apply (fun c0 => same_users_same _ c0 y); [reflexivity|]
  end.

Lemma same_users_refl e c : same_users e c c.
Proof. reflexivity. Qed.

Lemma invoke_same_users e c0 event h args c :
  same_users e c0 c -> same_users e c0 (invoke event h args c).
Proof.
  intros H. destruct h as [cb|w cb]; destruct cb;
    unfold_methods; cases; inv_eqs; repeat users_step; assumption.
Qed.

Lemma emit_same_users e c0 event args c :
  same_users e c0 c -> same_users e c0 (emit event args c).
Proof.
  intros H. apply emit_ind; [now users_step|].
  intros h c' H' _. now apply invoke_same_users.
Qed.

Lemma flush_same_users e c0 c :
  same_users e c0 c -> same_users e c0 (handleRtpCapabilities_resume c).
Proof.
  intros H. unfold handleRtpCapabilities_resume.
  destruct (pendingExistingProducers c) as [|p l]; auto.
  assert (H' : same_users e c0 (with_pendingExistingProducers [] c))
    by now users_step.
  revert H'. generalize (with_pendingExistingProducers [] c).
  induction (p :: l) as [|x xs IH]; intros y Hy; simpl; auto.
  apply IH. now apply emit_same_users.
Qed.

Lemma _consumeTrack_same_users e c0 k call c :
  same_users e c0 c -> same_users e c0 (fst (_consumeTrack k call c)).
Proof.
  intros H. unfold_methods; cases; inv_eqs; cbn [fst]; repeat users_step;
    assumption.
Qed.

Lemma run_reactions_same_users e c0 c :
  same_users e c0 c -> same_users e c0 (run_reactions c).
Proof.
  intros H. unfold run_reactions.
  pose proof (react_ind (same_users e c0)) as R.
  specialize (R (fun k call c1 H1 =>
                   _consumeTrack_same_users e c0 k call _
                     (same_users_same e c0 c1 (observe (Started k) c1) eq_refl H1))).
  specialize (R (consumeQueue c) (Some (Fulfilled None)) 0 c H).
  destruct (react (Some (Fulfilled None)) 0 (consumeQueue c) c).
  simpl in R. now users_step.
Qed.

(** The callbacks that the [on] calls among the inputs register for [e]. *)
Fixpoint registrations (e : string) (inputs : list Input) : list nat :=
  match inputs with
  | [] => []
  | Call_on event n :: r =>
      if String.eqb e event then n :: registrations e r else registrations e r
  | _ :: r => registrations e r
  end.

Lemma registrations_app e l1 l2 :
  registrations e (l1 ++ l2) = registrations e l1 ++ registrations e l2.
Proof.
  induction l1 as [|[] l1 IH]; simpl; auto.
  destruct (String.eqb e event); simpl; now rewrite IH.
Qed.

Lemma step_users e c i :
  user_callbacks (handlersOf e (step c i)) =
  user_callbacks (handlersOf e c) ++ registrations e [i].
Proof.
  unfold step.
  assert (H : user_callbacks (handlersOf e (handle i c)) =
              user_callbacks (handlersOf e c) ++ registrations e [i]).
  { destruct i; cbn [registrations]; rewrite ?app_nil_r;
      try (match goal with
           | |- user_callbacks (handlersOf e (handle (Call_on _ _) c)) = _ => fail 1
           | |- user_callbacks (handlersOf e (handle ?i c)) = _ =>
               change (same_users e c (handle i c))
           end;
           pose proof (same_users_refl e c) as H;
           unfold_inputs; unfold_methods; cases; inv_eqs;
           repeat first [ apply emit_same_users | apply flush_same_users
                        | users_step ];
           assumption).
    cbn [handle]. destruct (String.eqb_spec e event) as [->|Hne].
    - now rewrite handlersOf_on_same, user_callbacks_app.
    - rewrite handlersOf_on_other by auto. now rewrite app_nil_r. }
  rewrite <- H. apply run_reactions_same_users. reflexivity.
Qed.

(** X20. The application's handlers of an event are exactly the callbacks
    passed to [on] for that event, in the order of the calls: nothing the
    client does, [disconnect] included, removes or reorders them, and the
    one-shot handlers of the class come and go between them. *)
Theorem application_handlers_are_the_on_calls (pid0 : string)
    (inputs : list Input) (e : string) :
  user_callbacks (handlersOf e (run inputs (new_MediasoupClient pid0))) =
  registrations e inputs.
Proof.
  assert (H : forall l c,
             user_callbacks (handlersOf e (run l c)) =
             user_callbacks (handlersOf e c) ++ registrations e l).
  { induction l as [|i l IH]; intros c.
    - simpl. now rewrite app_nil_r.
    - change (run (i :: l) c) with (run l (step c i)).
      rewrite IH, step_users. change (i :: l) with ([i] ++ l).
      now rewrite registrations_app, app_assoc. }
  rewrite H. reflexivity.
Qed.

(** *** One consumer transport for each participant *)

(** What only the handler of [createConsumerTransport] and the methods
    [handleParticipantLeft] and [disconnect] write: the array of
    [consumerTransportCreated] and the map of consumer transports. *)
Definition kept (c0 c : Client) : Prop :=
  handlersOf "consumerTransportCreated" c = handlersOf "consumerTransportCreated" c0 /\
  consumerTransports c = consumerTransports c0.

Lemma kept_refl c : kept c c.
Proof. split; reflexivity. Qed.

Lemma kept_same c0 c c' :
  handlersOf "consumerTransportCreated" c' = handlersOf "consumerTransportCreated" c ->
  consumerTransports c' = consumerTransports c ->
  kept c0 c -> kept c0 c'.
Proof. unfold kept. intros -> ->. auto. Qed.

Lemma transports_send m c : consumerTransports (send m c) = consumerTransports c.
Proof. unfold send. now destruct (ws c). Qed.

Lemma transports_once event cb c :
  consumerTransports (once event cb c) = consumerTransports c.
Proof. destruct (once_eq event cb c) as [m ->]. reflexivity. Qed.

Lemma transports_on event h c : consumerTransports (on event h c) = consumerTransports c.
Proof. unfold on. now destruct (JsMap.has event (eventHandlers c)). Qed.

Lemma transports_off event w c : consumerTransports (off event w c) = consumerTransports c.
Proof. destruct (off_eq event w c) as [m ->]. reflexivity. Qed.

Lemma kept_send c0 m c : kept c0 c -> kept c0 (send m c).
Proof. apply kept_same; [apply handlersOf_send | apply transports_send]. Qed.

Lemma kept_once c0 event cb c :
  event <> "consumerTransportCreated" -> kept c0 c -> kept c0 (once event cb c).
Proof.
  intros Hne. apply kept_same; [|apply transports_once].
  apply handlersOf_once_other. congruence.
Qed.

Lemma kept_off c0 event w c :
  event <> "consumerTransportCreated" -> kept c0 c -> kept c0 (off event w c).
Proof.
  intros Hne. apply kept_same; [|apply transports_off].
  apply handlersOf_off_other. congruence.
Qed.

Lemma kept_close_all c0 rs c : kept c0 c -> kept c0 (close_all rs c).
Proof. rewrite close_all_observed. now apply kept_same. Qed.

Ltac kept_step :=
  lazymatch goal with
  | |- kept _ (send _ _) => apply kept_send
  | |- kept _ (once _ _ _) => apply kept_once; [discriminate|]
  | |- kept _ (off _ _ _) => apply kept_off; [discriminate|]
  | |- kept _ (close_all _ _) => apply kept_close_all
  | |- kept _ (?f ?x ?y) =>
      apply (fun c0 => kept_same c0 y); [reflexivity | reflexivity |]
  end.

(** A handler of another event leaves both as they are. *)
Lemma invoke_kept c0 event h args c :
  event <> "consumerTransportCreated" ->
  sorted_ok event h = true ->
  kept c0 c -> kept c0 (invoke event h args c).
Proof.
  intros Hne Hs H. destruct h as [cb|w cb].
  - destruct cb; simpl in Hs; try discriminate. cbn [invoke call_callback].
    now kept_step.
  - simpl in Hs. destruct cb; simpl in Hs; try discriminate;
      apply String.eqb_eq in Hs; subst event; try congruence;
      unfold_methods; cases; inv_eqs; repeat kept_step; assumption.
Qed.

Lemma emit_kept c0 event args c :
  event <> "consumerTransportCreated" ->
  Inv serial_pre c -> kept c0 c ->
  Inv serial_pre (emit event args c) /\ kept c0 (emit event args c).
Proof.
  intros Hne HI H.
  apply emit_ind with (P := fun c' => Inv serial_pre c' /\ kept c0 c').
  - split; [|now kept_step]. unfold Inv in *. queue. auto with inv.
  - intros h c' [HI' H'] Hin. split; [now apply invoke_Inv|].
    apply invoke_kept; auto.
    pose proof (i_sorted _ _ _ HI' event) as Hs. rewrite forallb_forall in Hs. auto.
Qed.

Lemma flush_kept c0 c :
  Inv serial_pre c -> kept c0 c -> kept c0 (handleRtpCapabilities_resume c).
Proof.
  intros HI H. unfold handleRtpCapabilities_resume.
  destruct (pendingExistingProducers c) as [|p l]; auto.
  assert (H' : Inv serial_pre (with_pendingExistingProducers [] c) /\
               kept c0 (with_pendingExistingProducers [] c)).
  { split; [|now kept_step]. unfold Inv in *. now apply Inv0_with_pendingExistingProducers. }
  revert H'. generalize (with_pendingExistingProducers [] c).
  induction (p :: l) as [|x xs IH]; intros y [Hy1 Hy2]; simpl; auto.
  apply IH. apply emit_kept; auto. discriminate.
Qed.

(** The inputs that write one of the two. *)
Definition writes_transports (i : Input) : bool :=
  match i with
  | Call_on _ _ | Call_disconnect
  | Socket_message (consumerTransportCreated _)
  | Socket_message (participantLeft _) => true
  | _ => false
  end.

Lemma handle_kept c i :
  Inv serial_pre c -> writes_transports i = false -> kept c (handle i c).
Proof.
  intros HI Hi. pose proof (kept_refl c) as H.
  destruct i as [| | | | | | |data| | | | |]; try discriminate;
    [| | | | |destruct data; try discriminate| | | | |];
    unfold_inputs; unfold_methods; cases; inv_eqs;
    repeat first
      [ apply flush_kept; [unfold Inv in *; queue; auto 14 with inv|]
      | apply emit_kept; [discriminate | unfold Inv in *; queue; auto 14 with inv |]
      | kept_step ];
    try assumption.
Qed.

Lemma get_delete_other {V} (k k0 : string) (m : JsMap.t V) :
  k0 <> k -> JsMap.get k0 (JsMap.delete k m) = JsMap.get k0 m.
Proof.
  intros Hne. induction m as [|[k' v'] m IH]; simpl; auto.
  destruct (String.eqb_spec k k') as [->|Hk]; simpl.
  - destruct (String.eqb_spec k0 k'); congruence.
  - now rewrite IH.
Qed.

Lemma get_delete_None {V} (k k0 : string) (m : JsMap.t V) :
  JsMap.get k0 m = None -> JsMap.get k0 (JsMap.delete k m) = None.
Proof.
  induction m as [|[k' v'] m IH]; simpl; auto.
  destruct (String.eqb_spec k0 k') as [->|Hk0]; [discriminate|].
  intros H. destruct (String.eqb_spec k k'); simpl; auto.
  destruct (String.eqb_spec k0 k'); [congruence | auto].
Qed.

(** A call waits for a new transport only when none is stored for its
    participant. *)
Definition Memo (c : Client) : Prop :=
  forall w k call,
    In (Wrapper w (ConsumerTransportCreatedCb k call))
       (handlersOf "consumerTransportCreated" c) ->
    JsMap.get (producerParticipantId call) (consumerTransports c) = None.

Lemma Memo_kept c0 c : kept c0 c -> Memo c0 -> Memo c.
Proof. intros [H1 H2] H w k call. rewrite H1, H2. apply H. Qed.

Lemma users_no_wrapper us w cb : forallb is_user us = true -> ~ In (Wrapper w cb) us.
Proof.
  intros H Hin. rewrite forallb_forall in H. specialize (H _ Hin). discriminate.
Qed.

Lemma no_links_users c event :
  Inv serial c ->
  event = "consumerTransportCreated" \/ event = "consumed" ->
  links_of (handlersOf event c) = [] ->
  forallb is_user (handlersOf event c) = true.
Proof.
  intros HI He HL.
  pose proof (i_sorted _ _ _ HI event) as Hs.
  rewrite forallb_forall in *. intros h Hin. specialize (Hs h Hin).
  destruct (sorted_cases event h Hs) as [[n ->]|[w [cb [-> Hcb]]]]; auto.
  exfalso.
  assert (Hh : handler_links (Wrapper w cb) <> []).
  { destruct cb; simpl in Hcb |- *; try discriminate;
      destruct He as [-> | ->]; discriminate. }
  destruct (handler_links (Wrapper w cb)) as [|k l] eqn:Ek; [congruence|].
  assert (In k (links_of (handlersOf event c)))
    by (eapply In_links_of; eauto; rewrite Ek; now left).
  rewrite HL in *. contradiction.
Qed.

(** The array of [consumerTransportCreated] after the message: the
    application's handlers, and no handler of the class. *)
Lemma created_leaves_users c data :
  Inv serial c -> Win (consumeQueue c) c ->
  forallb is_user
    (handlersOf "consumerTransportCreated"
       (handle (Socket_message (consumerTransportCreated data)) c)) = true.
Proof.
  intros HI HW.
  change (handle (Socket_message (consumerTransportCreated data)) c)
    with (emit "consumerTransportCreated" (TransportArgs data) c).
  destruct (links_of (handlersOf "consumerTransportCreated" c)) as [|k l] eqn:EL.
  - pose proof (no_links_users c _ HI (or_introl eq_refl) EL) as Hu.
    rewrite emit_users by auto. exact Hu.
  - destruct (wrapper_alone c "consumerTransportCreated" k HI HW (or_introl eq_refl))
      as [us1 [w [cb [us2 [Hh [Hu1 [Hu2 [Hcb _]]]]]]]].
    { rewrite EL. now left. }
    destruct (emit_once "consumerTransportCreated" (TransportArgs data) c us1 w cb us2
                Hh Hu1 Hu2 Hcb) as [_ H2].
    rewrite H2, forallb_app, Hu1, Hu2. reflexivity.
Qed.

Lemma handle_Memo c i :
  Inv serial c -> Win (consumeQueue c) c -> Memo c -> Memo (handle i c).
Proof.
  intros HI HW HM.
  destruct (writes_transports i) eqn:Ei.
  - destruct i as [|event n| | | | | |data| | | | |]; try discriminate.
    + (* on *)
      intros w k call Hin. cbn [handle] in Hin |- *. rewrite transports_on.
      apply (HM w k call).
      destruct (String.eqb_spec "consumerTransportCreated" event) as [<-|Hne].
      * rewrite handlersOf_on_same in Hin. apply in_app_or in Hin.
        destruct Hin as [Hin|[Hin|[]]]; [exact Hin | discriminate].
      * now rewrite handlersOf_on_other in Hin.
    + (* disconnect *)
      intros w k call _. cbn [handle].
      destruct (disconnect_spec c) as [_ [_ [_ [E _]]]]. now rewrite E.
    + destruct data; try discriminate.
      * (* consumerTransportCreated *)
        intros w k call Hin. exfalso.
        exact (users_no_wrapper _ _ _ (created_leaves_users c data HI HW) Hin).
      * (* participantLeft *)
        cbn [handle onmessage]. unfold handleParticipantLeft.
        set (c1 := match JsMap.get pid (consumerTransports c) with
                   | Some transport =>
                       let c0 := observe (CloseCalled (TheConsumerTransport transport)) c in
                       with_consumerTransports (JsMap.delete pid (consumerTransports c0)) c0
                   | None => c
                   end).
        assert (H1 : Inv serial_pre c1 /\ Memo c1).
        { unfold c1. destruct (JsMap.get pid (consumerTransports c)) as [t|].
          - split.
            + cbv zeta. unfold Inv in *. queue.
              apply Inv0_delete_transport, Inv0_observe; [reflexivity|].
              apply Inv_pre, HI.
            + intros w k call Hin. cbv zeta. cbn [consumerTransports with_consumerTransports observe].
              apply get_delete_None. apply (HM w k call). exact Hin.
          - split; [apply Inv_pre, HI | exact HM]. }
        destruct H1 as [HI1 HM1].
        eapply Memo_kept; [|exact HM1].
        apply emit_kept; [discriminate | exact HI1 | apply kept_refl].
  - eapply Memo_kept; [|exact HM]. apply handle_kept; auto. now apply Inv_pre.
Qed.

Lemma _consumeTrack_Memo k call c : Memo c -> Memo (fst (_consumeTrack k call c)).
Proof.
  intros HM. unfold _consumeTrack.
  destruct (device c) as [d|]; [|exact HM].
  destruct (JsMap.get (producerParticipantId call) (consumerTransports c)) as [t|] eqn:Eg.
  - unfold _consumeTrack_negotiate.
    assert (Hk : kept c (once "consumed" (ConsumedCb k t) c))
      by (apply kept_once; [discriminate | apply kept_refl]).
    destruct (device (once "consumed" (ConsumedCb k t) c)); cbn [fst].
    + eapply Memo_kept; [|exact HM]. now apply kept_send.
    + eapply Memo_kept; [|exact HM]. exact Hk.
  - cbn [fst]. unfold createConsumerTransport. intros w k' call' Hin.
    rewrite transports_send, transports_once.
    rewrite handlersOf_send, handlersOf_once_same in Hin.
    apply in_app_or in Hin. destruct Hin as [Hin|[Hin|[]]].
    + now apply (HM w k' call').
    + inversion Hin; subst. exact Eg.
Qed.

Lemma run_reactions_Memo c : Memo c -> Memo (run_reactions c).
Proof.
  intros H. unfold run_reactions.
  pose proof (react_ind Memo) as R.
  specialize (R (fun k call c1 H1 =>
                   _consumeTrack_Memo k call _
                     (Memo_kept c1 (observe (Started k) c1) (kept_refl _) H1))).
  specialize (R (consumeQueue c) (Some (Fulfilled None)) 0 c H).
  destruct (react (Some (Fulfilled None)) 0 (consumeQueue c) c).
  simpl in R. eapply Memo_kept; [|exact R]. now kept_step.
Qed.

Lemma run_Memo inputs : forall c,
  Inv serial c -> Win (consumeQueue c) c -> Memo c -> Memo (run inputs c).
Proof.
  induction inputs as [|i l IH]; intros c HI HW HM; simpl; auto.
  apply IH.
  - now apply step_Inv.
  - now apply step_Win.
  - unfold step. now apply run_reactions_Memo, handle_Memo.
Qed.

Lemma new_Memo pid0 : Memo (new_MediasoupClient pid0).
Proof. intros w k call []. Qed.

Lemma _consumeTrack_transports k call c :
  consumerTransports (fst (_consumeTrack k call c)) = consumerTransports c.
Proof.
  unfold _consumeTrack, _consumeTrack_negotiate, createConsumerTransport.
  destruct (device c); [|reflexivity].
  destruct (JsMap.get (producerParticipantId call) (consumerTransports c)).
  - destruct (device (once "consumed" (ConsumedCb k t) c)); cbn [fst];
      now rewrite ?transports_send, transports_once.
  - cbn [fst]. now rewrite transports_send, transports_once.
Qed.

Lemma run_reactions_transports c :
  consumerTransports (run_reactions c) = consumerTransports c.
Proof.
  unfold run_reactions.
  pose proof (react_ind (fun c' => consumerTransports c' = consumerTransports c)) as R.
  specialize (R (fun k call c1 H1 =>
                   eq_trans (_consumeTrack_transports k call (observe (Started k) c1)) H1)).
  specialize (R (consumeQueue c) (Some (Fulfilled None)) 0 c eq_refl).
  destruct (react (Some (Fulfilled None)) 0 (consumeQueue c) c). exact R.
Qed.

(** What the [consumerTransportCreated] message stores. *)
Lemma created_stores c data :
  Inv serial c -> Win (consumeQueue c) c ->
  let c' := handle (Socket_message (consumerTransportCreated data)) c in
  consumerTransports c' = consumerTransports c \/
  exists w k call t,
    In (Wrapper w (ConsumerTransportCreatedCb k call))
       (handlersOf "consumerTransportCreated" c) /\
    createRecvTransport data = Some t /\
    consumerTransports c' =
      JsMap.set (producerParticipantId call) t (consumerTransports c).
Proof.
  intros HI HW c'. unfold c'.
  change (handle (Socket_message (consumerTransportCreated data)) c)
    with (emit "consumerTransportCreated" (TransportArgs data) c).
  destruct (links_of (handlersOf "consumerTransportCreated" c)) as [|k l] eqn:EL.
  - left. rewrite emit_users; [reflexivity|].
    exact (no_links_users c _ HI (or_introl eq_refl) EL).
  - destruct (wrapper_alone c "consumerTransportCreated" k HI HW (or_introl eq_refl))
      as [us1 [w [cb [us2 [Hh [Hu1 [Hu2 [Hcb _]]]]]]]].
    { rewrite EL. now left. }
    destruct (emit_once "consumerTransportCreated" (TransportArgs data) c us1 w cb us2
                Hh Hu1 Hu2 Hcb) as [E _].
    rewrite E. cbn [consumerTransports observed]. rewrite transports_off.
    destruct cb; simpl in Hcb; try discriminate.
    set (c1 := observed (Emitted "consumerTransportCreated" (TransportArgs data)
                         :: delivered_to "consumerTransportCreated"
                              (TransportArgs data) us1) c).
    unfold call_callback, setupConsumerTransport.
    destruct (device c1) as [d|]; [|now left].
    destruct (createRecvTransport data) as [t|] eqn:Er; [|now left].
    right. exists w, link, call, t. split; [|split; [reflexivity|]].
    + rewrite Hh. apply in_or_app. right. now left.
    + unfold _consumeTrack_negotiate.
      set (x := with_consumerTransports
                  (JsMap.set (producerParticipantId call) t (consumerTransports c1)) c1).
      destruct (device (once "consumed" (ConsumedCb link t) x));
        cbn [settle_if settle consumerTransports with_consumeQueue];
        rewrite ?transports_send, transports_once; reflexivity.
Qed.

(** A stored transport stays stored, the same, until its participant leaves
    or the client disconnects. *)
Lemma step_keeps_stored c i ppid t :
  Inv serial c -> Win (consumeQueue c) c -> Memo c ->
  JsMap.get ppid (consumerTransports c) = Some t ->
  JsMap.get ppid (consumerTransports (step c i)) = Some t \/
  ((i = Socket_message (participantLeft ppid) \/ i = Call_disconnect) /\
   JsMap.get ppid (consumerTransports (step c i)) = None).
Proof.
  intros HI HW HM Hg. unfold step. rewrite run_reactions_transports.
  destruct (writes_transports i) eqn:Ei.
  - destruct i as [|event n| | | | | |data| | | | |]; try discriminate.
    + left. cbn [handle]. now rewrite transports_on.
    + right. split; [now right|]. cbn [handle].
      destruct (disconnect_spec c) as [_ [_ [_ [E _]]]]. now rewrite E.
    + destruct data; try discriminate.
      * left. destruct (created_stores c data HI HW) as [E|[w [k [call [t' [Hin [_ E]]]]]]];
          rewrite E; auto.
        rewrite get_set_other; auto.
        intros Heq. rewrite Heq in Hg. rewrite (HM w k call Hin) in Hg. discriminate.
      * cbn [handle onmessage]. unfold handleParticipantLeft.
        set (c1 := match JsMap.get pid (consumerTransports c) with
                   | Some transport =>
                       let c0 := observe (CloseCalled (TheConsumerTransport transport)) c in
                       with_consumerTransports (JsMap.delete pid (consumerTransports c0)) c0
                   | None => c
                   end).
        assert (H1 : Inv serial_pre c1 /\
                     consumerTransports c1 =
                       match JsMap.get pid (consumerTransports c) with
                       | Some _ => JsMap.delete pid (consumerTransports c)
                       | None => consumerTransports c
                       end).
        { unfold c1. destruct (JsMap.get pid (consumerTransports c)) as [t'|].
          - split; [|reflexivity]. cbv zeta. unfold Inv in *. queue.
            apply Inv0_delete_transport, Inv0_observe; [reflexivity|].
            apply Inv_pre, HI.
          - split; [apply Inv_pre, HI | reflexivity]. }
        destruct H1 as [HI1 E1].
        destruct (emit_kept c1 "participantLeft" (ParticipantArgs pid) c1)
          as [_ [_ E2]]; [discriminate | exact HI1 | apply kept_refl |].
        rewrite E2, E1.
        destruct (String.eqb_spec ppid pid) as [->|Hne].
        -- right. split; [now left|]. rewrite Hg.
           apply get_delete_same. apply (i_keys_t _ _ _ HI).
        -- left. destruct (JsMap.get pid (consumerTransports c)); auto.
           now rewrite get_delete_other.
  - left. destruct (handle_kept c i (Inv_pre _ HI) Ei) as [_ E]. now rewrite E.
Qed.

(** The first call for a participant, up to the stored transport. *)
Lemma first_consume_stores c ppid pid d data t :
  Inv serial c -> Win (consumeQueue c) c ->
  outstanding c = 0 -> device c = Some d -> ws c = OPEN ->
  JsMap.get ppid (consumerTransports c) = None ->
  createRecvTransport data = Some t ->
  let c1 := step c (Call_consumeTrack ppid pid) in
  let c2 := step c1 (Socket_message (consumerTransportCreated data)) in
  sent_messages (trace c1) =
    sent_messages (trace c) ++ [createConsumerTransport_req (participantId c)] /\
  sent_messages (trace c2) =
    sent_messages (trace c1) ++
    [consume (participantId c) (transport_id t) ppid pid d] /\
  consumerTransports c2 = JsMap.set ppid t (consumerTransports c).
Proof.
  intros HI HW Ho Hd Hw Hg Hr c1 c2.
  assert (HI1 : Inv serial c1) by now apply step_Inv.
  set (k := List.length (consumeQueue c)).
  set (call := {| producerParticipantId := ppid; producerId := pid |}).
  pose proof (consume_call_creates c ppid pid d HI Ho Hd Hw Hg) as E1.
  fold c1 k call in E1.
  set (c0 := observe (Started k) (consumeTrack ppid pid c)) in E1.
  assert (Hh1 : handlersOf "consumerTransportCreated" c1 =
                handlersOf "consumerTransportCreated" c ++
                [Wrapper (nextObject c) (ConsumerTransportCreatedCb k call)]).
  { rewrite E1.
    change (handlersOf "consumerTransportCreated"
              (once "consumerTransportCreated" (ConsumerTransportCreatedCb k call) c0) =
            handlersOf "consumerTransportCreated" c ++
            [Wrapper (nextObject c) (ConsumerTransportCreatedCb k call)]).
    now rewrite handlersOf_once_same. }
  destruct (once_eq "consumerTransportCreated" (ConsumerTransportCreatedCb k call) c0)
    as [m1 Em1].
  rewrite Em1 in E1. clear Em1.
  assert (Ht1 : trace c1 =
                trace c ++ [Started k; Sent (createConsumerTransport_req (participantId c))]).
  { rewrite E1. cbn. now rewrite <- app_assoc. }
  assert (Hd1 : device c1 = Some d) by (rewrite E1; exact Hd).
  assert (Hw1 : ws c1 = OPEN) by (rewrite E1; exact Hw).
  assert (Hp1 : participantId c1 = participantId c) by (rewrite E1; reflexivity).
  assert (Hm1 : consumerTransports c1 = consumerTransports c) by (rewrite E1; reflexivity).
  clear E1.
  pose proof (transport_created_negotiates c1
                (handlersOf "consumerTransportCreated" c) (nextObject c) k call d
                data t Hh1
                (idle_users c "consumerTransportCreated" HI HW Ho (or_introl eq_refl))
                Hd1 Hw1 Hr) as E2.
  rewrite Hp1, Hm1 in E2. cbn [producerParticipantId producerId call] in E2.
  set (os := Emitted "consumerTransportCreated" (TransportArgs data)
             :: delivered_to "consumerTransportCreated" (TransportArgs data)
                  (handlersOf "consumerTransportCreated" c)) in E2.
  set (cx := with_consumerTransports (JsMap.set ppid t (consumerTransports c))
               (observed os c1)) in E2.
  destruct (once_eq "consumed" (ConsumedCb k t) cx) as [m2 Em2].
  rewrite Em2 in E2. clear Em2.
  destruct (off_eq "consumerTransportCreated" (nextObject c)
              (observe (Sent (consume (participantId c) (transport_id t) ppid pid d))
                 (with_eventHandlers m2 (with_nextObject (S (nextObject cx)) cx))))
    as [m3 Em3].
  rewrite Em3 in E2. clear Em3.
  assert (E2s : c2 = handle (Socket_message (consumerTransportCreated data)) c1).
  { unfold c2. apply step_quiet; auto. rewrite E2. reflexivity. }
  rewrite <- E2s in E2.
  split; [|split].
  - rewrite Ht1, sent_messages_app. reflexivity.
  - rewrite E2. cbn [trace with_eventHandlers with_nextObject observe
                     with_consumerTransports observed cx].
    rewrite <- app_assoc, !sent_messages_app. unfold os.
    now rewrite sent_delivered.
  - rewrite E2. reflexivity.
Qed.


End WithEngine.

(** ** Runs on a concrete engine *)

(** An engine that refuses transport data without an id. *)
Definition createTransport (data : TransportData) : option Transport :=
  if String.eqb (data_id data) "" then None
  else Some {| transport_id := data_id data |}.

Abbreviation step' := (step createTransport createTransport).

Abbreviation run' := (run createTransport createTransport).

Definition transportData (id : string) : TransportData :=
  {| data_id := id; data_parameters := "ice+dtls" |}.

Definition consumedData (id : string) : ConsumedData :=
  {| consumed_id := id; consumed_producerId := "p1"; consumed_kind := "video";
     consumed_rtpParameters := "rtp" |}.

(** The socket opens, the capabilities arrive and the device loads. *)
Definition become_ready : list Input :=
  [Socket_open; Socket_message (rtpCapabilities "caps"); Engine_load 0 true].

(** Then a track of participant A is consumed. *)
Definition consume_from_A : list Input :=
  become_ready ++
  [Call_consumeTrack "A" "p1";
   Socket_message (consumerTransportCreated (transportData "t1"));
   Socket_message (consumed (consumedData "c1"));
   Engine_consumed 0 (Some {| consumer_id := "c1"; consumer_track := "track1" |})].

(** C3 fails as stated: before the capabilities arrive, [consumeTrack] gives
    its caller no error but "no track"; and while the device is loading,
    [produceTrack] does not fail at all: it requests a producer transport. *)
Lemma consumeTrack_not_ready_no_error :
  let c := new_MediasoupClient "me" in
  capability c = NotReady /\
  consumeTrack_result 0 (step' c (Call_consumeTrack "A" "p1")) =
    Some (Fulfilled None) /\
  let c1 := run' [Socket_open; Socket_message (rtpCapabilities "caps")] c in
  capability c1 = Loading /\
  trace (step' c1 (Call_produceTrack "camera")) =
    trace c1 ++ [Sent (createProducerTransport_req "me")].
Proof. vm_compute. repeat split. Qed.

Lemma not_initialized_fails_fast_witness :
  capability (run' [Socket_open] (new_MediasoupClient "me")) = NotReady /\
  step' (run' [Socket_open] (new_MediasoupClient "me")) (Call_produceTrack "camera") =
    observe (ProduceSettled "camera" (Rejected "Device not initialized"))
      (run' [Socket_open] (new_MediasoupClient "me")).
Proof.
  assert (H : capability (run' [Socket_open] (new_MediasoupClient "me")) = NotReady)
    by (vm_compute; reflexivity).
  split; [exact H|].
  exact (proj1 (not_initialized_fails_fast createTransport createTransport
                  "me" [Socket_open] H) "camera").
Defined.

(** C5 fails as stated: the consumer of a participant that left stays in the
    [consumers] map. *)
Lemma participantLeft_keeps_consumers :
  let c := run' consume_from_A (new_MediasoupClient "me") in
  let c' := step' c (Socket_message (participantLeft "A")) in
  JsMap.get "A" (consumerTransports c) = Some {| transport_id := "t1" |} /\
  JsMap.get "c1" (consumers c) =
    Some {| consumer_id := "c1"; consumer_track := "track1" |} /\
  JsMap.get "A" (consumerTransports c') = None /\
  JsMap.get "c1" (consumers c') =
    Some {| consumer_id := "c1"; consumer_track := "track1" |}.
Proof. vm_compute. repeat split. Qed.

Lemma participantLeft_closes_transport_witness :
  JsMap.get "A"
    (consumerTransports (run' consume_from_A (new_MediasoupClient "me"))) =
    Some {| transport_id := "t1" |} /\
  consumers
    (step' (run' consume_from_A (new_MediasoupClient "me"))
       (Socket_message (participantLeft "A"))) =
  consumers (run' consume_from_A (new_MediasoupClient "me")).
Proof.
  assert (H : JsMap.get "A"
                (consumerTransports (run' consume_from_A (new_MediasoupClient "me"))) =
              Some {| transport_id := "t1" |}) by (vm_compute; reflexivity).
  split; [exact H|].
  exact (proj1 (proj2 (proj2 (proj2
           (participantLeft_closes_transport createTransport createTransport
              "me" consume_from_A "A" {| transport_id := "t1" |} H))))).
Defined.

(** C9 fails as stated: the announcements of a second [joined] message
    replace those of the first. *)
Lemma joined_twice_replaces :
  let a := {| info_participantId := "A"; info_producerId := "p1"; info_kind := "video" |} in
  let b := {| info_participantId := "B"; info_producerId := "p2"; info_kind := "audio" |} in
  let c := run' [Socket_message (joined (Some [a])); Socket_message (joined (Some [b]))]
             (new_MediasoupClient "me") in
  capability c = NotReady /\
  pendingExistingProducers c = [b] /\
  pendingExistingProducers c <> [a; b].
Proof. vm_compute. repeat split. discriminate. Qed.

Lemma ready_flushes_pending_witness :
  let a := {| info_participantId := "A"; info_producerId := "p1"; info_kind := "video" |} in
  let b := {| info_participantId := "B"; info_producerId := "p2"; info_kind := "audio" |} in
  let c := run' [Socket_message (joined (Some [a; b]));
                 Socket_message (rtpCapabilities "caps")]
             (new_MediasoupClient "me") in
  existsb (Nat.eqb 0) (loading c) = true /\
  device c = Some 0 /\
  emissions (trace (step' c (Engine_load 0 true))) =
    emissions (trace c) ++ map announcement (pendingExistingProducers c).
Proof.
  intros a b c.
  assert (H1 : existsb (Nat.eqb 0) (loading c) = true) by (vm_compute; reflexivity).
  assert (H2 : device c = Some 0) by (vm_compute; reflexivity).
  split; [exact H1|]. split; [exact H2|].
  exact (proj1 (proj2 (ready_flushes_pending createTransport createTransport
                         c 0 H1 H2))).
Defined.

(** A session that produces a track before it disconnects. *)
Definition produce_camera : list Input :=
  become_ready ++
  [Call_produceTrack "camera";
   Socket_message (producerTransportCreated (transportData "pt"))].

Lemma produce_after_disconnect_witness :
  let c := run' produce_camera (new_MediasoupClient "me") in
  device c = Some 0 /\
  producerTransport c = Some {| transport_id := "pt" |} /\
  producing (step' (step' c Call_disconnect) (Call_produceTrack "microphone")) =
    producing (step' c Call_disconnect) ++ [({| transport_id := "pt" |}, "microphone")].
Proof.
  intros c.
  assert (H1 : device c = Some 0) by (vm_compute; reflexivity).
  assert (H2 : producerTransport c = Some {| transport_id := "pt" |}) by (vm_compute; reflexivity).
  split; [exact H1|]. split; [exact H2|].
  pose proof (produce_after_disconnect createTransport createTransport
                "me" produce_camera 0 {| transport_id := "pt" |} "microphone" H1 H2)
    as R.
  cbv zeta in R. decompose [and] R. assumption.
Defined.

(** A client that is connecting sends nothing, whatever is called. *)
Lemma nothing_sent_unless_open_witness :
  let inputs :=
    [Call_connect; Call_produceTrack "camera"; Call_consumeTrack "A" "p1";
     Socket_message (rtpCapabilities "caps"); Engine_load 0 true;
     Call_produceTrack "camera"] in
  ws (new_MediasoupClient "me") <> OPEN /\
  ~ In Socket_open inputs /\
  sent_messages (trace (run' inputs (new_MediasoupClient "me"))) = [].
Proof.
  intros inputs.
  assert (H1 : ws (new_MediasoupClient "me") <> OPEN) by (simpl; discriminate).
  assert (H2 : ~ In Socket_open inputs)
    by (simpl; intros H; decompose [or] H; discriminate || assumption).
  split; [exact H1|]. split; [exact H2|].
  exact (proj1 (nothing_sent_unless_open createTransport createTransport
                  (new_MediasoupClient "me") inputs H1 H2)).
Defined.

(** Two [connect] calls before the socket opens give one join. *)
Lemma connect_joins_when_socket_opens_witness :
  let inputs :=
    [Call_on "joined" 1; Call_connect; Socket_message (joined None); Call_connect] in
  forallb keeps_socket inputs = true /\
  sent_messages
    (trace (run' (inputs ++ [Socket_open]) (new_MediasoupClient "me"))) =
  [join "me"; getRtpCapabilities].
Proof.
  intros inputs.
  assert (H : forallb keeps_socket inputs = true) by (vm_compute; reflexivity).
  split; [exact H|].
  exact (connect_joins_when_socket_opens createTransport createTransport
           "me" inputs H).
Defined.

(** A session that waits for a [consumed] reply, with handlers of the
    application around the one-shot handler. *)
Definition awaiting_consumed : list Input :=
  become_ready ++
  [Call_on "consumed" 1; Call_consumeTrack "A" "p1";
   Socket_message (consumerTransportCreated (transportData "t1"));
   Call_on "consumed" 2; Call_on "consumed" 3].

(** The handler 2, registered right behind the one-shot handler, does not
    get the event. *)
Lemma once_handler_hides_the_next_witness :
  let c := run' awaiting_consumed (new_MediasoupClient "me") in
  let args := ConsumedArgs (consumedData "c1") in
  handlersOf "consumed" c =
    [Plain (UserCallback 1)] ++
    Wrapper 2 (ConsumedCb 0 {| transport_id := "t1" |})
    :: [Plain (UserCallback 2); Plain (UserCallback 3)] /\
  deliveries (trace (emit createTransport createTransport "consumed" args c)) =
    deliveries (trace c) ++ [(1, "consumed", args); (3, "consumed", args)] /\
  handlersOf "consumed" (emit createTransport createTransport "consumed" args c) =
    [Plain (UserCallback 1); Plain (UserCallback 2); Plain (UserCallback 3)].
Proof.
  intros c args.
  assert (H : handlersOf "consumed" c =
              [Plain (UserCallback 1)] ++
              Wrapper 2 (ConsumedCb 0 {| transport_id := "t1" |})
              :: [Plain (UserCallback 2); Plain (UserCallback 3)])
    by (vm_compute; reflexivity).
  split; [exact H|].
  exact (once_handler_hides_the_next createTransport createTransport
           "consumed" args c [Plain (UserCallback 1)]
           [Plain (UserCallback 2); Plain (UserCallback 3)] 2
           (ConsumedCb 0 {| transport_id := "t1" |}) H eq_refl eq_refl eq_refl).
Defined.

(** Two calls are made; the engine refuses the transport data of the first
    reply.  Neither call ever gets a result. *)
Lemma refused_transport_stalls_the_queue_witness :
  let inputs :=
    become_ready ++ [Call_consumeTrack "A" "p1"; Call_consumeTrack "B" "p2"] in
  let later :=
    [Socket_message (consumerTransportCreated (transportData "t2"));
     Socket_message (consumed (consumedData "c1"));
     Call_consumeTrack "C" "p3"] in
  let c := run' inputs (new_MediasoupClient "me") in
  let c' :=
    run' later
      (step' c (Socket_message (consumerTransportCreated (transportData "")))) in
  In 0 (links_of (handlersOf "consumerTransportCreated" c)) /\
  createTransport (transportData "") = None /\
  (forall j, 0 <= j -> consumeTrack_result j c' = None) /\
  started_links (trace c') = started_links (trace c).
Proof.
  intros inputs later c c'.
  assert (H1 : In 0 (links_of (handlersOf "consumerTransportCreated" c)))
    by (vm_compute; auto).
  assert (H2 : createTransport (transportData "") = None) by (vm_compute; reflexivity).
  split; [exact H1|]. split; [exact H2|].
  exact (refused_transport_stalls_the_queue createTransport createTransport
           "me" inputs later (transportData "") 0 H1 H2).
Defined.

(** A second track of participant A, whose transport is stored. *)
Lemma consume_reuses_the_stored_transport_witness :
  let c := run' consume_from_A (new_MediasoupClient "me") in
  let x := {| consumer_id := "c2"; consumer_track := "track2" |} in
  let c1 := step' c (Call_consumeTrack "A" "p9") in
  let c3 :=
    step' (step' c1 (Socket_message (consumed (consumedData "c2"))))
      (Engine_consumed 0 (Some x)) in
  outstanding c = 0 /\ device c = Some 0 /\ ws c = OPEN /\
  JsMap.get "A" (consumerTransports c) = Some {| transport_id := "t1" |} /\
  sent_messages (trace c1) =
    sent_messages (trace c) ++ [consume "me" "t1" "A" "p9" 0] /\
  consumeTrack_result 1 c3 = Some (Fulfilled (Some "track2")).
Proof.
  intros c x c1 c3.
  assert (H1 : outstanding c = 0) by (vm_compute; reflexivity).
  assert (H2 : device c = Some 0) by (vm_compute; reflexivity).
  assert (H3 : ws c = OPEN) by (vm_compute; reflexivity).
  assert (H4 : JsMap.get "A" (consumerTransports c) = Some {| transport_id := "t1" |})
    by (vm_compute; reflexivity).
  split; [exact H1|]. split; [exact H2|]. split; [exact H3|]. split; [exact H4|].
  pose proof (consume_reuses_the_stored_transport createTransport createTransport
                "me" consume_from_A "A" "p9" 0 {| transport_id := "t1" |}
                (consumedData "c2") (Some x) H1 H2 H3 H4) as R.
  cbv zeta in R. destruct R as [R1 [_ [_ [R4 _]]]].
  split; [exact R1 | exact R4].
Defined.

(** The first track of participant A. *)
Lemma first_consume_creates_the_transport_witness :
  let c := run' become_ready (new_MediasoupClient "me") in
  let t := {| transport_id := "t1" |} in
  let c1 := step' c (Call_consumeTrack "A" "p1") in
  let c2 := step' c1 (Socket_message (consumerTransportCreated (transportData "t1"))) in
  outstanding c = 0 /\ device c = Some 0 /\ ws c = OPEN /\
  JsMap.get "A" (consumerTransports c) = None /\
  createTransport (transportData "t1") = Some t /\
  sent_messages (trace c2) =
    sent_messages (trace c1) ++ [consume "me" "t1" "A" "p1" 0] /\
  consumerTransports c2 = JsMap.set "A" t (consumerTransports c).
Proof.
  intros c t c1 c2.
  assert (H1 : outstanding c = 0) by (vm_compute; reflexivity).
  assert (H2 : device c = Some 0) by (vm_compute; reflexivity).
  assert (H3 : ws c = OPEN) by (vm_compute; reflexivity).
  assert (H4 : JsMap.get "A" (consumerTransports c) = None) by (vm_compute; reflexivity).
  assert (H5 : createTransport (transportData "t1") = Some t) by (vm_compute; reflexivity).
  split; [exact H1|]. split; [exact H2|]. split; [exact H3|]. split; [exact H4|].
  split; [exact H5|].
  pose proof (first_consume_creates_the_transport createTransport createTransport
                "me" become_ready "A" "p1" 0 (transportData "t1") t
                (consumedData "c1") None H1 H2 H3 H4 H5) as R.
  cbv zeta in R. destruct R as [_ [R2 [_ [R4 _]]]].
  split; [exact R2 | exact R4].
Defined.

(** The track the first call resolved to is still its result after
    [disconnect]. *)
Lemma consume_results_are_final_witness :
  let c := run' consume_from_A (new_MediasoupClient "me") in
  consumeTrack_result 0 c = Some (Fulfilled (Some "track1")) /\
  consumeTrack_result 0 (run' [Call_disconnect; Call_consumeTrack "B" "p2"] c) =
    Some (Fulfilled (Some "track1")).
Proof.
  intros c.
  assert (H : consumeTrack_result 0 c = Some (Fulfilled (Some "track1")))
    by (vm_compute; reflexivity).
  split; [exact H|].
  exact (proj2 (consume_results_are_final createTransport createTransport
                  "me" consume_from_A [Call_disconnect; Call_consumeTrack "B" "p2"]
                  0 (Fulfilled (Some "track1")) H)).
Defined.

(** The camera is produced on a new producer transport. *)
Lemma produce_creates_the_transport_witness :
  let c := run' become_ready (new_MediasoupClient "me") in
  let t := {| transport_id := "pt" |} in
  let p := {| producer_id := "P1" |} in
  let c2 :=
    step' (step' c (Call_produceTrack "camera"))
      (Socket_message (producerTransportCreated (transportData "pt"))) in
  let c3 := step' c2 (Engine_produced (List.length (producing c)) (Some p)) in
  device c = Some 0 /\ ws c = OPEN /\ producerTransport c = None /\
  forallb is_user (handlersOf "producerTransportCreated" c) = true /\
  createTransport (transportData "pt") = Some t /\
  producerTransport c2 = Some t /\
  producing c2 = producing c ++ [(t, "camera")] /\
  producers c3 = JsMap.set "P1" p (producers c).
Proof.
  intros c t p c2 c3.
  assert (H1 : device c = Some 0) by (vm_compute; reflexivity).
  assert (H2 : ws c = OPEN) by (vm_compute; reflexivity).
  assert (H3 : producerTransport c = None) by (vm_compute; reflexivity).
  assert (H4 : forallb is_user (handlersOf "producerTransportCreated" c) = true)
    by (vm_compute; reflexivity).
  assert (H5 : createTransport (transportData "pt") = Some t)
    by (vm_compute; reflexivity).
  split; [exact H1|]. split; [exact H2|]. split; [exact H3|]. split; [exact H4|].
  split; [exact H5|].
  pose proof (produce_creates_the_transport createTransport createTransport
                "me" become_ready "camera" 0 (transportData "pt") t (Some p)
                H1 H2 H3 H4 H5) as R.
  cbv zeta in R. destruct R as [_ [R2 [R3 [_ [_ [_ R6]]]]]].
  split; [exact R2|]. split; [exact R3 | exact R6].
Defined.

(** Camera and microphone are produced at once: two transports. *)
Lemma two_produce_calls_make_two_transports_witness :
  let c := run' become_ready (new_MediasoupClient "me") in
  let t1 := {| transport_id := "pt1" |} in
  let t2 := {| transport_id := "pt2" |} in
  let c4 :=
    run' [Call_produceTrack "camera"; Call_produceTrack "microphone";
          Socket_message (producerTransportCreated (transportData "pt1"));
          Socket_message (producerTransportCreated (transportData "pt2"))] c in
  device c = Some 0 /\ ws c = OPEN /\ producerTransport c = None /\
  forallb is_user (handlersOf "producerTransportCreated" c) = true /\
  createTransport (transportData "pt1") = Some t1 /\
  createTransport (transportData "pt2") = Some t2 /\
  producerTransport c4 = Some t2 /\
  producing c4 = producing c ++ [(t1, "camera"); (t2, "microphone")].
Proof.
  intros c t1 t2 c4.
  assert (H1 : device c = Some 0) by (vm_compute; reflexivity).
  assert (H2 : ws c = OPEN) by (vm_compute; reflexivity).
  assert (H3 : producerTransport c = None) by (vm_compute; reflexivity).
  assert (H4 : forallb is_user (handlersOf "producerTransportCreated" c) = true)
    by (vm_compute; reflexivity).
  assert (H5 : createTransport (transportData "pt1") = Some t1)
    by (vm_compute; reflexivity).
  assert (H6 : createTransport (transportData "pt2") = Some t2)
    by (vm_compute; reflexivity).
  split; [exact H1|]. split; [exact H2|]. split; [exact H3|]. split; [exact H4|].
  split; [exact H5|]. split; [exact H6|].
  pose proof (two_produce_calls_make_two_transports createTransport createTransport
                "me" become_ready "camera" "microphone" 0 (transportData "pt1")
                (transportData "pt2") t1 t2 H1 H2 H3 H4 H5 H6) as R.
  cbv zeta in R. destruct R as [_ [_ [_ [R4 [R5 _]]]]].
  split; [exact R4 | exact R5].
Defined.

(** The consumer transport "t1" connects. *)
Lemma transport_connect_is_relayed_witness :
  let c := run' become_ready (new_MediasoupClient "me") in
  let c1 := step' c (Engine_connect Receiving "t1" "dtls") in
  ws c = OPEN /\
  forallb is_user (handlersOf (connected_event Receiving) c) = true /\
  trace c1 = trace c ++ [Sent (connectConsumerTransport "me" "t1" "dtls")].
Proof.
  intros c c1.
  assert (H1 : ws c = OPEN) by (vm_compute; reflexivity).
  assert (H2 : forallb is_user (handlersOf (connected_event Receiving) c) = true)
    by (vm_compute; reflexivity).
  split; [exact H1|]. split; [exact H2|].
  exact (proj1 (transport_connect_is_relayed createTransport createTransport
                  "me" become_ready Receiving "t1" "dtls" H1 H2)).
Defined.

(** The producer transport "pt" produces a video track. *)
Lemma transport_produce_is_relayed_witness :
  let c := run' become_ready (new_MediasoupClient "me") in
  let c1 := step' c (Engine_produce "pt" "video" "rtp") in
  ws c = OPEN /\
  forallb is_user (handlersOf "produced" c) = true /\
  trace c1 = trace c ++ [Sent (produce "me" "pt" "video" "rtp")].
Proof.
  intros c c1.
  assert (H1 : ws c = OPEN) by (vm_compute; reflexivity).
  assert (H2 : forallb is_user (handlersOf "produced" c) = true)
    by (vm_compute; reflexivity).
  split; [exact H1|]. split; [exact H2|].
  exact (proj1 (transport_produce_is_relayed createTransport createTransport
                  "me" become_ready "pt" "video" "rtp" "P1" H1 H2)).
Defined.

(** The capabilities arrive twice; the first load ends while the second
    device is loading. *)
Lemma load_of_replaced_device_flushes_witness :
  let a := {| info_participantId := "A"; info_producerId := "p1"; info_kind := "video" |} in
  let c := run' [Socket_open; Socket_message (joined (Some [a]));
                 Socket_message (rtpCapabilities "caps");
                 Socket_message (rtpCapabilities "caps")]
             (new_MediasoupClient "me") in
  let c' := step' c (Engine_load 0 true) in
  existsb (Nat.eqb 0) (loading c) = true /\
  device c = Some 1 /\
  existsb (Nat.eqb 1) (loaded c) = false /\
  capability c' = Loading /\
  emissions (trace c') = emissions (trace c) ++ [("newProducer", ProducerArgs a)].
Proof.
  intros a c c'.
  assert (H1 : existsb (Nat.eqb 0) (loading c) = true) by (vm_compute; reflexivity).
  assert (H2 : device c = Some 1) by (vm_compute; reflexivity).
  assert (H3 : 0 <> 1) by lia.
  assert (H4 : existsb (Nat.eqb 1) (loaded c) = false) by (vm_compute; reflexivity).
  split; [exact H1|]. split; [exact H2|]. split; [exact H4|].
  pose proof (load_of_replaced_device_flushes createTransport createTransport
                c 0 1 H1 H2 H3 H4) as R.
  cbv zeta in R. destruct R as [R1 [R2 _]].
  split; [exact R1 | exact R2].
Defined.

(** The load of the device fails. *)
Lemma failed_load_leaves_the_device_witness :
  let c := run' [Socket_open; Socket_message (rtpCapabilities "caps")]
             (new_MediasoupClient "me") in
  let c' := step' c (Engine_load 0 false) in
  existsb (Nat.eqb 0) (loading c) = true /\
  device c = Some 0 /\
  existsb (Nat.eqb 0) (loaded c) = false /\
  capability c' = Loading /\ trace c' = trace c.
Proof.
  intros c c'.
  assert (H1 : existsb (Nat.eqb 0) (loading c) = true) by (vm_compute; reflexivity).
  assert (H2 : device c = Some 0) by (vm_compute; reflexivity).
  assert (H3 : existsb (Nat.eqb 0) (loaded c) = false) by (vm_compute; reflexivity).
  split; [exact H1|]. split; [exact H2|]. split; [exact H3|].
  pose proof (failed_load_leaves_the_device createTransport createTransport
                "me" [Socket_open; Socket_message (rtpCapabilities "caps")] 0
                "camera" H1 H2 H3) as R.
  cbv zeta in R. destruct R as [R1 [R2 _]].
  split; [exact R1 | exact R2].
Defined.

(** The consumer of participant A is still registered when A has left. *)
Lemma registered_until_disconnect_witness :
  let c := run' consume_from_A (new_MediasoupClient "me") in
  let later := [Socket_message (participantLeft "A"); Call_consumeTrack "A" "p2"] in
  existsb is_disconnect later = false /\
  JsMap.has "c1" (consumers c) = true /\
  JsMap.has "c1" (consumers (run' later c)) = true.
Proof.
  intros c later.
  assert (H1 : existsb is_disconnect later = false) by (vm_compute; reflexivity).
  assert (H2 : JsMap.has "c1" (consumers c) = true) by (vm_compute; reflexivity).
  split; [exact H1|]. split; [exact H2|].
  exact (proj2 (registered_until_disconnect createTransport createTransport
                  "me" consume_from_A later "c1" H1) H2).
Defined.

(** C1. The code breaks the last clause of the claim.  Three calls are made
    at once on a ready client; the engine refuses the transport data of the
    reply to the first one.  [createRecvTransport] throws inside the one-shot
    handler of [createConsumerTransport], which catches nothing and never
    resolves: the first call stays pending, and the second and third call are
    never started, whatever arrives afterwards. *)
Lemma refused_transport_blocks_the_next_calls :
  let calls :=
    become_ready ++
    [Call_consumeTrack "A" "p1"; Call_consumeTrack "B" "p2";
     Call_consumeTrack "C" "p3"] in
  let refused := Socket_message (consumerTransportCreated (transportData "")) in
  let later :=
    [Socket_message (consumerTransportCreated (transportData "t2"));
     Socket_message (consumed (consumedData "c1")); Engine_consumed 0 None;
     Socket_message (participantLeft "A"); Engine_load 0 true] in
  let c := run' (calls ++ refused :: later) (new_MediasoupClient "me") in
  createTransport (transportData "") = None /\
  capability c = Ready /\ ws c = OPEN /\
  map link_state (consumeQueue c) = [Running; Queued; Queued] /\
  started_links (trace c) = [0] /\
  sent_messages (trace c) = [createConsumerTransport_req "me"] /\
  consumeTrack_result 0 c = None /\ consumeTrack_result 1 c = None /\
  consumeTrack_result 2 c = None.
Proof. vm_compute. repeat split. Qed.

(** C6. The code breaks the claim at the same place.  The engine refuses the
    transport data of the reply to a call: the call neither rejects nor
    resolves to no track, it never settles; a call made afterwards is never
    started, although the replies it would need arrive. *)
Lemma refused_transport_never_resolves :
  let c :=
    run' (become_ready ++
          [Call_consumeTrack "A" "p1";
           Socket_message (consumerTransportCreated (transportData ""));
           Call_consumeTrack "B" "p2";
           Socket_message (consumerTransportCreated (transportData "t1"));
           Socket_message (consumed (consumedData "c1"));
           Engine_consumed 0 None])
      (new_MediasoupClient "me") in
  createTransport (transportData "") = None /\
  createTransport (transportData "t1") = Some {| transport_id := "t1" |} /\
  consumeTrack_result 0 c = None /\
  consumeTrack_result 1 c = None /\
  map link_state (consumeQueue c) = [Running; Queued] /\
  started_links (trace c) = [0].
Proof. vm_compute. repeat split. Qed.

(** C8. The code breaks the claim when a one-shot handler of the class is in
    the array.  The application registers the handlers 1, 2 and 3 for
    [producerTransportCreated], and [produceTrack] registers its one-shot
    handler between 1 and 2.  When the event is published all four are
    registered; the handlers 1 and 3 are invoked, the handler 2 is not: the
    one-shot handler, removing itself during its invocation, keeps the
    handler behind it from being invoked. *)
Lemma handler_behind_wrapper_misses_the_event :
  let c :=
    run' (become_ready ++
          [Call_on "producerTransportCreated" 1; Call_produceTrack "camera";
           Call_on "producerTransportCreated" 2;
           Call_on "producerTransportCreated" 3])
      (new_MediasoupClient "me") in
  let args := TransportArgs (transportData "pt") in
  let c' := step' c (Socket_message (producerTransportCreated (transportData "pt"))) in
  handlersOf "producerTransportCreated" c =
    [Plain (UserCallback 1); Wrapper 1 (ProducerTransportCreatedCb "camera");
     Plain (UserCallback 2); Plain (UserCallback 3)] /\
  deliveries (trace c') =
    [(1, "producerTransportCreated", args); (3, "producerTransportCreated", args)] /\
  handlersOf "producerTransportCreated" c' =
    [Plain (UserCallback 1); Plain (UserCallback 2); Plain (UserCallback 3)].
Proof. vm_compute. repeat split. Qed.

